(** * Purification of a dense weighted score tensor (libebm, Purify.cpp)

    A shallow embedding of [PurifyInternal] and of the validating entry
    point [Purify], together with the properties of the purification
    algorithm: conservation, the convergence test, the intercept, the
    decoding of surface bins and the error codes of the entry point.

    The code computes on [double].  The embedding is written once over an
    interface [Arith] of the operations the code uses, and is instantiated
    twice: with exact rationals [Q] (the reading under which the numeric
    properties are stated) and with IEEE 754 binary64 ([PrimFloat]), the
    arithmetic the compiled code runs on. *)

From Stdlib Require Import ZArith List Bool Lia FinFun Sorted Permutation QArith Qabs Lqa Floats.
Import ListNotations.

Set Implicit Arguments.

(** ** Machine integers *)

(** [size_t] on the 64-bit targets of libebm: values in [0, 2^64), with
    unsigned wrap-around on overflow. *)
Definition size_modulus : Z := 2 ^ 64.

Definition wrap (z : Z) : Z := z mod size_modulus.

(** [static_cast<size_t>(x)] for an [IntEbm] (a signed 64-bit integer). *)
Definition to_size_t (x : Z) : Z := wrap x.

(** The index sequence [0, 1, ..., n-1] of a counted loop. *)
Definition zrange (n : Z) : list Z := map Z.of_nat (seq 0 (Z.to_nat n)).

(** ** The arithmetic of [double] as an interface *)

Class Arith (F : Type) : Type := {
  f0 : F;                      (* the literal 0.0 *)
  fadd : F -> F -> F;          (* a + b *)
  fmul : F -> F -> F;          (* a * b *)
  fdiv : F -> F -> F;          (* a / b *)
  fopp : F -> F;               (* -a *)
  fabs : F -> F;               (* std::abs(a) *)
  feqb : F -> F -> bool;       (* a == b *)
  fltb : F -> F -> bool;       (* a < b *)
  fleb : F -> F -> bool;       (* a <= b *)
  finf_leb : F -> bool         (* std::numeric_limits<double>::infinity() <= a *)
}.

(** Exact rational arithmetic.  There is no infinite rational, so
    [infinity <= a] is never true. *)
#[export] Instance Q_arith : Arith Q := {|
  f0 := 0%Q;
  fadd := Qplus;
  fmul := Qmult;
  fdiv := Qdiv;
  fopp := Qopp;
  fabs := Qabs;
  feqb := Qeq_bool;
  fltb := fun a b => negb (Qle_bool b a);
  fleb := Qle_bool;
  finf_leb := fun _ => false
|}.

(** IEEE 754 binary64, round to nearest even. *)
#[export] Instance float_arith : Arith float := {|
  f0 := PrimFloat.zero;
  fadd := PrimFloat.add;
  fmul := PrimFloat.mul;
  fdiv := PrimFloat.div;
  fopp := PrimFloat.opp;
  fabs := PrimFloat.abs;
  feqb := PrimFloat.eqb;
  fltb := PrimFloat.ltb;
  fleb := PrimFloat.leb;
  finf_leb := fun a => PrimFloat.leb PrimFloat.infinity a
|}.

(** ** Outcomes *)

(** The error codes of libebm that [Purify] returns. *)
Inductive ErrorEbm : Set :=
| Error_None
| Error_OutOfMemory
| Error_IllegalParamVal.

(** The outcome of running a loop whose number of rounds is not known in
    advance: it finished with a value, it left the dimension array (the
    situation the code's [EBM_ASSERT]s exclude), or the rounds granted to
    the model did not suffice. *)
Inductive exec (A : Type) : Type :=
| Done (a : A)
| Fault
| OutOfFuel.
Arguments Fault {A}.
Arguments OutOfFuel {A}.

(** ** Buffers *)

Section Buffers.
Context {A : Type}.

(** In-place update of one cell; an index outside the buffer is not
    modelled as a write. *)
Fixpoint upd (l : list A) (n : nat) (v : A) : list A :=
  match l, n with
  | [], _ => []
  | _ :: t, O => v :: t
  | h :: t, S n' => h :: upd t n' v
  end.

Definition store (a : list A) (i : Z) (v : A) : list A :=
  if (i <? 0)%Z then a else upd a (Z.to_nat i) v.

Definition load (d : A) (a : list A) (i : Z) : A := nth (Z.to_nat i) a d.
End Buffers.

(** ** Decoding a surface bin (Purify.cpp, lines 94-125) *)

(** The [while(true)] loop that finds the sweep dimension of a linear
    surface bin id.  The recursion walks [aDimensionLengths] from
    [iSweepDimension] on; [None] is the case [EBM_ASSERT(iSweepDimension <
    cDimensions)] excludes.  Result: [iSweepDimension], [cSweepBins],
    [cTensorIncrement] and the remaining [iDimensionSurfaceBin]. *)
Fixpoint find_sweep (lens : list Z) (cTensorBins : Z) (iSweepDimension : nat)
    (cTensorIncrement iDimensionSurfaceBin : Z) : option (nat * Z * Z * Z) :=
  match lens with
  | [] => None
  | len :: rest =>
      let cSweepBins := to_size_t len in
      let cSurfaceBinsExclude := (cTensorBins / cSweepBins)%Z in
      if (iDimensionSurfaceBin <? cSurfaceBinsExclude)%Z then
        Some (iSweepDimension, cSweepBins, cTensorIncrement, iDimensionSurfaceBin)
      else
        find_sweep rest cTensorBins (S iSweepDimension)
          (wrap (cTensorIncrement * cSweepBins))
          (iDimensionSurfaceBin - cSurfaceBinsExclude)%Z
  end.

(** The [for] loop over all dimensions that peels one mixed-radix digit per
    dimension other than the sweep dimension.  Result: the final
    [iDimensionSurfaceBin] (the residual of the assertion on line 123) and
    [iTensor]. *)
Fixpoint cross_section (lens : list Z) (iDimension iSweepDimension : nat)
    (iDimensionSurfaceBin iTensor multiple : Z) : Z * Z :=
  match lens with
  | [] => (iDimensionSurfaceBin, iTensor)
  | len :: rest =>
      let cBins := to_size_t len in
      if Nat.eqb iDimension iSweepDimension then
        cross_section rest (S iDimension) iSweepDimension
          iDimensionSurfaceBin iTensor (wrap (multiple * cBins))
      else
        let iBin := (iDimensionSurfaceBin mod cBins)%Z in
        cross_section rest (S iDimension) iSweepDimension
          (iDimensionSurfaceBin / cBins)%Z
          (wrap (iTensor + wrap (iBin * multiple)))
          (wrap (multiple * cBins))
  end.

(** What the decoding of one surface bin hands to the slice loops. *)
Record slice : Set := mkSlice {
  iSweepDimension : nat;
  cSweepBins : Z;
  cTensorIncrement : Z;
  iTensor : Z;
  residual : Z      (* iDimensionSurfaceBin at the assertion of line 123 *)
}.

Definition decode (lens : list Z) (cTensorBins iAllSurfaceBin : Z) : option slice :=
  match find_sweep lens cTensorBins 0 1 iAllSurfaceBin with
  | None => None
  | Some (iSweep, cSweep, cInc, iDimensionSurfaceBin) =>
      let '(res, iT) := cross_section lens 0 iSweep iDimensionSurfaceBin 0 1 in
      Some (mkSlice iSweep cSweep cInc iT res)
  end.

(** The cells visited by
    [for(iTensorCur = iTensor; iTensorCur != iTensorEnd; iTensorCur += cTensorIncrement)].
    [iTensorEnd] is [iTensor + cTensorIncrement * cSweepBins], so the loop
    leaves after at most [cSweepBins] rounds, which is the fuel given. *)
Fixpoint slice_indices (fuel : nat) (iTensorCur iTensorEnd cInc : Z) : list Z :=
  match fuel with
  | O => []
  | S fuel' =>
      if (iTensorCur =? iTensorEnd)%Z then []
      else iTensorCur :: slice_indices fuel' (wrap (iTensorCur + cInc)) iTensorEnd cInc
  end.

Definition slice_cells (s : slice) : list Z :=
  let iTensorEnd := wrap (iTensor s + wrap (cTensorIncrement s * cSweepBins s)) in
  slice_indices (Z.to_nat (cSweepBins s)) (iTensor s) iTensorEnd (cTensorIncrement s).

(** The number of surface bins (lines 72-80). *)
Definition count_surface_bins (lens : list Z) (cTensorBins : Z) : Z :=
  fold_left (fun cSurfaceBins len =>
               wrap (cSurfaceBins + cTensorBins / to_size_t len))
            lens 0%Z.

(** ** [PurifyInternal] *)

Section Core.
Context {F : Type} {AF : Arith F}.

(** *** Step 1: the totals over all cells (lines 37-52) *)

Record totals : Type := mkTotals {
  impurityMax0 : F;        (* the sum of |score * weight| *)
  impurityTotalAll : F;
  weightTotalAll : F
}.

Definition totals_step (aWeights aScores : list F) (t : totals) (i : Z) : totals :=
  let weight := load f0 aWeights i in
  let score := load f0 aScores i in
  let impurity := fmul score weight in
  mkTotals (fadd (impurityMax0 t) (fabs impurity))
           (fadd (impurityTotalAll t) impurity)
           (fadd (weightTotalAll t) weight).

(** The [do ... while(aScoresEnd != pScore)] loop visits the cells
    [0 .. cTensorBins-1] ([1 <= cTensorBins] is asserted on entry). *)
Definition sum_totals (cTensorBins : Z) (aWeights aScores : list F) : totals :=
  fold_left (totals_step aWeights aScores) (zrange cTensorBins) (mkTotals f0 f0 f0).

(** *** The intercept (lines 60-70) *)

(** [*pScore2 += interceptNeg] for every cell. *)
Definition subtract_intercept (cTensorBins : Z) (interceptNeg : F)
    (aScores : list F) : list F :=
  fold_left (fun a i => store a i (fadd (load f0 a i) interceptNeg))
            (zrange cTensorBins) aScores.

(** [memset(aImpurities, 0, cSurfaceBins * sizeof( *aImpurities))]: the
    byte count is a [size_t] product, and the cells it covers are
    zeroed. *)
Definition memset_zero (cSurfaceBins : Z) (aImpurities : list F) : list F :=
  fold_left (fun a i => store a i f0)
            (zrange (wrap (cSurfaceBins * 8) / 8)) aImpurities.

(** *** Step 3: one surface bin (lines 125-147) *)

(** The state of one pass: the two buffers the pass writes, and its two
    accumulators. *)
Record pass_state : Type := mkPass {
  aScores_of : list F;
  aImpurities_of : list F;
  impurityCur : F;
  bRetry : bool
}.

(** The reduction loop of lines 128-134: [(impurity, weightTotal)]. *)
Definition slice_reduce (aWeights aScores : list F) (cells : list Z) : F * F :=
  fold_left (fun '(impurity, weightTotal) iTensorCur =>
               let weight := load f0 aWeights iTensorCur in
               let score := load f0 aScores iTensorCur in
               (fadd impurity (fmul score weight), fadd weightTotal weight))
            cells (f0, f0).

(** Line 136: the weighted mean of the slice, [0.0] for a slice without
    weight. *)
Definition slice_impurity (aWeights aScores : list F) (cells : list Z) : F :=
  let '(impurity, weightTotal) := slice_reduce aWeights aScores cells in
  if feqb f0 weightTotal then f0 else fdiv impurity weightTotal.

(** The update loop of lines 145-147. *)
Definition slice_update (aScores : list F) (cells : list Z) (impurityNeg : F) : list F :=
  fold_left (fun a iTensorCur => store a iTensorCur (fadd (load f0 a iTensorCur) impurityNeg))
            cells aScores.

Definition purify_slice (aWeights : list F) (impurityMax : F)
    (st : pass_state) (iAllSurfaceBin : Z) (cells : list Z) : pass_state :=
  let impurity := slice_impurity aWeights (aScores_of st) cells in
  let absImpurity := fabs impurity in
  mkPass (slice_update (aScores_of st) cells (fopp impurity))
         (store (aImpurities_of st) iAllSurfaceBin
                (fadd (load f0 (aImpurities_of st) iAllSurfaceBin) impurity))
         (fadd (impurityCur st) absImpurity)
         (bRetry st || fltb impurityMax absImpurity).

(** The body of the loop over [iAllSurfaceBin] (lines 94-147). *)
Definition purify_bin (lens : list Z) (cTensorBins : Z) (aWeights : list F)
    (impurityMax : F) (st : pass_state) (iAllSurfaceBin : Z) : option pass_state :=
  match decode lens cTensorBins iAllSurfaceBin with
  | None => None
  | Some s => Some (purify_slice aWeights impurityMax st iAllSurfaceBin (slice_cells s))
  end.

(** The loop over [iAllSurfaceBin], for the surface bins of [bins] in
    sequence. *)
Definition purify_bins (lens : list Z) (cTensorBins : Z) (aWeights : list F)
    (impurityMax : F) (bins : list Z) (st : pass_state) : option pass_state :=
  fold_left (fun ost iAllSurfaceBin =>
               match ost with
               | None => None
               | Some st => purify_bin lens cTensorBins aWeights impurityMax st iAllSurfaceBin
               end)
            bins (Some st).

(** One pass (lines 88-148): [impurityCur = 0.0], [bRetry = false], then
    every surface bin in sequence. *)
Definition purify_pass (lens : list Z) (cTensorBins cSurfaceBins : Z)
    (aWeights : list F) (impurityMax : F) (aScores aImpurities : list F)
    : option pass_state :=
  purify_bins lens cTensorBins aWeights impurityMax (zrange cSurfaceBins)
              (mkPass aScores aImpurities f0 false).

(** *** Step 4: the [do ... while(bRetry)] loop (lines 84-155) *)

(** [impurityPrev <= impurityCur]; [None] is the initial
    [impurityPrev], positive infinity. *)
Definition not_improved (impurityPrev : option F) (cur : F) : bool :=
  match impurityPrev with
  | None => finf_leb cur
  | Some prev => fleb prev cur
  end.

Fixpoint purify_loop (fuel : nat) (lens : list Z) (cTensorBins cSurfaceBins : Z)
    (aWeights : list F) (impurityMax : F) (impurityPrev : option F)
    (aScores aImpurities : list F) : exec (list F * list F) :=
  match fuel with
  | O => OutOfFuel
  | S fuel' =>
      match purify_pass lens cTensorBins cSurfaceBins aWeights impurityMax
                        aScores aImpurities with
      | None => Fault
      | Some st =>
          if not_improved impurityPrev (impurityCur st) then
            Done (aScores_of st, aImpurities_of st)
          else if bRetry st then
            purify_loop fuel' lens cTensorBins cSurfaceBins aWeights impurityMax
                        (Some (impurityCur st)) (aScores_of st) (aImpurities_of st)
          else
            Done (aScores_of st, aImpurities_of st)
      end
  end.

(** The state of the loop after [n] passes none of which left it:
    [impurityPrev] and the two buffers; [None] when the loop was left (or
    the decoding failed) within these passes. *)
Fixpoint passes (n : nat) (lens : list Z) (cTensorBins cSurfaceBins : Z)
    (aWeights : list F) (impurityMax : F) (impurityPrev : option F)
    (aScores aImpurities : list F) : option (option F * list F * list F) :=
  match n with
  | O => Some (impurityPrev, aScores, aImpurities)
  | S n' =>
      match purify_pass lens cTensorBins cSurfaceBins aWeights impurityMax
                        aScores aImpurities with
      | None => None
      | Some st =>
          if not_improved impurityPrev (impurityCur st) then None
          else if bRetry st then
            passes n' lens cTensorBins cSurfaceBins aWeights impurityMax
                   (Some (impurityCur st)) (aScores_of st) (aImpurities_of st)
          else None
      end
  end.

(** Two states of a pass that differ at most in the impurities buffer:
    what decides how the loop goes on is the same in both. *)
Definition same_control (a b : pass_state) : Prop :=
  aScores_of a = aScores_of b /\ impurityCur a = impurityCur b /\ bRetry a = bRetry b.

(** *** The memory [PurifyInternal] writes *)

(** [pInterceptOut] is [None] for a null pointer; otherwise it carries
    the values stored through the pointer so far, newest first. *)
Record memory : Type := mkMem {
  mScores : list F;
  mImpurities : list F;
  mInterceptOut : option (list F)
}.

(** Lines 60-70: when [pInterceptOut] is not null, the intercept is stored
    through it and subtracted from every score. *)
Definition extract_intercept (cTensorBins : Z) (t : totals) (m : memory) : memory :=
  match mInterceptOut m with
  | None => m
  | Some stores =>
      let intercept := fdiv (impurityTotalAll t) (weightTotalAll t) in
      let interceptNeg := fopp intercept in
      mkMem (subtract_intercept cTensorBins interceptNeg (mScores m))
            (mImpurities m)
            (Some (intercept :: stores))
  end.

(** [PurifyInternal] (lines 22-158).  [fuel] bounds the number of passes
    of the model; the code has no such bound. *)
Definition PurifyInternal (fuel : nat) (cTensorBins : Z) (tolerance : F)
    (cDimensions : Z) (aDimensionLengths : list Z) (aWeights : list F)
    (m : memory) : exec (ErrorEbm * memory) :=
  let lens := firstn (Z.to_nat cDimensions) aDimensionLengths in
  let t := sum_totals cTensorBins aWeights (mScores m) in
  if feqb f0 (weightTotalAll t) then Done (Error_None, m)
  else
    let impurityMax := fdiv (fmul (impurityMax0 t) tolerance) (weightTotalAll t) in
    let m1 := extract_intercept cTensorBins t m in
    let cSurfaceBins := count_surface_bins lens cTensorBins in
    let aImpurities := memset_zero cSurfaceBins (mImpurities m1) in
    match purify_loop fuel lens cTensorBins cSurfaceBins aWeights impurityMax
                      None (mScores m1) aImpurities with
    | Done (aScores', aImpurities') =>
        Done (Error_None, mkMem aScores' aImpurities' (mInterceptOut m1))
    | Fault => Fault
    | OutOfFuel => OutOfFuel
    end.
End Core.

(** ** The entry point [Purify] (lines 161-273) *)

Section Shim.
Context {F : Type} {AF : Arith F}.

(** [k_cDimensionsMax], a constant of libebm's headers. *)
Variable k_cDimensionsMax : Z.

(** Modelled from the spec: [IsConvertError<size_t>], declared in a header
    outside this file; a value converts when the size type can hold it. *)
Definition IsConvertError_size_t (x : Z) : bool :=
  (x <? 0)%Z || (size_modulus <=? x)%Z.

(** Modelled from the spec: [IsMultiplyError], declared in a header outside
    this file; the product of two sizes overflows the size type. *)
Definition IsMultiplyError (a b : Z) : bool := (size_modulus <=? a * b)%Z.

(** The first loop over the dimension lengths (lines 211-223): [None]
    when a length is negative, else [Some bZero]. *)
Fixpoint scan_lengths (lens : list Z) (bZero : bool) : option bool :=
  match lens with
  | [] => Some bZero
  | dimensionsLength :: rest =>
      if (dimensionsLength <=? 0)%Z then
        if (dimensionsLength <? 0)%Z then None
        else scan_lengths rest true
      else scan_lengths rest bZero
  end.

(** The second loop (lines 229-249): [None] on overflow, else
    [Some cTensorBins]. *)
Fixpoint count_tensor_bins (lens : list Z) (cTensorBins : Z) : option Z :=
  match lens with
  | [] => Some cTensorBins
  | dimensionsLength :: rest =>
      if IsConvertError_size_t dimensionsLength then None
      else
        let cBins := to_size_t dimensionsLength in
        if IsMultiplyError cTensorBins cBins then None
        else count_tensor_bins rest (wrap (cTensorBins * cBins))
  end.

(** The buffers a caller passes; [None] is a null pointer. *)
Record buffers : Type := mkBuf {
  weights : option (list F);
  scores : option (list F);
  impurities : option (list F);
  interceptOut : option (list F)
}.

(** Lines 187-189: [*interceptOut = 0.0] when the pointer is not null. *)
Definition zero_intercept (b : buffers) : buffers :=
  match interceptOut b with
  | None => b
  | Some stores => mkBuf (weights b) (scores b) (impurities b) (Some (f0 :: stores))
  end.

Definition Purify (fuel : nat) (tolerance : F) (countDimensions : Z)
    (dimensionLengths : option (list Z)) (b : buffers) : exec (ErrorEbm * buffers) :=
  let b0 := zero_intercept b in
  if (countDimensions <=? 0)%Z then
    if (0 =? countDimensions)%Z then Done (Error_None, b0)
    else Done (Error_IllegalParamVal, b0)
  else if (k_cDimensionsMax <? countDimensions)%Z then Done (Error_OutOfMemory, b0)
  else
    let cDimensions := to_size_t countDimensions in
    match dimensionLengths with
    | None => Done (Error_IllegalParamVal, b0)
    | Some aLens =>
        let lens := firstn (Z.to_nat cDimensions) aLens in
        match scan_lengths lens false with
        | None => Done (Error_IllegalParamVal, b0)
        | Some true => Done (Error_None, b0)
        | Some false =>
            match count_tensor_bins lens 1 with
            | None => Done (Error_OutOfMemory, b0)
            | Some cTensorBins =>
                match weights b0, scores b0, impurities b0 with
                | None, _, _ => Done (Error_IllegalParamVal, b0)
                | _, None, _ => Done (Error_IllegalParamVal, b0)
                | _, _, None => Done (Error_IllegalParamVal, b0)
                | Some aWeights, Some aScores, Some aImpurities =>
                    match PurifyInternal fuel cTensorBins tolerance cDimensions aLens
                            aWeights (mkMem aScores aImpurities (interceptOut b0)) with
                    | Done (error, m) =>
                        Done (error, mkBuf (weights b0) (Some (mScores m))
                                           (Some (mImpurities m)) (mInterceptOut m))
                    | Fault => Fault
                    | OutOfFuel => OutOfFuel
                    end
                end
            end
        end
    end.
End Shim.


(** ** Shapes *)

(** The product of the extents of a shape. *)
Definition extent_product (lens : list Z) : Z := fold_right Z.mul 1%Z lens.

(** The number of surface bins of a shape with [cTensorBins] cells, as a
    mathematical integer: the sum over the dimensions of
    [cTensorBins / extent]. *)
Definition surface_bin_count (lens : list Z) (cTensorBins : Z) : Z :=
  fold_right (fun len acc => (cTensorBins / len + acc)%Z) 0%Z lens.

(** A shape the core accepts: positive extents whose product is the
    tensor bin count, itself a [size_t]. *)
Definition valid_shape (lens : list Z) (cTensorBins : Z) : Prop :=
  Forall (fun len => (0 < len)%Z) lens /\
  extent_product lens = cTensorBins /\
  (cTensorBins < size_modulus)%Z.

(** The slices the decoding may hand to the slice loops of a tensor of
    [cTensorBins] cells: a positive stride and extent, and the last cell
    inside the tensor. *)
Definition slice_in_tensor (cTensorBins : Z) (s : slice) : Prop :=
  (0 < cTensorIncrement s /\ 0 < cSweepBins s /\ 0 <= iTensor s /\
   iTensor s + cTensorIncrement s * (cSweepBins s - 1) < cTensorBins /\
   cTensorIncrement s * cSweepBins s <= cTensorBins /\
   cTensorBins < size_modulus)%Z.

(** ** Reference quantities *)

(** The sum of the weights of the cells [0 .. cTensorBins-1], added in
    the order of the code. *)
Definition weight_sum {F : Type} {AF : Arith F} (cTensorBins : Z) (aWeights : list F) : F :=
  fold_left (fun acc i => fadd acc (load f0 aWeights i)) (zrange cTensorBins) f0.

(** The sum of [score * weight] over the cells, in the order of the code. *)
Definition weighted_score_sum {F : Type} {AF : Arith F} (cTensorBins : Z)
    (aWeights aScores : list F) : F :=
  fold_left (fun acc i => fadd acc (fmul (load f0 aScores i) (load f0 aWeights i)))
            (zrange cTensorBins) f0.

(** The sum of [|score * weight|] over the cells, in the order of the code. *)
Definition abs_score_sum {F : Type} {AF : Arith F} (cTensorBins : Z)
    (aWeights aScores : list F) : F :=
  fold_left (fun acc i => fadd acc (fabs (fmul (load f0 aScores i) (load f0 aWeights i))))
            (zrange cTensorBins) f0.

(** ** Exact arithmetic: what a surface bin removes from a cell *)

(** Surface bin [k] contains cell [i]: [i] is one of the cells its slice
    loops visit. *)
Definition covers (lens : list Z) (cTensorBins k i : Z) : bool :=
  match decode lens cTensorBins k with
  | Some s => existsb (Z.eqb i) (slice_cells s)
  | None => false
  end.

(** The surface bins that sweep dimension [d], in the order in which a
    pass handles them: the [cTensorBins / extent] ids that follow the ids
    of the dimensions before [d]. *)
Definition dimension_bins (lens : list Z) (cTensorBins : Z) (d : nat) : list Z :=
  map (fun r => (surface_bin_count (firstn d lens) cTensorBins + r)%Z)
      (zrange (cTensorBins / nth d lens 1%Z)).

(** The cells the slice loops visit for the surface bins of [bins], in
    the order of the visits. *)
Definition bins_cells (lens : list Z) (cTensorBins : Z) (bins : list Z) : list Z :=
  flat_map (fun k => match decode lens cTensorBins k with
                     | Some s => slice_cells s
                     | None => []
                     end) bins.

Definition sumQ (l : list Q) : Q := fold_right Qplus 0%Q l.

(** The sum, over all surface bins that contain cell [i], of the impurity
    accumulated for the bin. *)
Definition removed_from_cell (lens : list Z) (cTensorBins : Z)
    (aImpurities : list Q) (i : Z) : Q :=
  sumQ (map (fun k => if covers lens cTensorBins k i then load 0%Q aImpurities k else 0%Q)
            (zrange (surface_bin_count lens cTensorBins))).

(** The sum of [x k] over the surface bins [k] of [bins] that contain
    cell [i]. *)
Definition covered_sum (lens : list Z) (cTensorBins : Z) (x : Z -> Q)
    (bins : list Z) (i : Z) : Q :=
  sumQ (map (fun k => if covers lens cTensorBins k i then x k else 0%Q) bins).

(** The number of dimensions after dimension [d], as a rational. *)
Definition later_dimensions (lens : list Z) (d : nat) : Q :=
  inject_Z (Z.of_nat (length lens - 1 - d)).

(** The intercept [PurifyInternal] stored, [0] when none was requested. *)
Definition extracted_intercept (m : memory (F := Q)) : Q :=
  match mInterceptOut m with
  | Some (intercept :: _) => intercept
  | _ => 0%Q
  end.

(** The threshold [impurityMax] of a call: [tolerance] times the sum of
    [|score * weight|], over the total weight, all on the scores as
    passed in. *)
Definition impurity_threshold {F : Type} {AF : Arith F} (cTensorBins : Z) (tolerance : F)
    (aWeights aScores : list F) : F :=
  fdiv (fmul (abs_score_sum cTensorBins aWeights aScores) tolerance)
       (weight_sum cTensorBins aWeights).

(** The global weighted mean of the scores. *)
Definition weighted_mean {F : Type} {AF : Arith F} (cTensorBins : Z)
    (aWeights aScores : list F) : F :=
  fdiv (weighted_score_sum cTensorBins aWeights aScores) (weight_sum cTensorBins aWeights).

(** ** Exact arithmetic: the weighted mean of a slice *)

Definition slice_weight (aWeights : list Q) (cells : list Z) : Q :=
  sumQ (map (fun i => load 0%Q aWeights i) cells).

Definition slice_weighted_sum (aWeights aScores : list Q) (cells : list Z) : Q :=
  sumQ (map (fun i => (load 0%Q aScores i * load 0%Q aWeights i)%Q) cells).

(** The weighted mean of the scores along a slice, [0] for a slice without
    weight. *)
Definition slice_mean (aWeights aScores : list Q) (cells : list Z) : Q :=
  if Qeq_bool (slice_weight aWeights cells) 0
  then 0%Q
  else (slice_weighted_sum aWeights aScores cells / slice_weight aWeights cells)%Q.

(** The weighted sum of the squares of the scores over the tensor. *)
Definition weighted_square_sum (cTensorBins : Z) (aWeights aScores : list Q) : Q :=
  sumQ (map (fun i => (load 0%Q aWeights i * (load 0%Q aScores i * load 0%Q aScores i))%Q)
            (zrange cTensorBins)).

(** The weights of the cells of the tensor are not negative. *)
Definition nonneg_weights (cTensorBins : Z) (aWeights : list Q) : Prop :=
  forall i, (0 <= i < cTensorBins)%Z -> (0 <= load 0%Q aWeights i)%Q.

(** ** Exact arithmetic: what the loops preserve *)

(** What the loops preserve: every cell's score plus what the surface bins
    containing it have accumulated is the cell's score [base i] before the
    first pass; the buffers keep their lengths. *)
Definition conserved (lens : list Z) (cTensorBins : Z) (base : Z -> Q) (L : nat)
    (aScores aImpurities : list Q) : Prop :=
  Z.of_nat (length aScores) = cTensorBins /\
  length aImpurities = L /\
  forall i, (0 <= i < cTensorBins)%Z ->
    (base i == load 0%Q aScores i + removed_from_cell lens cTensorBins aImpurities i)%Q.

(** What a pass over input without impurity preserves: the scores are
    the scores passed in, the impurities are zero, and nothing has
    been added to the accumulators of the pass. *)
Definition untouched (lens : list Z) (cTensorBins : Z) (aScores0 : list Q) (L : nat)
    (st : pass_state) : Prop :=
  Z.of_nat (length (aScores_of st)) = cTensorBins /\
  (forall i, (0 <= i < cTensorBins)%Z ->
     (load 0%Q (aScores_of st) i == load 0%Q aScores0 i)%Q) /\
  length (aImpurities_of st) = L /\
  (forall k, (0 <= k < surface_bin_count lens cTensorBins)%Z ->
     (load 0%Q (aImpurities_of st) k == 0)%Q) /\
  (impurityCur st == 0)%Q /\
  bRetry st = false.

(** The scores are the scores passed in, all shifted by [c]. *)
Definition shifted (cTensorBins : Z) (aScores0 : list Q) (c : Q) (aScores : list Q) : Prop :=
  Z.of_nat (length aScores) = cTensorBins /\
  forall i, (0 <= i < cTensorBins)%Z ->
    (load 0%Q aScores i == load 0%Q aScores0 i - c)%Q.

(** ** A running example

    A 2 x 2 tensor with weights 1, 2, 3, 4 and scores 1, 2, 3, 5, purified
    in exact arithmetic with tolerance 1/10 and an intercept requested. *)

Definition example_weights : list Q := [1; 2; 3; 4]%Q.

Definition example_memory : memory :=
  mkMem [1; 2; 3; 5]%Q [7; 7; 7; 7]%Q (Some [0%Q]).

Definition example_result : memory :=
  Eval vm_compute in
    match PurifyInternal 10 4 (1 # 10)%Q 2 [2; 2]%Z example_weights example_memory with
    | Done (_, r) => r
    | _ => example_memory
    end.

(** ** A three-dimensional example

    A 2 x 2 x 2 tensor in exact arithmetic, tolerance 1, no intercept
    requested: [impurityMax] is 5/8, and the first pass finds no slice
    above it. *)

Definition cube_weights : list Q := [1; 1; 1; 0; 1; 1; 1; 2]%Q.

Definition cube_memory : memory :=
  mkMem [-1; 0; 0; 0; 2; -1; -1; 0]%Q (repeat 0%Q 12) None.

Definition cube_result : memory :=
  Eval vm_compute in
    match PurifyInternal 1 8 1%Q 3 [2; 2; 2]%Z cube_weights cube_memory with
    | Done (_, r) => mkMem (map Qred (mScores r)) (map Qred (mImpurities r)) (mInterceptOut r)
    | _ => cube_memory
    end.

(** ** An example in binary64

    A 4 x 3 x 3 tensor, tolerance 0, no intercept requested.  The weight
    sits in two blocks that share no slice: the cells with all three
    coordinates in {0, 1}, and the two cells (2,2,2) and (3,2,2), whose
    scores are 1.5 * 2^1023 and its opposite, both finite. *)

Definition ieee_weights : list float :=
  [0.75; 0.75; 0; 0;   0.75; 0.75; 0; 0;   0; 0; 0; 0;
   0.5;  0.5;  0; 0;   0.5;  0.5;  0; 0;   0; 0; 0; 0;
   0;    0;    0; 0;   0;    0;    0; 0;   0; 0; 0.25; 0.75]%float.

Definition ieee_scores : list float :=
  [-2; -1; 0; 0;   2; -2; 0; 0;   0; 0; 0; 0;
   0;   2; 0; 0;   1;  1; 0; 0;   0; 0; 0; 0;
   0;   0; 0; 0;   0;  0; 0; 0;   0; 0; 0x1.8p+1023; -0x1.8p+1023]%float.

Definition ieee_memory : memory := mkMem ieee_scores (repeat 0%float 33) None.

(** The scores after two passes of the example. *)
Definition ieee_stuck_scores : list float :=
  Eval vm_compute in
    match passes 2 [4; 3; 3]%Z 36 33 ieee_weights
                 (impurity_threshold 36 0%float ieee_weights ieee_scores)
                 None ieee_scores (repeat 0%float 33) with
    | Some (_, aScores, _) => aScores
    | None => []
    end.

(** ** Binary64: two small vectors

    The doubles nearest to 0.1, 0.2 and 0.4; and four doubles whose exact
    sum is zero, while the sum taken in the order of the code is -1
    (2^53 + 1 rounds to 2^53). *)

Definition tenths_scores : list float :=
  [0x1.999999999999ap-4; 0x1.999999999999ap-3; 0x1.999999999999ap-2]%float.

Definition cancelling_scores : list float := [0x1p+53; 1; -0x1p+53; -1]%float.

(** ** Binary64: the order of the values as an integer

    The values of binary64 other than NaN, numbered in the order of [<]:
    a finite value by its exponent and mantissa (the mantissa of a valid
    value is below 2^53 and its exponent at least -1074), the zeros by 0
    and the infinities beyond every finite value. *)
Definition float_rank (x : spec_float) : Z :=
  match x with
  | S754_zero _ => 0
  | S754_nan => 0
  | S754_infinity s => if s then - 2 ^ 65 else 2 ^ 65
  | S754_finite s m e =>
      let r := (e + 1075) * 2 ^ 53 + Z.pos m in
      if s then - r else r
  end%Z.

(** ** Exact arithmetic: scaled buffers *)

(** Buffer [a'] holds, cell by cell, [c] times the values of buffer [a]. *)
Definition scaled_by (c : Q) (a a' : list Q) : Prop :=
  Forall2 (fun x x' => (x' == c * x)%Q) a a'.

(** The same for the three buffers [PurifyInternal] writes: a null
    [pInterceptOut] on one side is null on the other, and its stores are
    scaled otherwise. *)
Definition memory_scaled_by (c : Q) (m m' : memory) : Prop :=
  scaled_by c (mScores m) (mScores m') /\
  scaled_by c (mImpurities m) (mImpurities m') /\
  match mInterceptOut m, mInterceptOut m' with
  | None, None => True
  | Some stores, Some stores' => scaled_by c stores stores'
  | _, _ => False
  end.

(** The same for the state of a pass: both buffers, the running sum of
    [|impurity|] scaled by [|c|], and the same [bRetry]. *)
Definition pass_scaled_by (c : Q) (st st' : pass_state) : Prop :=
  scaled_by c (aScores_of st) (aScores_of st') /\
  scaled_by c (aImpurities_of st) (aImpurities_of st') /\
  (impurityCur st' == Qabs c * impurityCur st)%Q /\
  bRetry st' = bRetry st.

(** * Properties *)

(** ** Machine integers and buffers *)

Local Open Scope Z_scope.

Lemma size_modulus_pos : 0 < size_modulus.
Proof. reflexivity. Qed.

Lemma wrap_small (z : Z) : 0 <= z < size_modulus -> wrap z = z.
Proof. intros Hz. unfold wrap. now apply Z.mod_small. Qed.

Lemma zrange_In (n i : Z) : In i (zrange n) <-> 0 <= i < n.
Proof.
  unfold zrange. rewrite in_map_iff. split.
  - intros [k [<- Hk]]. apply in_seq in Hk. lia.
  - intros Hi. exists (Z.to_nat i). split; [lia|]. apply in_seq. lia.
Qed.

Lemma zrange_NoDup (n : Z) : NoDup (zrange n).
Proof.
  unfold zrange. apply Injective_map_NoDup.
  - intros a b Hab. lia.
  - apply seq_NoDup.
Qed.

Lemma zrange_succ (n : Z) : 0 <= n -> zrange (n + 1) = zrange n ++ [n].
Proof.
  intros Hn. unfold zrange.
  replace (Z.to_nat (n + 1)) with (Z.to_nat n + 1)%nat by lia.
  rewrite seq_app, map_app. cbn. now rewrite Z2Nat.id.
Qed.

Section BufferFacts.
Context {A : Type}.

Lemma upd_length (l : list A) (n : nat) (v : A) : length (upd l n v) = length l.
Proof.
  revert n. induction l as [|h t IH]; intros [|n]; cbn; auto.
Qed.

Lemma nth_upd_same (d : A) (l : list A) (n : nat) (v : A) :
  (n < length l)%nat -> nth n (upd l n v) d = v.
Proof.
  revert n. induction l as [|h t IH]; intros [|n] Hn; cbn in *; try lia; auto.
  apply IH. lia.
Qed.

Lemma nth_upd_other (d : A) (l : list A) (n k : nat) (v : A) :
  n <> k -> nth k (upd l n v) d = nth k l d.
Proof.
  revert n k. induction l as [|h t IH]; intros [|n] [|k] Hnk; cbn; auto;
    try contradiction.
Qed.

Lemma store_length (a : list A) (i : Z) (v : A) : length (store a i v) = length a.
Proof. unfold store. destruct (i <? 0); auto using upd_length. Qed.

Lemma load_store_same (d : A) (a : list A) (i : Z) (v : A) :
  0 <= i < Z.of_nat (length a) -> load d (store a i v) i = v.
Proof.
  intros Hi. unfold load, store.
  destruct (Z.ltb_spec i 0); [lia|]. apply nth_upd_same. lia.
Qed.

Lemma load_store_other (d : A) (a : list A) (i j : Z) (v : A) :
  0 <= j -> i <> j -> load d (store a i v) j = load d a j.
Proof.
  intros Hj Hij. unfold load, store.
  destruct (Z.ltb_spec i 0); [reflexivity|]. apply nth_upd_other. lia.
Qed.
End BufferFacts.

(** ** Shapes: products and sums *)

Lemma extent_product_app (l1 l2 : list Z) :
  extent_product (l1 ++ l2) = extent_product l1 * extent_product l2.
Proof.
  induction l1 as [|a l1 IH].
  - change (extent_product []) with 1. rewrite app_nil_l. lia.
  - change (extent_product ((a :: l1) ++ l2)) with (a * extent_product (l1 ++ l2)).
    change (extent_product (a :: l1)) with (a * extent_product l1).
    rewrite IH. ring.
Qed.

Lemma extent_product_pos (l : list Z) :
  Forall (fun len => 0 < len) l -> 0 < extent_product l.
Proof.
  induction 1 as [|a l Ha _ IH].
  - reflexivity.
  - change (extent_product (a :: l)) with (a * extent_product l). lia.
Qed.

Lemma surface_bin_count_app (l1 l2 : list Z) (T : Z) :
  surface_bin_count (l1 ++ l2) T = surface_bin_count l1 T + surface_bin_count l2 T.
Proof.
  induction l1 as [|a l1 IH]; [reflexivity|].
  change (surface_bin_count ((a :: l1) ++ l2) T)
    with (T / a + surface_bin_count (l1 ++ l2) T).
  change (surface_bin_count (a :: l1) T) with (T / a + surface_bin_count l1 T).
  rewrite IH. ring.
Qed.

Lemma surface_bin_count_nonneg (l : list Z) (T : Z) :
  0 <= T -> Forall (fun len => 0 < len) l -> 0 <= surface_bin_count l T.
Proof.
  intros HT. induction 1 as [|a l Ha _ IH]; [reflexivity|].
  change (surface_bin_count (a :: l) T) with (T / a + surface_bin_count l T).
  pose proof (Z.div_pos T a HT Ha). lia.
Qed.

(** ** Decoding a surface bin *)

Lemma find_sweep_cons (len : Z) (rest : list Z) (T : Z) (i : nat) (inc r : Z) :
  find_sweep (len :: rest) T i inc r =
    if r <? T / to_size_t len then Some (i, to_size_t len, inc, r)
    else find_sweep rest T (S i) (wrap (inc * to_size_t len)) (r - T / to_size_t len).
Proof. reflexivity. Qed.

Lemma cross_section_cons (len : Z) (rest : list Z) (iDim iSweep : nat) (r iT mult : Z) :
  cross_section (len :: rest) iDim iSweep r iT mult =
    if Nat.eqb iDim iSweep then
      cross_section rest (S iDim) iSweep r iT (wrap (mult * to_size_t len))
    else
      cross_section rest (S iDim) iSweep (r / to_size_t len)
        (wrap (iT + wrap (r mod to_size_t len * mult))) (wrap (mult * to_size_t len)).
Proof. reflexivity. Qed.

Lemma extent_product_cons (a : Z) (l : list Z) :
  extent_product (a :: l) = a * extent_product l.
Proof. reflexivity. Qed.

Lemma surface_bin_count_cons (a : Z) (l : list Z) (T : Z) :
  surface_bin_count (a :: l) T = T / a + surface_bin_count l T.
Proof. reflexivity. Qed.

(** The search for the sweep dimension stops inside the dimension array,
    at the dimension whose block of ids holds the id. *)
Lemma find_sweep_spec (rest : list Z) :
  forall (T : Z) (i : nat) (inc r : Z),
    Forall (fun len => 0 < len) rest ->
    0 < inc ->
    inc * extent_product rest = T ->
    T < size_modulus ->
    0 <= r < surface_bin_count rest T ->
    exists (p : list Z) (n : Z) (q : list Z),
      rest = p ++ n :: q /\
      find_sweep rest T i inc r =
        Some ((i + length p)%nat, n, inc * extent_product p, r - surface_bin_count p T) /\
      0 <= r - surface_bin_count p T < T / n.
Proof.
  induction rest as [|len rest IH]; intros T i inc r Hpos Hinc HT Hsz Hr.
  - cbn in Hr. lia.
  - inversion Hpos as [|x l Hlen Hrest]; subst x l.
    rewrite extent_product_cons in HT.
    rewrite surface_bin_count_cons in Hr.
    pose proof (extent_product_pos Hrest) as Hq.
    assert (Hlen_le : len <= T).
    { assert (1 <= inc * extent_product rest) by nia.
      replace T with (len * (inc * extent_product rest)) by (rewrite <- HT; ring).
      nia. }
    assert (Hcast : to_size_t len = len) by (apply wrap_small; lia).
    rewrite find_sweep_cons, Hcast.
    destruct (Z.ltb_spec r (T / len)) as [Hlt|Hge].
    + exists [], len, rest. cbn [app length surface_bin_count fold_right].
      change (extent_product []) with 1.
      rewrite Nat.add_0_r, Z.mul_1_r, Z.sub_0_r. repeat split; auto; lia.
    + assert (Hw : wrap (inc * len) = inc * len) by (apply wrap_small; nia).
      rewrite Hw.
      destruct (IH T (S i) (inc * len) (r - T / len)) as (p & n & q & Heq & Hfs & Hb);
        auto; try nia; try lia.
      exists (len :: p), n, q. subst rest.
      rewrite Hfs, extent_product_cons, surface_bin_count_cons.
      cbn [app length]. repeat split; try lia.
      replace (S i + length p)%nat with (i + S (length p))%nat by lia.
      replace (inc * len * extent_product p) with (inc * (len * extent_product p)) by ring.
      replace (r - T / len - surface_bin_count p T)
        with (r - (T / len + surface_bin_count p T)) by ring.
      reflexivity.
Qed.

(** Peeling the digits of a run of dimensions that does not contain the
    sweep dimension is a division with remainder by the product of their
    extents. *)
Lemma cross_section_digits (l : list Z) :
  forall (l2 : list Z) (iDim iSweep : nat) (r iT mult : Z),
    Forall (fun len => 0 < len) l ->
    (iSweep < iDim \/ iDim + length l <= iSweep)%nat ->
    0 <= r ->
    0 <= iT < mult ->
    mult * extent_product l < size_modulus ->
    cross_section (l ++ l2) iDim iSweep r iT mult =
      cross_section l2 (iDim + length l) iSweep
        (r / extent_product l)
        (iT + mult * (r mod extent_product l))
        (mult * extent_product l).
Proof.
  induction l as [|n l IH]; intros l2 iDim iSweep r iT mult Hpos Hsw Hr HiT Hsz.
  - change (extent_product []) with 1. cbn [app length].
    rewrite Nat.add_0_r, Z.div_1_r, Z.mod_1_r, Z.mul_0_r, Z.add_0_r, Z.mul_1_r.
    reflexivity.
  - inversion Hpos as [|x l' Hn Hl]; subst x l'.
    rewrite extent_product_cons in *.
    pose proof (extent_product_pos Hl) as Hq.
    cbn [app length] in *.
    assert (Hmn0 : 0 < mult * n) by nia.
    assert (Hmn : mult * n <= mult * (n * extent_product l))
      by (replace (mult * (n * extent_product l))
            with (mult * n * extent_product l) by ring; nia).
    assert (Hcast : to_size_t n = n) by (apply wrap_small; nia).
    rewrite cross_section_cons, Hcast.
    destruct (Nat.eqb_spec iDim iSweep) as [Heq|_]; [lia|].
    pose proof (Z.mod_pos_bound r n Hn) as Hbin.
    assert (Hw1 : wrap (r mod n * mult) = r mod n * mult) by (apply wrap_small; nia).
    assert (Hw2 : wrap (iT + r mod n * mult) = iT + r mod n * mult)
      by (apply wrap_small; nia).
    assert (Hw3 : wrap (mult * n) = mult * n) by (apply wrap_small; nia).
    rewrite Hw1, Hw2, Hw3.
    rewrite IH; auto; try lia; try nia.
    + replace (S iDim + length l)%nat with (iDim + S (length l))%nat by lia.
      rewrite Z.div_div by lia.
      rewrite (Z.rem_mul_r r n (extent_product l)) by lia.
      f_equal; ring.
    + apply Z.div_pos; lia.
Qed.

Lemma valid_shape_split (p : list Z) (n : Z) (q : list Z) (T : Z) :
  valid_shape (p ++ n :: q) T ->
  Forall (fun len => 0 < len) p /\ 0 < n /\ Forall (fun len => 0 < len) q /\
  0 < extent_product p /\ 0 < extent_product q /\
  T = extent_product p * extent_product q * n /\
  T / n = extent_product p * extent_product q /\
  T < size_modulus.
Proof.
  intros (Hpos & Hprod & Hsz).
  apply Forall_app in Hpos. destruct Hpos as [Hp Hnq].
  inversion Hnq as [|x l Hn Hq]; subst x l.
  rewrite extent_product_app, extent_product_cons in Hprod.
  pose proof (extent_product_pos Hp). pose proof (extent_product_pos Hq).
  assert (HT : T = extent_product p * extent_product q * n) by (rewrite <- Hprod; ring).
  repeat split; auto.
  rewrite HT. apply Z.div_mul. lia.
Qed.

(** The decoding of a surface bin id of a valid shape: the sweep
    dimension splits the shape into the dimensions before it ([p]) and
    after it ([q]); the cross-section index [r] is split by the product of
    the extents before the sweep dimension. *)
Lemma decode_spec (lens : list Z) (T k : Z) :
  valid_shape lens T ->
  0 <= k < surface_bin_count lens T ->
  exists (p : list Z) (n : Z) (q : list Z),
    lens = p ++ n :: q /\
    0 <= k - surface_bin_count p T < extent_product p * extent_product q /\
    decode lens T k =
      Some (mkSlice (length p) n (extent_product p)
              ((k - surface_bin_count p T) mod extent_product p
               + extent_product p * n * ((k - surface_bin_count p T) / extent_product p))
              0).
Proof.
  intros Hvalid Hk.
  destruct Hvalid as (Hpos & Hprod & Hsz).
  destruct (@find_sweep_spec lens T 0%nat 1 k) as (p & n & q & Heq & Hfs & Hr);
    auto; try lia.
  subst lens.
  destruct (@valid_shape_split p n q T) as (Hp & Hn & Hq & HP & HQ & HT & HTn & _);
    [repeat split; auto|].
  rewrite HTn in Hr.
  exists p, n, q. split; [reflexivity|]. split; [lia|].
  unfold decode. rewrite Hfs. clear Hfs.
  change (0 + length p)%nat with (length p). rewrite Z.mul_1_l.
  remember (k - surface_bin_count p T) as r eqn:Er.
  remember (extent_product p) as P eqn:EP.
  remember (extent_product q) as Q eqn:EQ.
  assert (HPle : P * n <= T) by (rewrite HT; nia).
  assert (HPn : 0 < P * n) by nia.
  rewrite (@cross_section_digits p (n :: q) 0%nat (length p) r 0 1);
    auto; try lia; [|rewrite Z.mul_1_l, <- EP; nia].
  rewrite <- EP, Nat.add_0_l, Z.add_0_l, !Z.mul_1_l.
  assert (Hcast : to_size_t n = n) by (apply wrap_small; nia).
  rewrite cross_section_cons, Nat.eqb_refl, Hcast.
  assert (Hw : wrap (P * n) = P * n) by (apply wrap_small; lia).
  rewrite Hw.
  pose proof (Z.mod_pos_bound r P HP) as HrP.
  rewrite <- (app_nil_r q).
  assert (HrQ : 0 <= r / P < Q).
  { split; [apply Z.div_pos; lia|]. apply Z.div_lt_upper_bound; lia. }
  rewrite (@cross_section_digits q [] (S (length p)) (length p));
    auto; try lia.
  - rewrite <- EQ. cbn [cross_section].
    rewrite (Z.div_small (r / P) Q), (Z.mod_small (r / P) Q) by lia.
    reflexivity.
  - nia.
Qed.

(** The [for] loop over a slice visits exactly [cSweepBins] cells, one
    stride apart, also when [iTensorEnd] wraps around. *)
Lemma slice_indices_spec (fuel : nat) :
  forall (cur inc : Z),
    0 < inc -> 0 <= cur ->
    inc * Z.of_nat fuel < size_modulus ->
    cur + inc * Z.of_nat fuel < size_modulus + inc ->
    slice_indices fuel cur (wrap (cur + inc * Z.of_nat fuel)) inc =
      map (fun j => cur + inc * Z.of_nat j) (seq 0 fuel).
Proof.
  induction fuel as [|fuel IH]; intros cur inc Hinc Hcur Hstep Hlast; [reflexivity|].
  cbn [slice_indices seq map].
  assert (Hne : cur <> wrap (cur + inc * Z.of_nat (S fuel))).
  { unfold wrap.
    destruct (Z_lt_le_dec (cur + inc * Z.of_nat (S fuel)) size_modulus) as [Hlt|Hge].
    - rewrite Z.mod_small by lia. lia.
    - assert (Hm : (cur + inc * Z.of_nat (S fuel)) mod size_modulus
                   = cur + inc * Z.of_nat (S fuel) - size_modulus).
      { symmetry. apply Z.mod_unique with 1; [left|]; lia. }
      rewrite Hm. lia. }
  destruct (Z.eqb_spec cur (wrap (cur + inc * Z.of_nat (S fuel)))) as [Heq|_];
    [contradiction|].
  rewrite Z.mul_0_r, Z.add_0_r. f_equal.
  destruct fuel as [|fuel]; [reflexivity|].
  assert (Hw : wrap (cur + inc) = cur + inc) by (apply wrap_small; nia).
  rewrite Hw.
  replace (cur + inc * Z.of_nat (S (S fuel)))
    with (cur + inc + inc * Z.of_nat (S fuel)) by lia.
  rewrite IH; try lia; try nia.
  rewrite <- seq_shift, map_map. apply map_ext. intros j. lia.
Qed.

Lemma decode_in_tensor (lens : list Z) (T k : Z) :
  valid_shape lens T ->
  0 <= k < surface_bin_count lens T ->
  exists s : slice,
    decode lens T k = Some s /\ slice_in_tensor T s /\ residual s = 0.
Proof.
  intros Hvalid Hk.
  destruct (decode_spec Hvalid Hk) as (p & n & q & Heq & Hr & Hdec).
  subst lens.
  destruct (@valid_shape_split p n q T Hvalid) as (_ & Hn & _ & HP & HQ & HT & _ & Hsz).
  eexists. split; [exact Hdec|]. split; [|reflexivity].
  remember (k - surface_bin_count p T) as r eqn:Er.
  remember (extent_product p) as P eqn:EP.
  remember (extent_product q) as Q eqn:EQ.
  pose proof (Z.mod_pos_bound r P HP) as HrP.
  assert (HrQ : 0 <= r / P <= Q - 1).
  { split; [apply Z.div_pos; lia|].
    assert (r / P < Q) by (apply Z.div_lt_upper_bound; lia). lia. }
  unfold slice_in_tensor. cbn [cTensorIncrement cSweepBins iTensor].
  assert (HPn : 0 < P * n) by nia.
  assert (Hhi : P * n * (r / P) <= P * n * (Q - 1)) by (apply Z.mul_le_mono_nonneg_l; lia).
  assert (HTe : T = P * n * (Q - 1) + P * n) by (rewrite HT; ring).
  repeat split; try lia; try nia.
Qed.

Lemma slice_cells_spec (T : Z) (s : slice) :
  slice_in_tensor T s ->
  slice_cells s =
    map (fun j => iTensor s + cTensorIncrement s * Z.of_nat j)
        (seq 0 (Z.to_nat (cSweepBins s))).
Proof.
  intros (Hinc & Hn & HiT & Hlast & Hprod & Hsz).
  unfold slice_cells.
  assert (Hw : wrap (cTensorIncrement s * cSweepBins s) = cTensorIncrement s * cSweepBins s)
    by (apply wrap_small; nia).
  rewrite Hw.
  assert (Hfuel : cSweepBins s = Z.of_nat (Z.to_nat (cSweepBins s))) by lia.
  rewrite Hfuel at 2.
  apply slice_indices_spec; auto; rewrite <- Hfuel; try lia; nia.
Qed.

Lemma slice_cells_range (T : Z) (s : slice) (i : Z) :
  slice_in_tensor T s -> In i (slice_cells s) -> 0 <= i < T.
Proof.
  intros Hs Hi. rewrite (slice_cells_spec Hs) in Hi.
  destruct Hs as (Hinc & Hn & HiT & Hlast & Hprod & Hsz).
  apply in_map_iff in Hi. destruct Hi as (j & <- & Hj).
  apply in_seq in Hj.
  assert (Z.of_nat j <= cSweepBins s - 1) by lia.
  assert (cTensorIncrement s * Z.of_nat j <= cTensorIncrement s * (cSweepBins s - 1))
    by (apply Z.mul_le_mono_nonneg_l; lia).
  nia.
Qed.

Lemma slice_cells_NoDup (T : Z) (s : slice) :
  slice_in_tensor T s -> NoDup (slice_cells s).
Proof.
  intros Hs. rewrite (slice_cells_spec Hs).
  destruct Hs as (Hinc & _).
  apply Injective_map_NoDup; [|apply seq_NoDup].
  intros a b Hab. nia.
Qed.

(** The counted number of surface bins is the mathematical count, reduced
    to the size type. *)
Lemma count_surface_bins_wrap (lens : list Z) (T : Z) :
  Forall (fun len => 0 < len < size_modulus) lens ->
  forall c : Z,
    fold_left (fun cSurfaceBins len => wrap (cSurfaceBins + T / to_size_t len)) lens (wrap c)
    = wrap (c + surface_bin_count lens T).
Proof.
  induction 1 as [|len lens Hlen _ IH]; intros c.
  - cbn. now rewrite Z.add_0_r.
  - cbn [fold_left]. rewrite surface_bin_count_cons.
    assert (Hcast : to_size_t len = len) by (apply wrap_small; lia).
    rewrite Hcast.
    replace (wrap (wrap c + T / len)) with (wrap (c + T / len)).
    + rewrite IH. f_equal. ring.
    + unfold wrap. now rewrite Z.add_mod_idemp_l by (pose proof size_modulus_pos; lia).
Qed.

Lemma valid_shape_extent_bound (lens : list Z) (T : Z) :
  valid_shape lens T -> Forall (fun len => 0 < len < size_modulus) lens.
Proof.
  intros (Hpos & Hprod & Hsz). subst T.
  induction Hpos as [|a l Ha Hl IH]; constructor.
  - rewrite extent_product_cons in Hsz.
    pose proof (extent_product_pos Hl). nia.
  - apply IH. rewrite extent_product_cons in Hsz.
    pose proof (extent_product_pos Hl). nia.
Qed.

Lemma count_surface_bins_exact (lens : list Z) (T : Z) :
  valid_shape lens T ->
  surface_bin_count lens T < size_modulus ->
  count_surface_bins lens T = surface_bin_count lens T.
Proof.
  intros Hvalid HS. unfold count_surface_bins.
  change 0 with (wrap 0) at 1.
  rewrite count_surface_bins_wrap by (eapply valid_shape_extent_bound; eauto).
  apply wrap_small. destruct Hvalid as (Hpos & Hprod & Hsz).
  pose proof (extent_product_pos Hpos).
  assert (0 <= surface_bin_count lens T)
    by (apply surface_bin_count_nonneg; [lia|assumption]).
  lia.
Qed.

(** C6.  Surface-bin decoding soundness: for a shape of positive extents
    whose product is the tensor bin count, and every linear surface bin id
    below the sum of [cTensorBins / extent], the decoding stays inside the
    dimension array and leaves a residual of exactly zero, so the
    assertion after the digit loop holds. *)
Theorem decode_residual_zero (lens : list Z) (cTensorBins iAllSurfaceBin : Z) :
  valid_shape lens cTensorBins ->
  0 <= iAllSurfaceBin < surface_bin_count lens cTensorBins ->
  exists s : slice,
    decode lens cTensorBins iAllSurfaceBin = Some s /\ residual s = 0.
Proof.
  intros Hvalid Hk.
  destruct (decode_in_tensor Hvalid Hk) as (s & Hdec & _ & Hres).
  exists s. split; assumption.
Qed.

Lemma decode_residual_zero_witness :
  valid_shape [4; 3; 2] 24 /\ 0 <= 17 < surface_bin_count [4; 3; 2] 24 /\
  exists s : slice, decode [4; 3; 2] 24 17 = Some s /\ residual s = 0.
Proof.
  assert (Hv : valid_shape [4; 3; 2] 24).
  { split; [repeat constructor|split; reflexivity]. }
  assert (Hk : 0 <= 17 < surface_bin_count [4; 3; 2] 24) by (vm_compute; split; congruence).
  split; [exact Hv|]. split; [exact Hk|].
  exact (decode_residual_zero Hv Hk).
Defined.

(** ** The totals of step 1 *)

Section TotalsFacts.
Context {F : Type} {AF : Arith F}.

Lemma sum_totals_fold (aWeights aScores : list F) (l : list Z) (t : totals) :
  fold_left (totals_step aWeights aScores) l t =
    mkTotals
      (fold_left (fun acc i => fadd acc (fabs (fmul (load f0 aScores i) (load f0 aWeights i))))
                 l (impurityMax0 t))
      (fold_left (fun acc i => fadd acc (fmul (load f0 aScores i) (load f0 aWeights i)))
                 l (impurityTotalAll t))
      (fold_left (fun acc i => fadd acc (load f0 aWeights i)) l (weightTotalAll t)).
Proof.
  revert t. induction l as [|i l IH]; intros t.
  - now destruct t.
  - cbn [fold_left]. rewrite IH. reflexivity.
Qed.

Lemma sum_totals_spec (T : Z) (aWeights aScores : list F) :
  sum_totals T aWeights aScores =
    mkTotals (abs_score_sum T aWeights aScores)
             (weighted_score_sum T aWeights aScores)
             (weight_sum T aWeights).
Proof. unfold sum_totals. now rewrite sum_totals_fold. Qed.

Lemma zero_weight_noop_any (fuel : nat) (T : Z) (tolerance : F) (D : Z)
    (aLens : list Z) (w : list F) (m : memory) :
  feqb f0 (weight_sum T w) = true ->
  PurifyInternal fuel T tolerance D aLens w m = Done (Error_None, m).
Proof.
  intros Hzero. unfold PurifyInternal.
  rewrite sum_totals_spec. cbn [weightTotalAll]. now rewrite Hzero.
Qed.

(** C4.  Zero-weight no-op: when the weights sum to exactly zero,
    [PurifyInternal] returns success before the first pass (whatever the
    number of passes granted) and leaves the scores, the impurities and
    the intercept output as they were: nothing is stored through
    [pInterceptOut]. *)
Theorem zero_weight_noop (fuel : nat) (cTensorBins : Z) (tolerance : F)
    (cDimensions : Z) (aDimensionLengths : list Z) (aWeights : list F) (m : memory) :
  feqb f0 (weight_sum cTensorBins aWeights) = true ->
  PurifyInternal fuel cTensorBins tolerance cDimensions aDimensionLengths aWeights m
    = Done (Error_None, m).
Proof.
  intros Hzero. unfold PurifyInternal.
  rewrite sum_totals_spec. cbn [weightTotalAll]. now rewrite Hzero.
Qed.
End TotalsFacts.

Lemma zero_weight_noop_witness :
  feqb f0 (weight_sum 2 [0%Q; 0%Q]) = true /\
  PurifyInternal 0 2 (1 # 2)%Q 1 [2] [0%Q; 0%Q]
                 (mkMem [3%Q; 5%Q] [7%Q] (Some [0%Q]))
    = Done (Error_None, mkMem [3%Q; 5%Q] [7%Q] (Some [0%Q])).
Proof.
  split; [reflexivity|].
  apply (@zero_weight_noop Q Q_arith). reflexivity.
Defined.

(** ** The entry point *)

Section ShimFacts.
Context {F : Type} {AF : Arith F}.
Variable k_cDimensionsMax : Z.

(** C9 (amended).  A dimension count above [k_cDimensionsMax] is rejected
    before anything is read, with the out-of-memory code, not with the
    illegal-parameter code. *)
Theorem excessive_dimensions_out_of_memory (fuel : nat) (tolerance : F)
    (countDimensions : Z) (dimensionLengths : option (list Z)) (b : buffers) :
  0 <= k_cDimensionsMax ->
  k_cDimensionsMax < countDimensions ->
  Purify k_cDimensionsMax fuel tolerance countDimensions dimensionLengths b
    = Done (Error_OutOfMemory, zero_intercept b).
Proof.
  intros Hk Hcount. unfold Purify.
  destruct (Z.leb_spec countDimensions 0) as [Hle|_]; [lia|].
  destruct (Z.ltb_spec k_cDimensionsMax countDimensions) as [_|Hge]; [reflexivity|lia].
Qed.

Lemma scan_lengths_nonneg (lens : list Z) (bZero : bool) :
  Forall (fun len => 0 <= len) lens ->
  scan_lengths lens bZero = Some (bZero || existsb (Z.eqb 0) lens).
Proof.
  intros Hnn. revert bZero.
  induction Hnn as [|len lens Hlen _ IH]; intros bZero.
  - cbn. now rewrite orb_false_r.
  - cbn [scan_lengths existsb].
    destruct (Z.leb_spec len 0) as [Hle|Hgt].
    + destruct (Z.ltb_spec len 0) as [Hlt|_]; [lia|].
      assert (len = 0) by lia. subst len.
      rewrite IH. cbn. now rewrite orb_true_r.
    + rewrite IH. destruct (Z.eqb_spec 0 len) as [Heq|_]; [lia|]. reflexivity.
Qed.

(** C10 (amended).  The trivial-success paths come before the null checks
    of the buffers: with a dimension count of zero, or with a count within
    the supported maximum and non-negative lengths one of which is zero,
    [Purify] returns success for every value of the weights, scores and
    impurities arguments, null pointers included, and hands them back
    untouched. *)
Theorem trivial_success_skips_buffers (fuel : nat) (tolerance : F)
    (countDimensions : Z) (dimensionLengths : option (list Z)) (b : buffers) :
  k_cDimensionsMax < size_modulus ->
  countDimensions = 0 \/
  (0 < countDimensions <= k_cDimensionsMax /\
   exists aLens : list Z,
     dimensionLengths = Some aLens /\
     Forall (fun len => 0 <= len) (firstn (Z.to_nat countDimensions) aLens) /\
     In 0 (firstn (Z.to_nat countDimensions) aLens)) ->
  Purify k_cDimensionsMax fuel tolerance countDimensions dimensionLengths b
    = Done (Error_None, zero_intercept b).
Proof.
  intros Hk [Hzero|(Hcount & aLens & Hlens & Hnn & Hin)]; unfold Purify.
  - subst countDimensions. reflexivity.
  - destruct (Z.leb_spec countDimensions 0) as [Hle|_]; [lia|].
    destruct (Z.ltb_spec k_cDimensionsMax countDimensions) as [Hlt|_]; [lia|].
    subst dimensionLengths.
    assert (Hcast : to_size_t countDimensions = countDimensions)
      by (apply wrap_small; lia).
    rewrite Hcast, (scan_lengths_nonneg false Hnn).
    assert (Hex : existsb (Z.eqb 0) (firstn (Z.to_nat countDimensions) aLens) = true).
    { apply existsb_exists. exists 0. split; [assumption|reflexivity]. }
    rewrite Hex. reflexivity.
Qed.
End ShimFacts.

(** The inputs of the examples about the entry point: the constant is 63
    on a target with a 64-bit size type. *)

Lemma excessive_dimensions_out_of_memory_witness :
  0 <= 63 /\ 63 < 64 /\
  Purify 63 0 0%Q 64 None (mkBuf None None None (Some []))
    = Done (Error_OutOfMemory, mkBuf None None None (Some [0%Q])).
Proof.
  split; [lia|]. split; [lia|].
  apply (@excessive_dimensions_out_of_memory Q Q_arith 63); lia.
Defined.

(** C9, as stated, fails: 64 dimensions are rejected, but the code returned
    is the out-of-memory code. *)
Lemma excessive_dimensions_not_illegal_param :
  Purify 63 0 0%Q 64 (Some (repeat 2 64)) (mkBuf (@None (list Q)) None None None)
    = Done (Error_OutOfMemory, mkBuf None None None None) /\
  Error_OutOfMemory <> Error_IllegalParamVal.
Proof. split; [reflexivity|discriminate]. Qed.

Lemma trivial_success_skips_buffers_witness :
  63 < size_modulus /\
  (2 = 0 \/
   (0 < 2 <= 63 /\
    exists aLens : list Z,
      Some [3; 0] = Some aLens /\
      Forall (fun len => 0 <= len) (firstn (Z.to_nat 2) aLens) /\
      In 0 (firstn (Z.to_nat 2) aLens))) /\
  Purify 63 0 0%Q 2 (Some [3; 0]) (mkBuf None None None (Some []))
    = Done (Error_None, mkBuf None None None (Some [0%Q])).
Proof.
  assert (Hk : 63 < size_modulus) by reflexivity.
  assert (Hshape :
    2 = 0 \/
    (0 < 2 <= 63 /\
     exists aLens : list Z,
       Some [3; 0] = Some aLens /\
       Forall (fun len => 0 <= len) (firstn (Z.to_nat 2) aLens) /\
       In 0 (firstn (Z.to_nat 2) aLens))).
  { right. split; [lia|]. exists [3; 0]. split; [reflexivity|].
    split; [repeat constructor; discriminate|]. right. left. reflexivity. }
  split; [exact Hk|]. split; [exact Hshape|].
  exact (@trivial_success_skips_buffers Q Q_arith 63 0%nat 0%Q 2 (Some [3; 0])
           (mkBuf None None None (Some [])) Hk Hshape).
Defined.

(** C10, as stated, fails for a dimension count above the maximum: the
    lengths are non-negative and one is zero, yet the call is rejected. *)
Lemma zero_length_beyond_max_rejected :
  Forall (fun len => 0 <= len) (repeat 0 64) /\
  In 0 (repeat 0 64) /\
  Purify 63 0 0%Q 64 (Some (repeat 0 64)) (mkBuf (@None (list Q)) None None None)
    = Done (Error_OutOfMemory, mkBuf None None None None).
Proof.
  split; [|split; [left; reflexivity|reflexivity]].
  apply Forall_forall. intros x Hx. apply repeat_spec in Hx. subst x. lia.
Qed.

(** ** The slice loops and the loop over the surface bins *)

Section PassFacts.
Context {F : Type} {AF : Arith F}.

Lemma slice_update_length (cells : list Z) (v : F) :
  forall a : list F, length (slice_update a cells v) = length a.
Proof.
  unfold slice_update.
  induction cells as [|c cells IH]; intros a; [reflexivity|].
  cbn [fold_left]. rewrite IH. apply store_length.
Qed.

(** A loop that rewrites the cells of [cells] in place, each from its own
    content, rewrites every listed cell once and no other cell. *)
Lemma fold_store_load (h : F -> F) (cells : list Z) :
  forall (a : list F) (i : Z),
    NoDup cells ->
    (forall c, In c cells -> 0 <= c < Z.of_nat (length a)) ->
    0 <= i ->
    load f0 (fold_left (fun a c => store a c (h (load f0 a c))) cells a) i =
      if existsb (Z.eqb i) cells then h (load f0 a i) else load f0 a i.
Proof.
  induction cells as [|c cells IH]; intros a i Hnd Hin Hi; [reflexivity|].
  inversion Hnd as [|x l Hnotin Hnd']; subst x l.
  cbn [fold_left existsb].
  rewrite IH; auto.
  - destruct (Z.eqb_spec i c) as [->|Hne].
    + assert (Hex : existsb (Z.eqb c) cells = false).
      { apply not_true_is_false. intros Hex. apply existsb_exists in Hex.
        destruct Hex as (x & Hx & Hxc). apply Z.eqb_eq in Hxc. subst x. contradiction. }
      rewrite Hex. cbn [orb]. f_equal. apply load_store_same. apply Hin. now left.
    + cbn [orb]. rewrite load_store_other by auto. reflexivity.
  - intros c' Hc'. rewrite store_length. apply Hin. now right.
Qed.

Lemma fold_store_length (h : F -> F) (cells : list Z) :
  forall a : list F,
    length (fold_left (fun a c => store a c (h (load f0 a c))) cells a) = length a.
Proof.
  induction cells as [|c cells IH]; intros a; [reflexivity|].
  cbn [fold_left]. rewrite IH. apply store_length.
Qed.

(** The update loop adds [v] to the cells of the slice, once each, and
    leaves every other cell alone. *)
Lemma slice_update_load (cells : list Z) (v : F) (a : list F) (i : Z) :
  NoDup cells ->
  (forall c, In c cells -> 0 <= c < Z.of_nat (length a)) ->
  0 <= i ->
  load f0 (slice_update a cells v) i =
    if existsb (Z.eqb i) cells then fadd (load f0 a i) v else load f0 a i.
Proof. apply (fold_store_load (fun x => fadd x v)). Qed.

Lemma subtract_intercept_length (T : Z) (v : F) (a : list F) :
  length (subtract_intercept T v a) = length a.
Proof. apply (fold_store_length (fun x => fadd x v)). Qed.

(** [interceptNeg] is added to every cell of the tensor. *)
Lemma subtract_intercept_load (T : Z) (v : F) (a : list F) (i : Z) :
  T <= Z.of_nat (length a) ->
  0 <= i < T ->
  load f0 (subtract_intercept T v a) i = fadd (load f0 a i) v.
Proof.
  intros HT Hi. unfold subtract_intercept.
  rewrite (fold_store_load (fun x => fadd x v)).
  - assert (Hex : existsb (Z.eqb i) (zrange T) = true).
    { apply existsb_exists. exists i. split; [now apply zrange_In|apply Z.eqb_refl]. }
    now rewrite Hex.
  - apply zrange_NoDup.
  - intros c Hc. apply zrange_In in Hc. lia.
  - lia.
Qed.

Lemma memset_zero_length (S : Z) (a : list F) :
  length (memset_zero S a) = length a.
Proof. apply (fold_store_length (fun _ => f0)). Qed.

(** The cells [memset] covers hold [0.0] afterwards. *)
Lemma memset_zero_load (S : Z) (a : list F) (k : Z) :
  0 <= S -> S * 8 < size_modulus ->
  S <= Z.of_nat (length a) ->
  0 <= k < S ->
  load f0 (memset_zero S a) k = f0.
Proof.
  intros HS Hbytes Hlen Hk. unfold memset_zero.
  assert (Hcells : wrap (S * 8) / 8 = S).
  { rewrite wrap_small by lia. apply Z.div_mul. lia. }
  rewrite Hcells.
  rewrite (fold_store_load (fun _ => f0)).
  - assert (Hex : existsb (Z.eqb k) (zrange S) = true).
    { apply existsb_exists. exists k. split; [now apply zrange_In|apply Z.eqb_refl]. }
    now rewrite Hex.
  - apply zrange_NoDup.
  - intros c Hc. apply zrange_In in Hc. lia.
  - lia.
Qed.

Lemma purify_bins_none (lens : list Z) (T : Z) (w : list F) (M : F) (bins : list Z) :
  fold_left (fun ost k => match ost with
                          | None => None
                          | Some st => purify_bin lens T w M st k
                          end) bins None = None.
Proof. induction bins as [|k bins IH]; [reflexivity|exact IH]. Qed.

Lemma purify_bins_cons (lens : list Z) (T : Z) (w : list F) (M : F)
    (k : Z) (bins : list Z) (st : pass_state) :
  purify_bins lens T w M (k :: bins) st =
    match purify_bin lens T w M st k with
    | None => None
    | Some st' => purify_bins lens T w M bins st'
    end.
Proof.
  unfold purify_bins. cbn [fold_left].
  destruct (purify_bin lens T w M st k); [reflexivity|apply purify_bins_none].
Qed.

Lemma purify_bins_app (lens : list Z) (T : Z) (w : list F) (M : F)
    (bins1 bins2 : list Z) (st : pass_state) :
  purify_bins lens T w M (bins1 ++ bins2) st =
    match purify_bins lens T w M bins1 st with
    | None => None
    | Some st' => purify_bins lens T w M bins2 st'
    end.
Proof.
  revert st. induction bins1 as [|k bins1 IH]; intros st; [reflexivity|].
  cbn [app]. rewrite !purify_bins_cons.
  destruct (purify_bin lens T w M st k); [apply IH|reflexivity].
Qed.

(** For a valid shape the body of the loop is [purify_slice] on a slice
    inside the tensor. *)
Lemma purify_bin_valid (lens : list Z) (T : Z) (w : list F) (M : F)
    (st : pass_state) (k : Z) :
  valid_shape lens T ->
  0 <= k < surface_bin_count lens T ->
  exists s : slice,
    decode lens T k = Some s /\ slice_in_tensor T s /\
    purify_bin lens T w M st k = Some (purify_slice w M st k (slice_cells s)).
Proof.
  intros Hvalid Hk.
  destruct (decode_in_tensor Hvalid Hk) as (s & Hdec & Hs & _).
  exists s. unfold purify_bin. rewrite Hdec. auto.
Qed.

(** An invariant of the body, for the bins of a valid shape, is an
    invariant of the loop, and the loop does not fail. *)
Lemma purify_bins_invariant (P : pass_state -> Prop)
    (lens : list Z) (T : Z) (w : list F) (M : F) (bins : list Z) :
  valid_shape lens T ->
  (forall k, In k bins -> 0 <= k < surface_bin_count lens T) ->
  (forall st k s,
     In k bins -> decode lens T k = Some s -> slice_in_tensor T s ->
     P st -> P (purify_slice w M st k (slice_cells s))) ->
  forall st, P st ->
  exists st', purify_bins lens T w M bins st = Some st' /\ P st'.
Proof.
  intros Hvalid. induction bins as [|k bins IH]; intros Hbins Hstep st HP.
  - exists st. auto.
  - rewrite purify_bins_cons.
    destruct (@purify_bin_valid lens T w M st k Hvalid) as (s & Hdec & Hs & Hbin);
      [apply Hbins; now left|].
    rewrite Hbin. apply IH.
    + intros k' Hk'. apply Hbins. now right.
    + intros st0 k' s' Hk'. apply Hstep. now right.
    + eapply Hstep; eauto. now left.
Qed.
End PassFacts.

(** ** Exact arithmetic: conservation *)

Ltac qarith :=
  cbn [f0 fadd fmul fdiv fopp fabs feqb fltb fleb finf_leb Q_arith] in *.

Lemma sumQ_map_ext (f g : Z -> Q) (l : list Z) :
  (forall j, In j l -> (g j == f j)%Q) ->
  (sumQ (map g l) == sumQ (map f l))%Q.
Proof.
  induction l as [|a l IH]; intros Hfg; cbn [map sumQ fold_right]; [reflexivity|].
  fold (sumQ (map g l)). fold (sumQ (map f l)).
  rewrite IH, (Hfg a) by (intros; auto with datatypes); auto with datatypes.
  reflexivity.
Qed.

(** Changing one summand of a sum over distinct indices changes the sum
    by the same amount. *)
Lemma sumQ_map_point (f g : Z -> Q) (l : list Z) (k : Z) (d : Q) :
  NoDup l -> In k l ->
  (forall j, In j l -> j <> k -> (g j == f j)%Q) ->
  (g k == f k + d)%Q ->
  (sumQ (map g l) == sumQ (map f l) + d)%Q.
Proof.
  intros Hnd. induction Hnd as [|a l Hnotin Hnd IH]; intros Hin Hother Hk.
  - destruct Hin.
  - cbn [map sumQ fold_right].
    fold (sumQ (map g l)). fold (sumQ (map f l)).
    destruct Hin as [->|Hin].
    + rewrite Hk, (@sumQ_map_ext f g l).
      * ring.
      * intros j Hj. apply Hother; [now right|]. intros ->. contradiction.
    + rewrite IH; auto.
      * rewrite (Hother a); [ring|now left|]. intros ->. contradiction.
      * intros j Hj. apply Hother. now right.
Qed.

(** The buffer lemmas, read in exact arithmetic. *)

Lemma slice_update_load_Q (cells : list Z) (v : Q) (a : list Q) (i : Z) :
  NoDup cells ->
  (forall c, In c cells -> 0 <= c < Z.of_nat (length a)) ->
  0 <= i ->
  load 0%Q (slice_update a cells v) i =
    if existsb (Z.eqb i) cells then (load 0%Q a i + v)%Q else load 0%Q a i.
Proof. exact (@slice_update_load Q Q_arith cells v a i). Qed.

Lemma subtract_intercept_load_Q (T : Z) (v : Q) (a : list Q) (i : Z) :
  T <= Z.of_nat (length a) ->
  0 <= i < T ->
  load 0%Q (subtract_intercept T v a) i = (load 0%Q a i + v)%Q.
Proof. exact (@subtract_intercept_load Q Q_arith T v a i). Qed.

Lemma memset_zero_load_Q (S : Z) (a : list Q) (k : Z) :
  0 <= S -> S * 8 < size_modulus ->
  S <= Z.of_nat (length a) ->
  0 <= k < S ->
  load 0%Q (memset_zero S a) k = 0%Q.
Proof. exact (@memset_zero_load Q Q_arith S a k). Qed.

Section Conservation.
Variables (lens : list Z) (T : Z).
Hypothesis Hvalid : valid_shape lens T.

Lemma removed_from_cell_store (aImpurities : list Q) (k i : Z) (v : Q) :
  0 <= k < surface_bin_count lens T ->
  k < Z.of_nat (length aImpurities) ->
  (removed_from_cell lens T (store aImpurities k v) i ==
   removed_from_cell lens T aImpurities i
   + (if covers lens T k i then v - load 0%Q aImpurities k else 0))%Q.
Proof.
  intros Hk Hlen. unfold removed_from_cell.
  apply sumQ_map_point with (k := k).
  - apply zrange_NoDup.
  - now apply zrange_In.
  - intros j Hj Hne. apply zrange_In in Hj.
    rewrite load_store_other by lia. reflexivity.
  - rewrite load_store_same by lia.
    destruct (covers lens T k i); ring.
Qed.

Lemma removed_from_cell_zero (aImpurities : list Q) (i : Z) :
  (forall k, 0 <= k < surface_bin_count lens T -> load 0%Q aImpurities k = 0%Q) ->
  (removed_from_cell lens T aImpurities i == 0)%Q.
Proof.
  intros Hzero. unfold removed_from_cell.
  rewrite (@sumQ_map_ext (fun _ => 0%Q)).
  - induction (zrange (surface_bin_count lens T)) as [|a l IH]; [reflexivity|].
    cbn [map sumQ fold_right]. fold (sumQ (map (fun _ : Z => 0%Q) l)).
    rewrite IH. ring.
  - intros j Hj. apply zrange_In in Hj. rewrite Hzero by lia.
    destruct (covers lens T j i); reflexivity.
Qed.

Lemma purify_slice_conserved (base : Z -> Q) (L : nat) (w : list Q) (M : Q)
    (st : pass_state) (k : Z) (s : slice) :
  0 <= k < surface_bin_count lens T ->
  surface_bin_count lens T <= Z.of_nat L ->
  decode lens T k = Some s ->
  slice_in_tensor T s ->
  conserved lens T base L (aScores_of st) (aImpurities_of st) ->
  conserved lens T base L (aScores_of (purify_slice w M st k (slice_cells s)))
                   (aImpurities_of (purify_slice w M st k (slice_cells s))).
Proof.
  intros Hk HL Hdec Hs (Hlen & Himp & Hcons).
  unfold purify_slice. cbn [aScores_of aImpurities_of].
  split; [now rewrite slice_update_length|].
  split; [now rewrite store_length|].
  intros i Hi.
  rewrite slice_update_load_Q;
    [|eapply slice_cells_NoDup; eauto
     |intros c Hc; rewrite Hlen; eapply slice_cells_range; eauto
     |lia].
  rewrite removed_from_cell_store by lia.
  rewrite (Hcons i Hi).
  unfold covers. rewrite Hdec.
  destruct (existsb (Z.eqb i) (slice_cells s)); qarith; ring.
Qed.

Lemma purify_pass_conserved (base : Z -> Q) (L : nat) (w : list Q) (M : Q)
    (aScores aImpurities : list Q) :
  surface_bin_count lens T <= Z.of_nat L ->
  conserved lens T base L aScores aImpurities ->
  exists st,
    purify_pass lens T (surface_bin_count lens T) w M aScores aImpurities = Some st /\
    conserved lens T base L (aScores_of st) (aImpurities_of st).
Proof.
  intros HL Hcons. unfold purify_pass.
  apply (@purify_bins_invariant Q Q_arith
           (fun st => conserved lens T base L (aScores_of st) (aImpurities_of st))); auto.
  - intros k Hk. now apply zrange_In.
  - intros st k s Hk Hdec Hs HP. apply zrange_In in Hk.
    now apply purify_slice_conserved.
Qed.

Lemma purify_loop_conserved (base : Z -> Q) (L : nat) (w : list Q) (M : Q) (fuel : nat) :
  surface_bin_count lens T <= Z.of_nat L ->
  forall (prev : option Q) (aScores aImpurities aScores' aImpurities' : list Q),
    conserved lens T base L aScores aImpurities ->
    purify_loop fuel lens T (surface_bin_count lens T) w M prev aScores aImpurities
      = Done (aScores', aImpurities') ->
    conserved lens T base L aScores' aImpurities'.
Proof.
  intros HL. induction fuel as [|fuel IH];
    intros prev aScores aImpurities aScores' aImpurities' Hcons Hrun; [discriminate|].
  cbn [purify_loop] in Hrun.
  destruct (purify_pass_conserved w M HL Hcons) as (st & Hpass & Hst).
  rewrite Hpass in Hrun.
  destruct (not_improved prev (impurityCur st)).
  - inversion Hrun; subst. exact Hst.
  - destruct (bRetry st).
    + eapply IH; eauto.
    + inversion Hrun; subst. exact Hst.
Qed.
End Conservation.

(** ** [PurifyInternal], unfolded *)

Section InternalFacts.
Context {F : Type} {AF : Arith F}.

(** With a total weight other than zero, the call is the intercept step
    followed by the passes. *)
Lemma PurifyInternal_passes (fuel : nat) (T : Z) (tolerance : F) (D : Z)
    (aLens : list Z) (w : list F) (m : memory) :
  feqb f0 (weight_sum T w) = false ->
  PurifyInternal fuel T tolerance D aLens w m =
    let lens := firstn (Z.to_nat D) aLens in
    let m1 := extract_intercept T (sum_totals T w (mScores m)) m in
    match purify_loop fuel lens T (count_surface_bins lens T) w
            (impurity_threshold T tolerance w (mScores m)) None (mScores m1)
            (memset_zero (count_surface_bins lens T) (mImpurities m1)) with
    | Done (aScores', aImpurities') =>
        Done (Error_None, mkMem aScores' aImpurities' (mInterceptOut m1))
    | Fault => Fault
    | OutOfFuel => OutOfFuel
    end.
Proof.
  intros Hw. unfold PurifyInternal.
  rewrite sum_totals_spec. cbn [weightTotalAll impurityMax0]. rewrite Hw.
  reflexivity.
Qed.

Lemma extract_intercept_some (T : Z) (w aScores aImpurities stores : list F) :
  extract_intercept T (sum_totals T w aScores) (mkMem aScores aImpurities (Some stores)) =
    mkMem (subtract_intercept T (fopp (weighted_mean T w aScores)) aScores)
          aImpurities
          (Some (weighted_mean T w aScores :: stores)).
Proof. unfold extract_intercept. rewrite sum_totals_spec. reflexivity. Qed.
End InternalFacts.

Lemma Qeq_bool_false_iff (a b : Q) : Qeq_bool a b = false <-> ~ (a == b)%Q.
Proof.
  split.
  - intros Hf Heq. apply Qeq_bool_iff in Heq. congruence.
  - intros Hne. apply not_true_is_false. intros Ht. apply Hne. now apply Qeq_bool_iff.
Qed.

(** C1.  Conservation, in exact arithmetic: for a valid shape, buffers of
    the lengths the contract states and a total weight other than zero,
    when [PurifyInternal] returns, every cell's original score is its
    final score, plus the intercept if one was requested, plus the sum of
    the impurities accumulated for the surface bins whose slice contains
    the cell. *)
Theorem conservation (fuel : nat) (cTensorBins : Z) (tolerance : Q) (cDimensions : Z)
    (aDimensionLengths : list Z) (aWeights : list Q) (m r : memory) :
  let lens := firstn (Z.to_nat cDimensions) aDimensionLengths in
  valid_shape lens cTensorBins ->
  surface_bin_count lens cTensorBins * 8 < size_modulus ->
  Z.of_nat (length (mScores m)) = cTensorBins ->
  surface_bin_count lens cTensorBins <= Z.of_nat (length (mImpurities m)) ->
  ~ (weight_sum cTensorBins aWeights == 0)%Q ->
  PurifyInternal fuel cTensorBins tolerance cDimensions aDimensionLengths aWeights m
    = Done (Error_None, r) ->
  forall i, 0 <= i < cTensorBins ->
    (load 0%Q (mScores m) i ==
     load 0%Q (mScores r) i + extracted_intercept r
     + removed_from_cell lens cTensorBins (mImpurities r) i)%Q.
Proof.
  intros lens Hvalid Hbytes Hlen HimpLen Hw Hrun i Hi.
  assert (HT : 0 < cTensorBins).
  { destruct Hvalid as (Hpos & <- & _). now apply extent_product_pos. }
  assert (HS0 : 0 <= surface_bin_count lens cTensorBins).
  { apply surface_bin_count_nonneg; [lia|apply Hvalid]. }
  assert (HS : count_surface_bins lens cTensorBins = surface_bin_count lens cTensorBins)
    by (apply count_surface_bins_exact; [assumption|lia]).
  rewrite PurifyInternal_passes in Hrun
    by (apply Qeq_bool_false_iff; intros H0; apply Hw; now symmetry).
  fold lens in Hrun. cbv zeta in Hrun. rewrite HS in Hrun.
  destruct m as [aScores aImpurities icpt]. cbn [mScores mImpurities] in *.
  set (m1 := extract_intercept cTensorBins (sum_totals cTensorBins aWeights aScores)
               (mkMem aScores aImpurities icpt)) in *.
  assert (Hm1len : Z.of_nat (length (mScores m1)) = cTensorBins).
  { subst m1. destruct icpt; cbn [extract_intercept mInterceptOut mScores]; auto.
    now rewrite subtract_intercept_length. }
  assert (Hm1imp : mImpurities m1 = aImpurities) by (subst m1; now destruct icpt).
  destruct (purify_loop fuel lens cTensorBins (surface_bin_count lens cTensorBins) aWeights
              (impurity_threshold cTensorBins tolerance aWeights aScores) None
              (mScores m1)
              (memset_zero (surface_bin_count lens cTensorBins) (mImpurities m1)))
    as [[aScores' aImpurities']| |] eqn:Hloop; try discriminate.
  inversion Hrun; subst r; clear Hrun. cbn [mScores mImpurities].
  assert (Hcons : conserved lens cTensorBins (fun j => load 0%Q (mScores m1) j)
                    (length aImpurities) aScores' aImpurities').
  { eapply purify_loop_conserved; [exact Hvalid|exact HimpLen| |exact Hloop].
    split; [exact Hm1len|]. split; [rewrite memset_zero_length; now rewrite Hm1imp|].
    intros j Hj. rewrite removed_from_cell_zero; [ring|].
    intros k Hk. rewrite Hm1imp. apply memset_zero_load_Q; lia. }
  destruct Hcons as (_ & _ & Hcons). specialize (Hcons i Hi). cbv beta in Hcons.
  rewrite <- Qplus_assoc, (Qplus_comm (extracted_intercept _)), Qplus_assoc, <- Hcons.
  subst m1. destruct icpt as [stores|].
  - rewrite extract_intercept_some.
    cbn [mScores extracted_intercept mInterceptOut].
    rewrite subtract_intercept_load_Q by lia. qarith. ring.
  - cbn [extract_intercept mInterceptOut mScores extracted_intercept]. ring.
Qed.


Lemma example_valid_shape : valid_shape (firstn (Z.to_nat 2) [2; 2]) 4.
Proof. split; [repeat constructor|split; reflexivity]. Qed.

Lemma example_run :
  PurifyInternal 10 4 (1 # 10)%Q 2 [2; 2] example_weights example_memory
    = Done (Error_None, example_result).
Proof. vm_compute. reflexivity. Qed.

Lemma conservation_witness :
  let lens := firstn (Z.to_nat 2) [2; 2] in
  (valid_shape lens 4 /\
   surface_bin_count lens 4 * 8 < size_modulus /\
   Z.of_nat (length (mScores example_memory)) = 4 /\
   surface_bin_count lens 4 <= Z.of_nat (length (mImpurities example_memory)) /\
   ~ (weight_sum 4 example_weights == 0)%Q /\
   PurifyInternal 10 4 (1 # 10)%Q 2 [2; 2] example_weights example_memory
     = Done (Error_None, example_result)) /\
  forall i, 0 <= i < 4 ->
    (load 0%Q (mScores example_memory) i ==
     load 0%Q (mScores example_result) i + extracted_intercept example_result
     + removed_from_cell lens 4 (mImpurities example_result) i)%Q.
Proof.
  intros lens.
  assert (Hb : surface_bin_count lens 4 * 8 < size_modulus) by reflexivity.
  assert (Hl : Z.of_nat (length (mScores example_memory)) = 4) by reflexivity.
  assert (Hi : surface_bin_count lens 4 <= Z.of_nat (length (mImpurities example_memory)))
    by (vm_compute; discriminate).
  assert (Hw : ~ (weight_sum 4 example_weights == 0)%Q) by (vm_compute; discriminate).
  split.
  - repeat (split; [first [exact example_valid_shape|assumption]|]). exact example_run.
  - exact (@conservation 10 4 (1 # 10)%Q 2 [2; 2] example_weights example_memory
             example_result example_valid_shape Hb Hl Hi Hw example_run).
Defined.

(** ** The intercept *)

Section InterceptFacts.
Context {F : Type} {AF : Arith F}.

(** C5.  Intercept extraction: with a total weight other than zero and a
    non-null [pInterceptOut], the call stores one value through the
    pointer, the sum of [score * weight] over the sum of the weights, both
    taken on the scores as passed in; the passes then run on the scores
    with that value subtracted from every cell, and store nothing more
    through the pointer. *)
Theorem intercept_extraction (fuel : nat) (cTensorBins : Z) (tolerance : F)
    (cDimensions : Z) (aDimensionLengths : list Z)
    (aWeights aScores aImpurities stores : list F) :
  feqb f0 (weight_sum cTensorBins aWeights) = false ->
  cTensorBins <= Z.of_nat (length aScores) ->
  let lens := firstn (Z.to_nat cDimensions) aDimensionLengths in
  let intercept :=
    fdiv (weighted_score_sum cTensorBins aWeights aScores)
         (weight_sum cTensorBins aWeights) in
  let call :=
    PurifyInternal fuel cTensorBins tolerance cDimensions aDimensionLengths aWeights
                   (mkMem aScores aImpurities (Some stores)) in
  exists aScores1 : list F,
    (forall i, 0 <= i < cTensorBins ->
       load f0 aScores1 i = fadd (load f0 aScores i) (fopp intercept)) /\
    call =
      match purify_loop fuel lens cTensorBins (count_surface_bins lens cTensorBins)
              aWeights (impurity_threshold cTensorBins tolerance aWeights aScores)
              None aScores1
              (memset_zero (count_surface_bins lens cTensorBins) aImpurities) with
      | Done (aScores', aImpurities') =>
          Done (Error_None, mkMem aScores' aImpurities' (Some (intercept :: stores)))
      | Fault => Fault
      | OutOfFuel => OutOfFuel
      end /\
    (forall error r, call = Done (error, r) ->
       mInterceptOut r = Some (intercept :: stores)).
Proof.
  intros Hw Hlen lens intercept call.
  exists (subtract_intercept cTensorBins (fopp intercept) aScores).
  assert (Hcall : call =
    match purify_loop fuel lens cTensorBins (count_surface_bins lens cTensorBins)
            aWeights (impurity_threshold cTensorBins tolerance aWeights aScores)
            None (subtract_intercept cTensorBins (fopp intercept) aScores)
            (memset_zero (count_surface_bins lens cTensorBins) aImpurities) with
    | Done (aScores', aImpurities') =>
        Done (Error_None, mkMem aScores' aImpurities' (Some (intercept :: stores)))
    | Fault => Fault
    | OutOfFuel => OutOfFuel
    end).
  { subst call. rewrite PurifyInternal_passes by assumption.
    cbv zeta. cbn [mScores]. rewrite extract_intercept_some. reflexivity. }
  split; [|split].
  - intros i Hi. now apply subtract_intercept_load.
  - exact Hcall.
  - intros error r Hdone. rewrite Hcall in Hdone.
    destruct (purify_loop fuel lens cTensorBins (count_surface_bins lens cTensorBins)
                aWeights (impurity_threshold cTensorBins tolerance aWeights aScores)
                None (subtract_intercept cTensorBins (fopp intercept) aScores)
                (memset_zero (count_surface_bins lens cTensorBins) aImpurities))
      as [[s' i']| |]; try discriminate.
    inversion Hdone. reflexivity.
Qed.
End InterceptFacts.

Lemma intercept_extraction_witness :
  feqb f0 (weight_sum 4 example_weights) = false /\
  4 <= Z.of_nat (length [1; 2; 3; 5]%Q) /\
  mInterceptOut example_result = Some [(34 # 10)%Q; 0%Q].
Proof.
  assert (Hw : feqb f0 (weight_sum 4 example_weights) = false) by reflexivity.
  assert (Hl : 4 <= Z.of_nat (length [1; 2; 3; 5]%Q)) by (vm_compute; discriminate).
  split; [exact Hw|]. split; [exact Hl|].
  destruct (@intercept_extraction Q Q_arith 10 4 (1 # 10)%Q 2 [2; 2] example_weights
              [1; 2; 3; 5]%Q [7; 7; 7; 7]%Q [0%Q] Hw Hl) as (s1 & _ & _ & Hstore).
  exact (Hstore Error_None example_result example_run).
Defined.

(** ** The loop over the passes *)

Section LoopFacts.
Context {F : Type} {AF : Arith F}.
Variables (lens : list Z) (T S : Z) (w : list F) (M : F).

(** More rounds do not change a run that has finished. *)
Lemma purify_loop_more_fuel (fuel extra : nat) :
  forall (prev : option F) (sc im : list F) (res : list F * list F),
    purify_loop fuel lens T S w M prev sc im = Done res ->
    purify_loop (fuel + extra) lens T S w M prev sc im = Done res.
Proof.
  induction fuel as [|fuel IH]; intros prev sc im res Hrun; [discriminate|].
  cbn [purify_loop Nat.add] in *.
  destruct (purify_pass lens T S w M sc im) as [st|]; [|discriminate].
  destruct (not_improved prev (impurityCur st)); [assumption|].
  destruct (bRetry st); [now apply IH|assumption].
Qed.

(** A finished run ends with a last pass; it starts from buffers that
    satisfy every invariant of the passes, and the loop is left either by
    the test [impurityPrev <= impurityCur] or because [bRetry] is false. *)
Lemma purify_loop_last_pass (I : list F -> list F -> Prop) :
  (forall sc im st,
     I sc im -> purify_pass lens T S w M sc im = Some st ->
     I (aScores_of st) (aImpurities_of st)) ->
  forall (fuel : nat) (prev : option F) (sc im sc' im' : list F),
    I sc im ->
    purify_loop fuel lens T S w M prev sc im = Done (sc', im') ->
    exists (prev' : option F) (scIn imIn : list F) (st : pass_state),
      I scIn imIn /\
      purify_pass lens T S w M scIn imIn = Some st /\
      sc' = aScores_of st /\ im' = aImpurities_of st /\
      (not_improved prev' (impurityCur st) = true \/
       (not_improved prev' (impurityCur st) = false /\ bRetry st = false)).
Proof.
  intros Hstep. induction fuel as [|fuel IH]; intros prev sc im sc' im' HI Hrun;
    [discriminate|].
  cbn [purify_loop] in Hrun.
  destruct (purify_pass lens T S w M sc im) as [st|] eqn:Hpass; [|discriminate].
  destruct (not_improved prev (impurityCur st)) eqn:Hguard.
  - inversion Hrun; subst. exists prev, sc, im, st. auto 10.
  - destruct (bRetry st) eqn:Hretry.
    + eapply IH; [|exact Hrun]. eapply Hstep; eauto.
    + inversion Hrun; subst. exists prev, sc, im, st. auto 10.
Qed.

(** The same with the passes before the last one: the run made [n]
    passes that did not leave the loop, and the pass after them left it.
    The first component of the state after these [n] passes is the
    [impurityPrev] of the code at the test of line 150: [None] (infinity)
    when [n] is 0, and the total [impurityCur] of the pass before (line
    154) otherwise. *)
Lemma purify_loop_exit (I : list F -> list F -> Prop) :
  (forall sc im st,
     I sc im -> purify_pass lens T S w M sc im = Some st ->
     I (aScores_of st) (aImpurities_of st)) ->
  forall (fuel : nat) (prev : option F) (sc im sc' im' : list F),
    I sc im ->
    purify_loop fuel lens T S w M prev sc im = Done (sc', im') ->
    exists (n : nat) (prev' : option F) (scIn imIn : list F) (st : pass_state),
      (n < fuel)%nat /\
      passes n lens T S w M prev sc im = Some (prev', scIn, imIn) /\
      I scIn imIn /\
      purify_pass lens T S w M scIn imIn = Some st /\
      sc' = aScores_of st /\ im' = aImpurities_of st /\
      (not_improved prev' (impurityCur st) = true \/
       (not_improved prev' (impurityCur st) = false /\ bRetry st = false)).
Proof.
  intros Hstep. induction fuel as [|fuel IH]; intros prev sc im sc' im' HI Hrun;
    [discriminate|].
  cbn [purify_loop] in Hrun.
  destruct (purify_pass lens T S w M sc im) as [st|] eqn:Hpass; [|discriminate].
  destruct (not_improved prev (impurityCur st)) eqn:Hguard.
  - inversion Hrun; subst. exists 0%nat, prev, sc, im, st.
    split; [lia|]. split; [reflexivity|]. auto 10.
  - destruct (bRetry st) eqn:Hretry.
    + destruct (IH (Some (impurityCur st)) (aScores_of st) (aImpurities_of st) sc' im')
        as (n & prev' & scIn & imIn & st' & Hn & Hpasses & Hrest);
        [eapply Hstep; eauto|exact Hrun|].
      exists (Datatypes.S n), prev', scIn, imIn, st'.
      split; [lia|]. split; [|exact Hrest].
      cbn [passes]. now rewrite Hpass, Hguard, Hretry.
    + inversion Hrun; subst. exists 0%nat, prev, sc, im, st.
      split; [lia|]. split; [reflexivity|]. auto 10.
Qed.

Lemma purify_slice_retry (st : pass_state) (k : Z) (cells : list Z) :
  bRetry (purify_slice w M st k cells) =
    bRetry st || fltb M (fabs (slice_impurity w (aScores_of st) cells)).
Proof. reflexivity. Qed.

(** [bRetry] is only ever set within a pass. *)
Lemma purify_bins_retry_mono (bins : list Z) :
  forall st st',
    purify_bins lens T w M bins st = Some st' ->
    bRetry st = true -> bRetry st' = true.
Proof.
  induction bins as [|k bins IH]; intros st st' Hrun Hretry.
  - inversion Hrun; subst. assumption.
  - rewrite purify_bins_cons in Hrun.
    destruct (purify_bin lens T w M st k) as [st1|] eqn:Hbin; [|discriminate].
    eapply IH; [exact Hrun|].
    unfold purify_bin in Hbin. destruct (decode lens T k); [|discriminate].
    inversion Hbin; subst. rewrite purify_slice_retry, Hretry. reflexivity.
Qed.

(** When [bRetry] is false after the loop over the bins, the impurity
    measured for each bin, on the scores as they were when the bin was
    reached, did not exceed [impurityMax]. *)
Lemma purify_bins_no_retry (pre : list Z) (k : Z) (suf : list Z) (st st' : pass_state) :
  purify_bins lens T w M (pre ++ k :: suf) st = Some st' ->
  bRetry st' = false ->
  exists (s : slice) (stk : pass_state),
    decode lens T k = Some s /\
    purify_bins lens T w M pre st = Some stk /\
    fltb M (fabs (slice_impurity w (aScores_of stk) (slice_cells s))) = false.
Proof.
  intros Hrun Hretry.
  rewrite purify_bins_app in Hrun.
  destruct (purify_bins lens T w M pre st) as [stk|]; [|discriminate].
  rewrite purify_bins_cons in Hrun.
  destruct (purify_bin lens T w M stk k) as [st1|] eqn:Hbin; [|discriminate].
  unfold purify_bin in Hbin.
  destruct (decode lens T k) as [s|]; [|discriminate].
  inversion Hbin; subst st1; clear Hbin.
  exists s, stk. repeat split.
  destruct (fltb M (fabs (slice_impurity w (aScores_of stk) (slice_cells s)))) eqn:Hlt;
    [|reflexivity].
  assert (Htrue : bRetry st' = true).
  { eapply purify_bins_retry_mono; [exact Hrun|].
    rewrite purify_slice_retry, Hlt. apply orb_true_r. }
  congruence.
Qed.
End LoopFacts.

Lemma zrange_split (n k : Z) :
  0 <= k < n -> exists suf : list Z, zrange n = zrange k ++ k :: suf.
Proof.
  intros Hk.
  exists (map Z.of_nat (seq (Z.to_nat (k + 1)) (Z.to_nat n - Z.to_nat (k + 1)))).
  assert (Hn : zrange n = zrange (k + 1)
                 ++ map Z.of_nat (seq (Z.to_nat (k + 1)) (Z.to_nat n - Z.to_nat (k + 1)))).
  { unfold zrange. rewrite <- map_app. f_equal.
    replace (Z.to_nat n)
      with (Z.to_nat (k + 1) + (Z.to_nat n - Z.to_nat (k + 1)))%nat at 1 by lia.
    apply seq_app. }
  rewrite Hn, zrange_succ by lia. rewrite <- app_assoc. reflexivity.
Qed.

(** ** Exact arithmetic: sums and weighted means *)

Lemma sumQ_cons (a : Q) (l : list Q) : sumQ (a :: l) = (a + sumQ l)%Q.
Proof. reflexivity. Qed.

Lemma fold_left_sumQ (f : Z -> Q) (l : list Z) :
  forall a : Q, (fold_left (fun acc i => acc + f i) l a == a + sumQ (map f l))%Q.
Proof.
  induction l as [|i l IH]; intros a.
  - cbn. ring.
  - cbn [fold_left map]. rewrite IH, sumQ_cons. ring.
Qed.

Section ReduceFacts.
Context {F : Type} {AF : Arith F}.

Lemma slice_reduce_fold (w sc : list F) (cells : list Z) :
  forall a b : F,
    fold_left (fun '(impurity, weightTotal) iTensorCur =>
                 let weight := load f0 w iTensorCur in
                 let score := load f0 sc iTensorCur in
                 (fadd impurity (fmul score weight), fadd weightTotal weight))
              cells (a, b) =
    (fold_left (fun acc i => fadd acc (fmul (load f0 sc i) (load f0 w i))) cells a,
     fold_left (fun acc i => fadd acc (load f0 w i)) cells b).
Proof.
  induction cells as [|i cells IH]; intros a b; [reflexivity|].
  cbn [fold_left]. apply IH.
Qed.

(** The two accumulators of the reduction loop, one at a time. *)
Lemma slice_reduce_unpair (w sc : list F) (cells : list Z) :
  slice_reduce w sc cells =
    (fold_left (fun acc i => fadd acc (fmul (load f0 sc i) (load f0 w i))) cells f0,
     fold_left (fun acc i => fadd acc (load f0 w i)) cells f0).
Proof. apply slice_reduce_fold. Qed.
End ReduceFacts.

Lemma slice_reduce_Q (w sc : list Q) (cells : list Z) :
  (fst (slice_reduce w sc cells) == slice_weighted_sum w sc cells)%Q /\
  (snd (slice_reduce w sc cells) == slice_weight w cells)%Q.
Proof.
  rewrite slice_reduce_unpair. cbn [fst snd]. qarith. split.
  - rewrite (fold_left_sumQ (fun i => load 0 sc i * load 0 w i)%Q). unfold slice_weighted_sum. ring.
  - rewrite (fold_left_sumQ (fun i => load 0 w i)%Q). unfold slice_weight. ring.
Qed.

(** The impurity the code measures for a slice is the weighted mean of
    the scores along the slice. *)
Lemma slice_impurity_mean (w sc : list Q) (cells : list Z) :
  (slice_impurity w sc cells == slice_mean w sc cells)%Q.
Proof.
  unfold slice_impurity, slice_mean.
  destruct (slice_reduce_Q w sc cells) as (Hsum & Hweight).
  destruct (slice_reduce w sc cells) as [impurity weightTotal].
  cbn [fst snd] in *. qarith.
  assert (Hb : Qeq_bool 0 weightTotal = Qeq_bool (slice_weight w cells) 0).
  { destruct (Qeq_bool (slice_weight w cells) 0) eqn:E.
    - apply Qeq_bool_iff. apply Qeq_bool_iff in E. now rewrite Hweight, E.
    - apply Qeq_bool_false_iff. apply Qeq_bool_false_iff in E.
      intros H0. apply E. rewrite <- Hweight. now symmetry. }
  rewrite Hb.
  destruct (Qeq_bool (slice_weight w cells) 0); [reflexivity|].
  now rewrite Hsum, Hweight.
Qed.

(** ** The convergence test *)

Lemma fltb_false_Qle (a b : Q) : fltb a b = false -> (b <= a)%Q.
Proof.
  qarith. intros H. apply negb_false_iff in H. now apply Qle_bool_iff.
Qed.

(** ** Exact arithmetic: signs *)

Lemma sumQ_app (l1 l2 : list Q) : (sumQ (l1 ++ l2) == sumQ l1 + sumQ l2)%Q.
Proof.
  induction l1 as [|a l1 IH]; cbn [app].
  - cbn. ring.
  - rewrite !sumQ_cons, IH. ring.
Qed.

Lemma sumQ_nonneg (l : list Q) : Forall (fun x => (0 <= x)%Q) l -> (0 <= sumQ l)%Q.
Proof.
  induction 1 as [|a l Ha _ IH]; [apply Qle_refl|].
  rewrite sumQ_cons. lra.
Qed.

(** A sum of non-negative terms that is zero has only zero terms. *)
Lemma sumQ_zero_terms (l : list Q) :
  Forall (fun x => (0 <= x)%Q) l -> (sumQ l == 0)%Q -> Forall (fun x => (x == 0)%Q) l.
Proof.
  induction 1 as [|a l Ha Hl IH]; intros Hsum; constructor.
  - rewrite sumQ_cons in Hsum. pose proof (sumQ_nonneg Hl). lra.
  - apply IH. rewrite sumQ_cons in Hsum. pose proof (sumQ_nonneg Hl). lra.
Qed.

Lemma weight_sum_sumQ (T : Z) (w : list Q) :
  (weight_sum T w == sumQ (map (fun i => load 0%Q w i) (zrange T)))%Q.
Proof.
  unfold weight_sum. qarith.
  rewrite (fold_left_sumQ (fun i => load 0%Q w i)). ring.
Qed.

Lemma weighted_score_sum_sumQ (T : Z) (w sc : list Q) :
  (weighted_score_sum T w sc ==
   sumQ (map (fun i => load 0%Q sc i * load 0%Q w i) (zrange T)))%Q.
Proof.
  unfold weighted_score_sum. qarith.
  rewrite (fold_left_sumQ (fun i => load 0%Q sc i * load 0%Q w i)%Q). ring.
Qed.

Lemma abs_score_sum_nonneg (T : Z) (w sc : list Q) : (0 <= abs_score_sum T w sc)%Q.
Proof.
  unfold abs_score_sum. qarith.
  rewrite (fold_left_sumQ (fun i => Qabs (load 0%Q sc i * load 0%Q w i))).
  rewrite Qplus_0_l. apply sumQ_nonneg.
  apply Forall_forall. intros x Hx. apply in_map_iff in Hx.
  destruct Hx as (i & <- & _). apply Qabs_nonneg.
Qed.

Lemma weight_sum_pos (T : Z) (w : list Q) :
  nonneg_weights T w -> ~ (weight_sum T w == 0)%Q -> (0 < weight_sum T w)%Q.
Proof.
  intros Hnn Hne.
  assert (H0 : (0 <= weight_sum T w)%Q).
  { rewrite weight_sum_sumQ. apply sumQ_nonneg.
    apply Forall_forall. intros x Hx. apply in_map_iff in Hx.
    destruct Hx as (i & <- & Hi). apply Hnn. now apply zrange_In. }
  destruct (Qle_lt_or_eq _ _ H0) as [Hlt|Heq]; [assumption|].
  exfalso. apply Hne. now symmetry.
Qed.

(** With a tolerance that is not negative and weights that are not
    negative, [impurityMax] is not negative. *)
Lemma impurity_threshold_nonneg (T : Z) (tolerance : Q) (w sc : list Q) :
  (0 <= tolerance)%Q -> nonneg_weights T w -> ~ (weight_sum T w == 0)%Q ->
  (0 <= impurity_threshold T tolerance w sc)%Q.
Proof.
  intros Htol Hnn Hne. unfold impurity_threshold. qarith.
  pose proof (weight_sum_pos Hnn Hne) as HW.
  pose proof (abs_score_sum_nonneg T w sc) as HA.
  apply Qle_shift_div_l; [assumption|].
  rewrite Qmult_0_l. now apply Qmult_le_0_compat.
Qed.

(** ** The slices of the first dimension cover the tensor *)

Lemma map_of_nat_seq (len : nat) :
  forall b : nat,
    map Z.of_nat (seq b len) = map (fun j => Z.of_nat b + Z.of_nat j) (seq 0 len).
Proof.
  induction len as [|len IH]; intros b; [reflexivity|].
  cbn [seq map]. f_equal; [lia|].
  rewrite IH, <- seq_shift, map_map. apply map_ext. intros j. lia.
Qed.

Lemma zrange_add (a n : Z) :
  0 <= a -> 0 <= n ->
  zrange (a + n) = zrange a ++ map (fun j => a + Z.of_nat j) (seq 0 (Z.to_nat n)).
Proof.
  intros Ha Hn. unfold zrange.
  replace (Z.to_nat (a + n)) with (Z.to_nat a + Z.to_nat n)%nat by lia.
  rewrite seq_app, map_app. f_equal. cbn [Nat.add].
  rewrite map_of_nat_seq. apply map_ext. intros j. lia.
Qed.

Lemma sumQ_blocks (f : Z -> Q) (n : Z) (blocks : nat) :
  0 <= n ->
  (sumQ (map f (zrange (n * Z.of_nat blocks))) ==
   sumQ (map (fun k => sumQ (map f (map (fun j => (n * k + Z.of_nat j)%Z)
                                        (seq 0 (Z.to_nat n)))))
             (zrange (Z.of_nat blocks))))%Q.
Proof.
  intros Hn. induction blocks as [|blocks IH].
  - rewrite Z.mul_0_r. reflexivity.
  - replace (n * Z.of_nat (S blocks)) with (n * Z.of_nat blocks + n) by lia.
    replace (Z.of_nat (S blocks)) with (Z.of_nat blocks + 1) by lia.
    rewrite zrange_add by lia. rewrite zrange_succ by lia.
    rewrite !map_app, !sumQ_app, IH. cbn [map]. rewrite sumQ_cons.
    change (sumQ []) with 0%Q. ring.
Qed.

(** The surface bins of the first dimension are the runs of [n]
    consecutive cells. *)
Lemma first_dimension_cells (n : Z) (q : list Z) (T k : Z) :
  valid_shape (n :: q) T ->
  0 <= k < T / n ->
  exists s : slice,
    decode (n :: q) T k = Some s /\
    slice_cells s = map (fun j => n * k + Z.of_nat j) (seq 0 (Z.to_nat n)).
Proof.
  intros Hvalid Hk.
  assert (Hn : 0 < n) by (destruct Hvalid as (Hpos & _); now inversion Hpos).
  assert (HS : 0 <= surface_bin_count q T).
  { destruct Hvalid as (Hpos & Hprod & _). inversion Hpos as [|x l _ Hq]; subst.
    apply surface_bin_count_nonneg; [|assumption].
    pose proof (extent_product_pos Hpos). lia. }
  assert (Hk' : 0 <= k < surface_bin_count (n :: q) T)
    by (rewrite surface_bin_count_cons; lia).
  destruct (decode_spec Hvalid Hk') as (p & n' & q' & Heq & Hr & Hdec).
  destruct (decode_in_tensor Hvalid Hk') as (s & Hdec' & Hs & _).
  destruct p as [|a p].
  - cbn [app] in Heq. inversion Heq; subst n' q'.
    exists s. split; [assumption|].
    rewrite (slice_cells_spec Hs).
    assert (Hrec : s = mkSlice 0 n 1 (n * k) 0).
    { change (surface_bin_count [] T) with 0 in Hdec.
      change (extent_product []) with 1 in Hdec.
      rewrite Z.sub_0_r, Z.mod_1_r, Z.div_1_r, Z.mul_1_l, Z.add_0_l in Hdec.
      change (length (@nil Z)) with 0%nat in Hdec. congruence. }
    rewrite Hrec. cbn [iTensor cTensorIncrement cSweepBins].
    apply map_ext. intros j. lia.
  - cbn [app] in Heq. inversion Heq; subst a.
    rewrite surface_bin_count_cons in Hr.
    assert (0 <= surface_bin_count p T).
    { destruct Hvalid as (Hpos & Hprod & _). inversion Hpos as [|x l _ Hq]; subst.
      apply Forall_app in Hq. destruct Hq as [Hq _].
      apply surface_bin_count_nonneg; [|assumption].
      pose proof (extent_product_pos Hpos). lia. }
    lia.
Qed.

(** The weighted sum over the whole tensor is the sum, over the surface
    bins of the first dimension, of the weighted sums of their slices. *)
Lemma weighted_score_sum_first_dimension (n : Z) (q : list Z) (T : Z) (w sc : list Q) :
  valid_shape (n :: q) T ->
  (forall k s, 0 <= k < T / n -> decode (n :: q) T k = Some s ->
     (slice_weighted_sum w sc (slice_cells s) == 0)%Q) ->
  (weighted_score_sum T w sc == 0)%Q.
Proof.
  intros Hvalid Hzero.
  destruct (@valid_shape_split [] n q T Hvalid) as (_ & Hn & _ & _ & HQ & HT & HTn & _).
  change (extent_product []) with 1 in *. rewrite Z.mul_1_l in *.
  rewrite weighted_score_sum_sumQ.
  replace T with (n * Z.of_nat (Z.to_nat (extent_product q))) by lia.
  rewrite sumQ_blocks by lia.
  rewrite (@sumQ_map_ext (fun _ => 0%Q)).
  - generalize (zrange (Z.of_nat (Z.to_nat (extent_product q)))) as l.
    induction l as [|a l IH]; [reflexivity|].
    cbn [map]. rewrite sumQ_cons, IH. ring.
  - intros k Hk. apply zrange_In in Hk.
    destruct (@first_dimension_cells n q T k Hvalid) as (s & Hdec & Hcells); [lia|].
    rewrite <- Hcells. apply (Hzero k s); [lia|assumption].
Qed.

(** ** Input without impurity *)

Lemma slice_weighted_sum_ext (w sc sc' : list Q) (cells : list Z) :
  (forall i, In i cells -> (load 0%Q sc i == load 0%Q sc' i)%Q) ->
  (slice_weighted_sum w sc cells == slice_weighted_sum w sc' cells)%Q.
Proof.
  intros Hext. unfold slice_weighted_sum. apply sumQ_map_ext.
  intros i Hi. now rewrite (Hext i Hi).
Qed.

Lemma slice_mean_ext (w sc sc' : list Q) (cells : list Z) :
  (forall i, In i cells -> (load 0%Q sc i == load 0%Q sc' i)%Q) ->
  (slice_mean w sc cells == slice_mean w sc' cells)%Q.
Proof.
  intros Hext. unfold slice_mean.
  destruct (Qeq_bool (slice_weight w cells) 0); [reflexivity|].
  now rewrite (slice_weighted_sum_ext w sc sc' cells Hext).
Qed.

(** A slice whose weighted mean is zero has a weighted sum of zero, when
    no weight is negative. *)
Lemma slice_mean_zero_sum (w sc : list Q) (cells : list Z) :
  (forall i, In i cells -> (0 <= load 0%Q w i)%Q) ->
  (slice_mean w sc cells == 0)%Q ->
  (slice_weighted_sum w sc cells == 0)%Q.
Proof.
  intros Hnn Hmean. unfold slice_mean in Hmean.
  destruct (Qeq_bool (slice_weight w cells) 0) eqn:E.
  - apply Qeq_bool_iff in E. unfold slice_weight in E.
    assert (Hzero : Forall (fun x => (x == 0)%Q) (map (fun i => load 0%Q w i) cells)).
    { apply sumQ_zero_terms; [|assumption].
      apply Forall_forall. intros x Hx. apply in_map_iff in Hx.
      destruct Hx as (i & <- & Hi). now apply Hnn. }
    unfold slice_weighted_sum.
    rewrite (@sumQ_map_ext (fun _ => 0%Q)).
    + clear. induction cells as [|a l IH]; [reflexivity|].
      cbn [map]. rewrite sumQ_cons, IH. ring.
    + intros i Hi. rewrite Forall_forall in Hzero.
      rewrite (Hzero (load 0%Q w i)); [ring|].
      apply in_map_iff. now exists i.
  - apply Qeq_bool_false_iff in E.
    rewrite <- (Qmult_div_r (slice_weighted_sum w sc cells) (slice_weight w cells) E).
    rewrite Hmean. ring.
Qed.

Section PureInput.
Variables (lens : list Z) (T : Z) (w : list Q) (M : Q) (aScores0 : list Q) (L : nat).
Hypothesis Hvalid : valid_shape lens T.
Hypothesis HL : surface_bin_count lens T <= Z.of_nat L.
Hypothesis HM : (0 <= M)%Q.
Hypothesis Hpure :
  forall k s, 0 <= k < surface_bin_count lens T -> decode lens T k = Some s ->
    (slice_mean w aScores0 (slice_cells s) == 0)%Q.

Lemma purify_slice_untouched (st : pass_state) (k : Z) (s : slice) :
  0 <= k < surface_bin_count lens T ->
  decode lens T k = Some s ->
  slice_in_tensor T s ->
  untouched lens T aScores0 L st ->
  untouched lens T aScores0 L (purify_slice w M st k (slice_cells s)).
Proof.
  intros Hk Hdec Hs (Hlen & Hsc & Hilen & Himp & Hcur & Hretry).
  assert (Hm : (slice_impurity w (aScores_of st) (slice_cells s) == 0)%Q).
  { rewrite slice_impurity_mean, <- (Hpure Hk Hdec).
    apply slice_mean_ext. intros i Hi. apply Hsc. eapply slice_cells_range; eauto. }
  unfold untouched, purify_slice.
  cbn [aScores_of aImpurities_of impurityCur bRetry]. qarith.
  split; [now rewrite slice_update_length|].
  split.
  { intros i Hi.
    rewrite slice_update_load_Q;
      [|eapply slice_cells_NoDup; eauto
       |intros c Hc; rewrite Hlen; eapply slice_cells_range; eauto
       |lia].
    destruct (existsb (Z.eqb i) (slice_cells s)); rewrite ?Hm, (Hsc i Hi); ring. }
  split; [now rewrite store_length|].
  split.
  { intros j Hj. destruct (Z.eq_dec k j) as [<-|Hne].
    - rewrite load_store_same by lia. rewrite Hm, (Himp k Hk). ring.
    - rewrite load_store_other by lia. now apply Himp. }
  split; [rewrite Hm, Hcur; reflexivity|].
  rewrite Hretry. cbn [orb]. apply negb_false_iff. apply Qle_bool_iff.
  rewrite Hm. exact HM.
Qed.

Lemma purify_pass_untouched (aScores aImpurities : list Q) :
  untouched lens T aScores0 L (mkPass aScores aImpurities 0%Q false) ->
  exists st,
    purify_pass lens T (surface_bin_count lens T) w M aScores aImpurities = Some st /\
    untouched lens T aScores0 L st.
Proof.
  intros Hst. unfold purify_pass.
  apply (@purify_bins_invariant Q Q_arith (untouched lens T aScores0 L)); auto.
  - intros k Hk. now apply zrange_In.
  - intros st k s Hk Hdec Hs HP. apply zrange_In in Hk.
    now apply purify_slice_untouched.
Qed.
End PureInput.

Lemma purify_loop_one_pass (lens : list Z) (T S : Z) (w : list Q) (M : Q)
    (aScores aImpurities : list Q) (st : pass_state) :
  purify_pass lens T S w M aScores aImpurities = Some st ->
  bRetry st = false ->
  purify_loop 1 lens T S w M None aScores aImpurities
    = Done (aScores_of st, aImpurities_of st).
Proof.
  intros Hpass Hretry. cbn [purify_loop]. rewrite Hpass, Hretry. reflexivity.
Qed.

(** When no slice has impurity, neither has the tensor as a whole. *)
Lemma pure_input_mean_zero (lens : list Z) (T : Z) (w sc : list Q) :
  valid_shape lens T ->
  lens <> [] ->
  nonneg_weights T w ->
  (forall k s, 0 <= k < surface_bin_count lens T -> decode lens T k = Some s ->
     (slice_mean w sc (slice_cells s) == 0)%Q) ->
  (weighted_mean T w sc == 0)%Q.
Proof.
  intros Hvalid Hdims Hnn Hpure.
  destruct lens as [|n q]; [contradiction|].
  assert (HT : 0 < T).
  { destruct Hvalid as (Hpos & <- & _). now apply extent_product_pos. }
  assert (Hq : 0 <= surface_bin_count q T).
  { destruct Hvalid as (Hpos & _). inversion Hpos; subst.
    apply surface_bin_count_nonneg; [lia|assumption]. }
  unfold weighted_mean. qarith.
  rewrite (@weighted_score_sum_first_dimension n q T w sc Hvalid).
  - unfold Qdiv. ring.
  - intros k s Hk Hdec.
    assert (Hk' : 0 <= k < surface_bin_count (n :: q) T)
      by (rewrite surface_bin_count_cons; lia).
    apply slice_mean_zero_sum.
    + intros i Hi. apply Hnn.
      destruct (decode_in_tensor Hvalid Hk') as (s' & Hdec' & Hs' & _).
      assert (s' = s) by congruence. subst s'.
      eapply slice_cells_range; eauto.
    + now apply (Hpure k s).
Qed.

(** C7 (amended).  Input without impurity, in exact arithmetic: for a
    valid shape of at least one dimension, weights that are not negative
    with a total other than zero, and a tolerance that is not negative,
    when the weighted mean of every slice is exactly zero,
    [PurifyInternal] returns after a single pass, every score is what it
    was, every accumulated impurity is zero, and so is the intercept if
    one was requested.  (With binary64 the sums are rounded, and an input
    whose exact means are zero need not come out unchanged: see
    [binary64_cancelling_scores_change].) *)
Theorem pure_input_single_pass (cTensorBins : Z) (tolerance : Q) (cDimensions : Z)
    (aDimensionLengths : list Z) (aWeights : list Q) (m : memory) :
  let lens := firstn (Z.to_nat cDimensions) aDimensionLengths in
  let cSurfaceBins := surface_bin_count lens cTensorBins in
  valid_shape lens cTensorBins ->
  lens <> [] ->
  cSurfaceBins * 8 < size_modulus ->
  Z.of_nat (length (mScores m)) = cTensorBins ->
  cSurfaceBins <= Z.of_nat (length (mImpurities m)) ->
  (0 <= tolerance)%Q ->
  nonneg_weights cTensorBins aWeights ->
  ~ (weight_sum cTensorBins aWeights == 0)%Q ->
  (forall k s, 0 <= k < cSurfaceBins -> decode lens cTensorBins k = Some s ->
     (slice_mean aWeights (mScores m) (slice_cells s) == 0)%Q) ->
  exists r : memory,
    PurifyInternal 1 cTensorBins tolerance cDimensions aDimensionLengths aWeights m
      = Done (Error_None, r) /\
    (forall i, 0 <= i < cTensorBins ->
       (load 0%Q (mScores r) i == load 0%Q (mScores m) i)%Q) /\
    (forall k, 0 <= k < cSurfaceBins -> (load 0%Q (mImpurities r) k == 0)%Q) /\
    (extracted_intercept r == 0)%Q.
Proof.
  intros lens cSurfaceBins Hvalid Hdims Hbytes Hlen HimpLen Htol Hnn Hw Hpure.
  assert (HT : 0 < cTensorBins).
  { destruct Hvalid as (Hpos & <- & _). now apply extent_product_pos. }
  assert (HS0 : 0 <= cSurfaceBins).
  { apply surface_bin_count_nonneg; [lia|apply Hvalid]. }
  assert (HS : count_surface_bins lens cTensorBins = cSurfaceBins)
    by (apply count_surface_bins_exact; [assumption|fold cSurfaceBins; lia]).
  assert (HM : (0 <= impurity_threshold cTensorBins tolerance aWeights (mScores m))%Q)
    by now apply impurity_threshold_nonneg.
  assert (Hmean : (weighted_mean cTensorBins aWeights (mScores m) == 0)%Q)
    by (apply (@pure_input_mean_zero lens); assumption).
  rewrite PurifyInternal_passes
    by (apply Qeq_bool_false_iff; intros H0; apply Hw; now symmetry).
  fold lens. cbv zeta. rewrite HS.
  destruct m as [aScores aImpurities icpt]. cbn [mScores mImpurities] in *.
  set (m1 := extract_intercept cTensorBins (sum_totals cTensorBins aWeights aScores)
               (mkMem aScores aImpurities icpt)).
  assert (Hm1imp : mImpurities m1 = aImpurities) by (subst m1; now destruct icpt).
  assert (Hm1len : Z.of_nat (length (mScores m1)) = cTensorBins).
  { subst m1. destruct icpt; cbn [extract_intercept mInterceptOut mScores]; auto.
    now rewrite subtract_intercept_length. }
  assert (Hm1sc : forall i, 0 <= i < cTensorBins ->
                    (load 0%Q (mScores m1) i == load 0%Q aScores i)%Q).
  { intros i Hi. subst m1. destruct icpt as [stores|].
    - rewrite extract_intercept_some. cbn [mScores].
      rewrite subtract_intercept_load_Q by lia. qarith. rewrite Hmean. ring.
    - reflexivity. }
  assert (Hm1int : (extracted_intercept
                      (mkMem aScores aImpurities (mInterceptOut m1)) == 0)%Q).
  { subst m1. destruct icpt as [stores|].
    - rewrite extract_intercept_some. cbn [extracted_intercept mInterceptOut].
      exact Hmean.
    - reflexivity. }
  destruct (@purify_pass_untouched lens cTensorBins aWeights
              (impurity_threshold cTensorBins tolerance aWeights aScores) aScores
              (length aImpurities) Hvalid HimpLen HM Hpure (mScores m1)
              (memset_zero cSurfaceBins (mImpurities m1)))
    as (st & Hpass & Hst).
  { unfold untouched. cbn [aScores_of aImpurities_of impurityCur bRetry].
    split; [assumption|]. split; [assumption|].
    split; [rewrite memset_zero_length; now rewrite Hm1imp|].
    split; [|split; reflexivity].
    intros k Hk. rewrite Hm1imp. rewrite memset_zero_load_Q by lia. reflexivity. }
  destruct Hst as (_ & Hsc & _ & Himp & _ & Hretry).
  fold cSurfaceBins in Hpass.
  rewrite (purify_loop_one_pass _ _ _ _ _ _ _ Hpass Hretry).
  eexists. split; [reflexivity|]. cbn [mScores mImpurities].
  split; [exact Hsc|]. split; [exact Himp|].
  unfold extracted_intercept in *. cbn [mInterceptOut] in *. exact Hm1int.
Qed.

Lemma pure_input_single_pass_witness :
  let w := [1; 1; 1; 1]%Q in
  let m := mkMem [1; -1; -1; 1]%Q [0; 0; 0; 0]%Q (Some []) in
  let lens := firstn (Z.to_nat 2) [2; 2] in
  exists r : memory,
    PurifyInternal 1 4 0%Q 2 [2; 2] w m = Done (Error_None, r) /\
    (forall i, 0 <= i < 4 -> (load 0%Q (mScores r) i == load 0%Q (mScores m) i)%Q) /\
    (forall k, 0 <= k < surface_bin_count lens 4 -> (load 0%Q (mImpurities r) k == 0)%Q) /\
    (extracted_intercept r == 0)%Q.
Proof.
  intros w m lens.
  apply (@pure_input_single_pass 4 0%Q 2 [2; 2] w m).
  - exact example_valid_shape.
  - discriminate.
  - reflexivity.
  - reflexivity.
  - vm_compute. discriminate.
  - apply Qle_refl.
  - intros i Hi.
    assert (Hcases : i = 0 \/ i = 1 \/ i = 2 \/ i = 3) by lia.
    destruct Hcases as [-> | [-> | [-> | ->]]]; vm_compute; discriminate.
  - vm_compute. discriminate.
  - intros k s Hk Hdec.
    assert (Hcases : k = 0 \/ k = 1 \/ k = 2 \/ k = 3)
      by (change (surface_bin_count (firstn (Z.to_nat 2) [2; 2]) 4) with 4 in Hk; lia).
    destruct Hcases as [-> | [-> | [-> | ->]]];
      vm_compute in Hdec; inversion Hdec; subst s; reflexivity.
Defined.

(** C7, as stated, fails: a vector whose weighted mean, 3/2, is within
    the threshold, 15, is purified all the same; the scores change and the
    mean is recorded as the impurity of the only surface bin. *)
Lemma within_tolerance_scores_change :
  let w := [1; 1]%Q in
  let aScores := [1; 2]%Q in
  (forall k s, 0 <= k < surface_bin_count [2] 2 -> decode [2] 2 k = Some s ->
     (Qabs (slice_mean w aScores (slice_cells s))
      <= impurity_threshold 2 10%Q w aScores)%Q) /\
  exists r : memory,
    PurifyInternal 1 2 10%Q 1 [2] w (mkMem aScores [0%Q] None) = Done (Error_None, r) /\
    (load 0%Q (mScores r) 0 == - (1 # 2))%Q /\
    ~ (load 0%Q (mScores r) 0 == load 0%Q aScores 0)%Q /\
    (load 0%Q (mImpurities r) 0 == 3 # 2)%Q.
Proof.
  intros w aScores. split.
  - intros k s Hk Hdec.
    assert (k = 0) by (change (surface_bin_count [2] 2) with 1 in Hk; lia). subst k.
    vm_compute in Hdec. inversion Hdec; subst s. vm_compute. discriminate.
  - eexists. split; [vm_compute; reflexivity|].
    split; [reflexivity|]. split; [vm_compute; discriminate|reflexivity].
Qed.

(** ** A tensor of one dimension *)

Lemma slice_weighted_sum_shift (w sc sc' : list Q) (cells : list Z) (c : Q) :
  (forall i, In i cells -> (load 0%Q sc' i == load 0%Q sc i - c)%Q) ->
  (slice_weighted_sum w sc' cells ==
   slice_weighted_sum w sc cells - c * slice_weight w cells)%Q.
Proof.
  unfold slice_weighted_sum, slice_weight.
  induction cells as [|i cells IH]; intros Hshift.
  - cbn. ring.
  - cbn [map]. rewrite !sumQ_cons.
    rewrite IH by (intros j Hj; apply Hshift; now right).
    rewrite (Hshift i) by now left. ring.
Qed.

Lemma Qle_bool_compat (a a' b : Q) : (a == a')%Q -> Qle_bool a b = Qle_bool a' b.
Proof.
  intros Ha. destruct (Qle_bool a' b) eqn:E.
  - apply Qle_bool_iff. apply Qle_bool_iff in E. now rewrite Ha.
  - apply not_true_is_false. intros H. apply Qle_bool_iff in H.
    rewrite Ha in H. apply Qle_bool_iff in H. congruence.
Qed.

(** Shifting the scores of a slice that has weight shifts its weighted
    mean by as much. *)
Lemma slice_mean_shift (w sc sc' : list Q) (cells : list Z) (c : Q) :
  ~ (slice_weight w cells == 0)%Q ->
  (forall i, In i cells -> (load 0%Q sc' i == load 0%Q sc i - c)%Q) ->
  (slice_mean w sc' cells == slice_mean w sc cells - c)%Q.
Proof.
  intros HW Hshift. unfold slice_mean.
  destruct (Qeq_bool (slice_weight w cells) 0) eqn:E.
  - apply Qeq_bool_iff in E. contradiction.
  - rewrite (@slice_weighted_sum_shift w sc sc' cells c Hshift). now field.
Qed.

Section OneDimension.
Variables (T : Z) (w : list Q) (M : Q) (aScores0 : list Q).
Hypothesis HT : 0 < T < size_modulus.
Hypothesis HW : ~ (weight_sum T w == 0)%Q.

Lemma one_dimension_valid : valid_shape [T] T.
Proof.
  split; [repeat constructor; lia|]. split; [|lia].
  unfold extent_product. cbn [fold_right]. lia.
Qed.

Lemma one_dimension_bins : surface_bin_count [T] T = 1.
Proof.
  unfold surface_bin_count. cbn [fold_right]. rewrite Z.div_same by lia. reflexivity.
Qed.

(** The only surface bin of a one-dimensional tensor is the tensor. *)
Lemma one_dimension_slice :
  exists s : slice,
    decode [T] T 0 = Some s /\ slice_in_tensor T s /\ slice_cells s = zrange T.
Proof.
  pose proof one_dimension_valid as Hvalid.
  assert (Hk : 0 <= 0 < surface_bin_count [T] T) by (rewrite one_dimension_bins; lia).
  destruct (decode_in_tensor Hvalid Hk) as (s & Hdec & Hs & _).
  destruct (@first_dimension_cells T [] T 0 Hvalid) as (s' & Hdec' & Hcells).
  { rewrite Z.div_same by lia. lia. }
  assert (s' = s) by congruence. subst s'.
  exists s. repeat split; try assumption; try apply Hs.
  rewrite Hcells. unfold zrange. apply map_ext. intros j. lia.
Qed.

Lemma one_dimension_pass (aScores aImpurities : list Q) :
  exists s : slice,
    decode [T] T 0 = Some s /\ slice_in_tensor T s /\ slice_cells s = zrange T /\
    purify_pass [T] T 1 w M aScores aImpurities
      = Some (purify_slice w M (mkPass aScores aImpurities 0%Q false) 0 (zrange T)).
Proof.
  destruct one_dimension_slice as (s & Hdec & Hs & Hcells).
  exists s. repeat split; try assumption; try apply Hs.
  unfold purify_pass. change (zrange 1) with [0].
  rewrite purify_bins_cons. unfold purify_bin. rewrite Hdec, Hcells. reflexivity.
Qed.

Lemma one_dimension_weight : (slice_weight w (zrange T) == weight_sum T w)%Q.
Proof. unfold slice_weight. now rewrite weight_sum_sumQ. Qed.

Lemma one_dimension_mean : (slice_mean w aScores0 (zrange T) == weighted_mean T w aScores0)%Q.
Proof.
  unfold slice_mean, weighted_mean. qarith.
  destruct (Qeq_bool (slice_weight w (zrange T)) 0) eqn:E.
  - apply Qeq_bool_iff in E. rewrite one_dimension_weight in E. contradiction.
  - unfold slice_weighted_sum.
    now rewrite <- weighted_score_sum_sumQ, one_dimension_weight.
Qed.

(** One pass over shifted scores measures the weighted mean less the
    shift, and leaves the scores shifted by the weighted mean. *)
Lemma one_dimension_pass_shifted (c : Q) (aScores aImpurities : list Q) :
  shifted T aScores0 c aScores ->
  exists st : pass_state,
    purify_pass [T] T 1 w M aScores aImpurities = Some st /\
    shifted T aScores0 (weighted_mean T w aScores0) (aScores_of st) /\
    (impurityCur st == Qabs (weighted_mean T w aScores0 - c))%Q /\
    bRetry st = negb (Qle_bool (Qabs (weighted_mean T w aScores0 - c)) M).
Proof.
  intros (Hlen & Hshift).
  destruct (one_dimension_pass aScores aImpurities) as (s & Hdec & Hs & Hcells & Hpass).
  eexists. split; [exact Hpass|].
  assert (Hm : (slice_impurity w aScores (zrange T) == weighted_mean T w aScores0 - c)%Q).
  { rewrite slice_impurity_mean, <- one_dimension_mean.
    apply slice_mean_shift.
    - rewrite one_dimension_weight. exact HW.
    - intros i Hi. apply Hshift. now apply zrange_In. }
  unfold purify_slice. cbn [aScores_of aImpurities_of impurityCur bRetry]. qarith.
  split; [split|split].
  - now rewrite slice_update_length.
  - intros i Hi.
    rewrite slice_update_load_Q;
      [|apply zrange_NoDup|intros j Hj; apply zrange_In in Hj; lia|lia].
    assert (Hex : existsb (Z.eqb i) (zrange T) = true).
    { apply existsb_exists. exists i. split; [now apply zrange_In|apply Z.eqb_refl]. }
    rewrite Hex, Hm, (Hshift i Hi). ring.
  - rewrite Hm. ring.
  - cbn [orb]. f_equal. apply Qle_bool_compat. now rewrite Hm.
Qed.
End OneDimension.

(** C8 (amended).  A tensor of a single dimension, in exact arithmetic,
    with a total weight other than zero: whenever [PurifyInternal]
    returns, after whatever number of passes, every score is the score
    passed in less the weighted mean of the scores, so the subtraction is
    complete after the first pass; and with a tolerance and weights that
    are not negative the call returns within two passes.  (With binary64
    the first pass leaves a rounding residue that later passes go on
    removing: see [binary64_vector_four_passes].) *)
Theorem one_dimension_mean_subtraction (cTensorBins : Z) (tolerance : Q)
    (aDimensionLengths : list Z) (aWeights : list Q) (m : memory) :
  firstn (Z.to_nat 1) aDimensionLengths = [cTensorBins] ->
  0 < cTensorBins < size_modulus ->
  Z.of_nat (length (mScores m)) = cTensorBins ->
  ~ (weight_sum cTensorBins aWeights == 0)%Q ->
  (forall fuel r,
     PurifyInternal fuel cTensorBins tolerance 1 aDimensionLengths aWeights m
       = Done (Error_None, r) ->
     forall i, 0 <= i < cTensorBins ->
       (load 0%Q (mScores r) i ==
        load 0%Q (mScores m) i - weighted_mean cTensorBins aWeights (mScores m))%Q) /\
  ((0 <= tolerance)%Q -> nonneg_weights cTensorBins aWeights ->
   exists r,
     PurifyInternal 2 cTensorBins tolerance 1 aDimensionLengths aWeights m
       = Done (Error_None, r)).
Proof.
  intros Hlens HT Hlen Hw.
  destruct m as [aScores aImpurities icpt]. cbn [mScores] in *.
  pose proof (one_dimension_valid HT) as Hvalid.
  assert (HS : count_surface_bins [cTensorBins] cTensorBins = 1).
  { rewrite count_surface_bins_exact by
      (try assumption; rewrite one_dimension_bins by lia; reflexivity).
    apply one_dimension_bins. lia. }
  set (M := impurity_threshold cTensorBins tolerance aWeights aScores).
  set (mu := weighted_mean cTensorBins aWeights aScores).
  set (m1 := extract_intercept cTensorBins (sum_totals cTensorBins aWeights aScores)
               (mkMem aScores aImpurities icpt)).
  assert (Hm1 : exists c, shifted cTensorBins aScores c (mScores m1)).
  { subst m1. destruct icpt as [stores|].
    - exists mu. rewrite extract_intercept_some. cbn [mScores]. split.
      + now rewrite subtract_intercept_length.
      + intros i Hi. rewrite subtract_intercept_load_Q by lia. qarith.
        fold mu. ring.
    - exists 0%Q. cbn [extract_intercept mInterceptOut mScores]. split; [assumption|].
      intros i Hi. ring. }
  assert (Hunfold : forall fuel,
    PurifyInternal fuel cTensorBins tolerance 1 aDimensionLengths aWeights
                   (mkMem aScores aImpurities icpt) =
      match purify_loop fuel [cTensorBins] cTensorBins 1 aWeights M None (mScores m1)
              (memset_zero 1 (mImpurities m1)) with
      | Done (aScores', aImpurities') =>
          Done (Error_None, mkMem aScores' aImpurities' (mInterceptOut m1))
      | Fault => Fault
      | OutOfFuel => OutOfFuel
      end).
  { intros fuel. rewrite PurifyInternal_passes
      by (apply Qeq_bool_false_iff; intros H0; apply Hw; now symmetry).
    cbv zeta. rewrite Hlens, HS. reflexivity. }
  split.
  - intros fuel r Hrun i Hi. rewrite Hunfold in Hrun.
    destruct (purify_loop fuel [cTensorBins] cTensorBins 1 aWeights M None (mScores m1)
                (memset_zero 1 (mImpurities m1))) as [[sc' im']| |] eqn:Hloop;
      try discriminate.
    inversion Hrun; subst r; clear Hrun. cbn [mScores].
    destruct (@purify_loop_last_pass Q Q_arith [cTensorBins] cTensorBins 1 aWeights M
                (fun sc _ => exists c, shifted cTensorBins aScores c sc))
      with (fuel := fuel) (prev := @None Q) (sc := mScores m1)
           (im := memset_zero 1 (mImpurities m1)) (sc' := sc') (im' := im')
      as (prev & scIn & imIn & st & (c & HscIn) & Hpass & Hsc & _); auto.
    + intros sc im st (c & Hsh) Hpass.
      destruct (@one_dimension_pass_shifted cTensorBins aWeights M aScores HT Hw c sc im Hsh)
        as (st' & Hpass' & Hst' & _).
      assert (st' = st) by congruence. subst st'. now exists mu.
    + destruct (@one_dimension_pass_shifted cTensorBins aWeights M aScores HT Hw c scIn imIn
                  HscIn) as (st' & Hpass' & (_ & Hst') & _).
      assert (st' = st) by congruence. subst st' sc'. now apply Hst'.
  - intros Htol Hnn.
    assert (HM : (0 <= M)%Q) by now apply impurity_threshold_nonneg.
    rewrite Hunfold. destruct Hm1 as (c & Hsh).
    destruct (@one_dimension_pass_shifted cTensorBins aWeights M aScores HT Hw c (mScores m1)
                (memset_zero 1 (mImpurities m1)) Hsh) as (st1 & Hpass1 & Hst1 & _ & _).
    destruct (@one_dimension_pass_shifted cTensorBins aWeights M aScores HT Hw mu
                (aScores_of st1) (aImpurities_of st1) Hst1)
      as (st2 & Hpass2 & _ & _ & Hretry2).
    assert (Hstop : bRetry st2 = false).
    { rewrite Hretry2. apply negb_false_iff. apply Qle_bool_iff.
      setoid_replace (weighted_mean cTensorBins aWeights aScores - mu)%Q with 0%Q
        by (subst mu; ring).
      exact HM. }
    cbn [purify_loop]. rewrite Hpass1. cbn [not_improved]. qarith.
    destruct (bRetry st1).
    + rewrite Hpass2, Hstop.
      destruct (Qle_bool (impurityCur st1) (impurityCur st2)); eexists; reflexivity.
    + eexists; reflexivity.
Qed.

Lemma one_dimension_mean_subtraction_witness :
  let w := [1; 3]%Q in
  let m := mkMem [1; 2]%Q [0%Q] None in
  firstn (Z.to_nat 1) [2] = [2] /\
  0 < 2 < size_modulus /\
  Z.of_nat (length (mScores m)) = 2 /\
  ~ (weight_sum 2 w == 0)%Q /\
  exists r,
    PurifyInternal 2 2 0%Q 1 [2] w m = Done (Error_None, r) /\
    forall i, 0 <= i < 2 ->
      (load 0%Q (mScores r) i == load 0%Q (mScores m) i - weighted_mean 2 w (mScores m))%Q.
Proof.
  intros w m.
  assert (Hl : firstn (Z.to_nat 1) [2] = [2]) by reflexivity.
  assert (HT : 0 < 2 < size_modulus) by (split; reflexivity).
  assert (Hlen : Z.of_nat (length (mScores m)) = 2) by reflexivity.
  assert (Hw : ~ (weight_sum 2 w == 0)%Q) by (vm_compute; discriminate).
  repeat (split; [assumption|]).
  destruct (@one_dimension_mean_subtraction 2 0%Q [2] w m Hl HT Hlen Hw) as (Hval & Hret).
  destruct Hret as (r & Hrun).
  - apply Qle_refl.
  - intros i Hi. assert (Hcases : i = 0 \/ i = 1) by lia.
    destruct Hcases as [-> | ->]; vm_compute; discriminate.
  - exists r. split; [exact Hrun|]. exact (Hval 2%nat r Hrun).
Defined.

(** C8, as stated, fails for extents 1 x 2: the two single-cell slices of
    the first dimension take each score whole, one pass does not end the
    call, and the scores returned are zero, not the scores less their
    weighted mean 3/2. *)
Lemma unit_extent_takes_whole_score :
  let w := [1; 1]%Q in
  let m := mkMem [1; 2]%Q [0; 0; 0]%Q None in
  valid_shape [1; 2] 2 /\
  PurifyInternal 1 2 0%Q 2 [1; 2] w m = OutOfFuel /\
  exists r,
    PurifyInternal 2 2 0%Q 2 [1; 2] w m = Done (Error_None, r) /\
    (load 0%Q (mScores r) 0 == 0)%Q /\
    (load 0%Q (mScores m) 0 - weighted_mean 2 w (mScores m) == - (1 # 2))%Q /\
    ~ (load 0%Q (mScores r) 0 ==
       load 0%Q (mScores m) 0 - weighted_mean 2 w (mScores m))%Q.
Proof.
  intros w m.
  split; [split; [repeat constructor|split; reflexivity]|].
  split; [vm_compute; reflexivity|].
  eexists. split; [vm_compute; reflexivity|].
  split; [reflexivity|]. split; [reflexivity|]. vm_compute. discriminate.
Qed.

(** ** Binary64: a run that does not end *)

Section Divergence.
Context {F : Type} {AF : Arith F}.
Variables (lens : list Z) (T S : Z) (w : list F) (M : F).

(** While the passes do not leave the loop, the loop goes on. *)
Lemma purify_loop_passes (n : nat) :
  forall (prev : option F) (sc im : list F) (prev' : option F) (sc' im' : list F),
    passes n lens T S w M prev sc im = Some (prev', sc', im') ->
    forall fuel,
      purify_loop (n + fuel) lens T S w M prev sc im
        = purify_loop fuel lens T S w M prev' sc' im'.
Proof.
  induction n as [|n IH]; intros prev sc im prev' sc' im' Hpasses fuel.
  - inversion Hpasses; subst. reflexivity.
  - cbn [passes] in Hpasses. cbn [Nat.add purify_loop].
    destruct (purify_pass lens T S w M sc im) as [st|]; [|discriminate].
    destruct (not_improved prev (impurityCur st)); [discriminate|].
    destruct (bRetry st); [|discriminate].
    now apply IH.
Qed.

Lemma purify_loop_short (n : nat) :
  forall (prev : option F) (sc im : list F) (res : option F * list F * list F),
    passes n lens T S w M prev sc im = Some res ->
    forall fuel, (fuel <= n)%nat ->
      purify_loop fuel lens T S w M prev sc im = OutOfFuel.
Proof.
  induction n as [|n IH]; intros prev sc im res Hpasses fuel Hfuel.
  - assert (fuel = 0%nat) by lia. subst fuel. reflexivity.
  - destruct fuel as [|fuel]; [reflexivity|].
    cbn [passes] in Hpasses. cbn [purify_loop].
    destruct (purify_pass lens T S w M sc im) as [st|]; [|discriminate].
    destruct (not_improved prev (impurityCur st)); [discriminate|].
    destruct (bRetry st); [|discriminate].
    eapply IH; [exact Hpasses|lia].
Qed.

(** The scores, [impurityCur] and [bRetry] of a pass do not depend on the
    content of the impurities buffer. *)
Lemma purify_bins_same_control (bins : list Z) :
  forall a b : pass_state,
    same_control a b ->
    match purify_bins lens T w M bins a, purify_bins lens T w M bins b with
    | Some a', Some b' => same_control a' b'
    | None, None => True
    | _, _ => False
    end.
Proof.
  induction bins as [|k bins IH]; intros a b Hab; [exact Hab|].
  rewrite !purify_bins_cons. unfold purify_bin.
  destruct (decode lens T k) as [s|]; [|exact I].
  apply IH. destruct Hab as (Hsc & Hcur & Hretry).
  unfold same_control, purify_slice. cbn [aScores_of impurityCur bRetry].
  rewrite Hsc, Hcur, Hretry. auto.
Qed.

Lemma purify_pass_same_control (sc im im' : list F) (st : pass_state) :
  purify_pass lens T S w M sc im = Some st ->
  exists st', purify_pass lens T S w M sc im' = Some st' /\ same_control st st'.
Proof.
  intros Hpass. unfold purify_pass in *.
  pose proof (@purify_bins_same_control (zrange S)
                (mkPass sc im f0 false) (mkPass sc im' f0 false)) as H.
  rewrite Hpass in H.
  destruct (purify_bins lens T w M (zrange S) (mkPass sc im' f0 false)) as [st'|].
  - exists st'. split; [reflexivity|]. apply H. repeat split.
  - exfalso. apply H. repeat split.
Qed.

(** Scores that a pass returns as they are, with [bRetry] set and a total
    [impurityCur] that does not compare with itself, keep the loop
    running: no number of passes ends it. *)
Lemma purify_loop_stuck (sc im0 : list F) (cur : F) (st0 : pass_state) :
  purify_pass lens T S w M sc im0 = Some st0 ->
  aScores_of st0 = sc -> impurityCur st0 = cur -> bRetry st0 = true ->
  fleb cur cur = false ->
  forall fuel im, purify_loop fuel lens T S w M (Some cur) sc im = OutOfFuel.
Proof.
  intros Hpass Hsc Hcur Hretry Hnan.
  induction fuel as [|fuel IH]; intros im; [reflexivity|].
  cbn [purify_loop].
  destruct (@purify_pass_same_control sc im0 im st0 Hpass) as (st & Hst & Hsame).
  destruct Hsame as (Hsc' & Hcur' & Hretry').
  rewrite Hst. cbn [not_improved].
  rewrite <- Hcur', Hcur, Hnan, <- Hretry', Hretry, <- Hsc', Hsc.
  apply IH.
Qed.
End Divergence.

(** In the example the first pass overflows: a score becomes infinite,
    the next slice through it yields a NaN, and the total of the pass is
    NaN.  From then on [impurityPrev <= impurityCur] is false in every
    pass.  After two passes the scores of the first block are returned
    by every further pass as they are, with impurities of about 2e-17 in
    four of its slices, so that [bRetry] stays set. *)

Lemma ieee_two_passes :
  exists im : list float,
    passes 2 [4; 3; 3] 36 33 ieee_weights
           (impurity_threshold 36 0%float ieee_weights ieee_scores)
           None ieee_scores (repeat 0%float 33)
      = Some (Some nan, ieee_stuck_scores, im).
Proof. eexists. vm_compute. reflexivity. Qed.

Lemma ieee_fixed_point :
  exists st : pass_state,
    purify_pass [4; 3; 3] 36 33 ieee_weights
                (impurity_threshold 36 0%float ieee_weights ieee_scores)
                ieee_stuck_scores [] = Some st /\
    aScores_of st = ieee_stuck_scores /\
    impurityCur st = nan /\
    bRetry st = true.
Proof. eexists. split; [vm_compute; reflexivity|]. repeat split. Qed.

Lemma ieee_loop_never_ends (fuel : nat) :
  purify_loop fuel [4; 3; 3] 36 33 ieee_weights
              (impurity_threshold 36 0%float ieee_weights ieee_scores)
              None ieee_scores (repeat 0%float 33) = OutOfFuel.
Proof.
  destruct ieee_two_passes as (im & Hpasses).
  destruct (le_lt_dec fuel 2) as [Hle|Hgt].
  - eapply purify_loop_short; [exact Hpasses|exact Hle].
  - replace fuel with (2 + (fuel - 2))%nat by lia.
    erewrite purify_loop_passes by exact Hpasses.
    destruct ieee_fixed_point as (st & Hpass & Hsc & Hcur & Hretry).
    eapply purify_loop_stuck; eauto.
Qed.

Ltac ieee_unfold_call :=
  rewrite PurifyInternal_passes by reflexivity;
  cbv zeta;
  change (firstn (Z.to_nat 3) [4; 3; 3]) with [4; 3; 3];
  change (count_surface_bins [4; 3; 3] 36) with 33;
  change (extract_intercept 36 (sum_totals 36 ieee_weights (mScores ieee_memory))
            ieee_memory) with ieee_memory;
  change (mScores ieee_memory) with ieee_scores;
  change (memset_zero 33 (mImpurities ieee_memory)) with (repeat 0%float 33).

(** C3.  In binary64 the run on the example does not end: whatever the
    number of passes granted, [PurifyInternal] has not returned. *)
Theorem binary64_run_never_returns (fuel : nat) :
  PurifyInternal fuel 36 0%float 3 [4; 3; 3] ieee_weights ieee_memory = OutOfFuel.
Proof.
  ieee_unfold_call.
  rewrite ieee_loop_never_ends.
  reflexivity.
Qed.

(** ** The surface bins that contain a cell *)

(** A cell of a slice determines the cross-section index of the slice. *)
Lemma cell_cross_section (P n r i j : Z) :
  0 < P -> 0 < n -> 0 <= r -> 0 <= j < n ->
  i = r mod P + P * n * (r / P) + P * j ->
  r = i mod P + P * (i / (P * n)).
Proof.
  intros HP Hn Hr Hj Hi.
  pose proof (Z.mod_pos_bound r P HP) as HrP.
  assert (Hdiv : i / P = n * (r / P) + j).
  { symmetry. apply Z.div_unique with (r mod P); [left; lia|]. rewrite Hi. ring. }
  assert (Hmod : i mod P = r mod P).
  { symmetry. apply Z.mod_unique with (n * (r / P) + j); [left; lia|]. rewrite Hi. ring. }
  assert (Hq : i / (P * n) = r / P).
  { rewrite <- Z.div_div by lia. rewrite Hdiv.
    symmetry. apply Z.div_unique with j; [left; lia|]. ring. }
  rewrite Hmod, Hq. rewrite (Z.div_mod r P) at 1 by lia. ring.
Qed.

Lemma app_same_length (A : Type) (p p' : list A) (x x' : A) (q q' : list A) :
  p ++ x :: q = p' ++ x' :: q' -> length p = length p' ->
  p = p' /\ x = x' /\ q = q'.
Proof.
  revert p'. induction p as [|a p IH]; intros [|a' p'] Heq Hlen;
    cbn in *; try discriminate.
  - inversion Heq. auto.
  - inversion Heq; subst.
    destruct (IH p') as (-> & -> & ->); auto.
Qed.

Lemma app_longer_prefix (A : Type) (p p' : list A) (x x' : A) (q q' : list A) :
  p ++ x :: q = p' ++ x' :: q' -> (length p' < length p)%nat ->
  exists t, p = p' ++ x' :: t.
Proof.
  revert p'. induction p as [|a p IH]; intros [|a' p'] Heq Hlen;
    cbn in *; try lia.
  - inversion Heq; subst. now exists p.
  - inversion Heq; subst.
    destruct (IH p') as (t & ->); auto; [lia|]. now exists t.
Qed.

Section BinsOfCell.
Variables (lens : list Z) (T : Z).
Hypothesis Hvalid : valid_shape lens T.

(** Two surface bins that sweep the same dimension share no cell. *)
Lemma same_dimension_disjoint (k k' i : Z) (s s' : slice) :
  0 <= k < surface_bin_count lens T ->
  0 <= k' < surface_bin_count lens T ->
  decode lens T k = Some s -> decode lens T k' = Some s' ->
  iSweepDimension s = iSweepDimension s' ->
  In i (slice_cells s) -> In i (slice_cells s') ->
  k = k'.
Proof.
  intros Hk Hk' Hdec Hdec' Hdim Hi Hi'.
  destruct (decode_spec Hvalid Hk) as (p & n & q & Heq & Hr & Hd).
  destruct (decode_spec Hvalid Hk') as (p' & n' & q' & Heq' & Hr' & Hd').
  destruct (decode_in_tensor Hvalid Hk) as (s1 & Hd1 & Hs & _).
  destruct (decode_in_tensor Hvalid Hk') as (s1' & Hd1' & Hs' & _).
  assert (s1 = s) by congruence. assert (s1' = s') by congruence. subst s1 s1'.
  rewrite (slice_cells_spec Hs) in Hi. rewrite (slice_cells_spec Hs') in Hi'.
  rewrite Hd in Hdec. rewrite Hd' in Hdec'.
  inversion Hdec as [Es]. inversion Hdec' as [Es']. clear Hdec Hdec'.
  rewrite <- Es in Hdim, Hi, Hs. rewrite <- Es' in Hdim, Hi', Hs'.
  cbn [iSweepDimension iTensor cTensorIncrement cSweepBins] in *.
  rewrite Heq in Heq'.
  destruct (app_same_length _ _ _ _ _ _ Heq' Hdim) as (<- & <- & <-).
  destruct (@valid_shape_split p n q T) as (_ & Hn & _ & HP & _);
    [now rewrite <- Heq|].
  apply in_map_iff in Hi. destruct Hi as (j & Hij & Hj). apply in_seq in Hj.
  apply in_map_iff in Hi'. destruct Hi' as (j' & Hij' & Hj'). apply in_seq in Hj'.
  assert (E1 : k - surface_bin_count p T
               = i mod extent_product p + extent_product p * (i / (extent_product p * n))).
  { apply cell_cross_section with (j := Z.of_nat j); try lia. }
  assert (E2 : k' - surface_bin_count p T
               = i mod extent_product p + extent_product p * (i / (extent_product p * n))).
  { apply cell_cross_section with (j := Z.of_nat j'); try lia. }
  lia.
Qed.

(** The surface bins are numbered dimension by dimension. *)
Lemma dimension_monotone (k k' : Z) (s s' : slice) :
  0 <= k < surface_bin_count lens T ->
  0 <= k' < surface_bin_count lens T ->
  decode lens T k = Some s -> decode lens T k' = Some s' ->
  k <= k' ->
  (iSweepDimension s <= iSweepDimension s')%nat.
Proof.
  intros Hk Hk' Hdec Hdec' Hle.
  destruct (decode_spec Hvalid Hk) as (p & n & q & Heq & Hr & Hd).
  destruct (decode_spec Hvalid Hk') as (p' & n' & q' & Heq' & Hr' & Hd').
  rewrite Hd in Hdec. rewrite Hd' in Hdec'.
  inversion Hdec as [Es]. inversion Hdec' as [Es']. clear Hdec Hdec'.
  cbn [iSweepDimension].
  destruct (le_lt_dec (length p) (length p')) as [Hok|Hlt]; [assumption|exfalso].
  rewrite Heq in Heq'.
  destruct (app_longer_prefix _ _ _ _ _ _ Heq' Hlt) as (t & Hp).
  destruct (@valid_shape_split p' n' q' T) as (Hp' & _ & _ & _ & _ & _ & HTn & _);
    [now rewrite <- Heq', <- Heq|].
  assert (Ht : 0 <= surface_bin_count t T).
  { destruct Hvalid as (Hpos & Hprod & _).
    rewrite Heq, Hp in Hpos.
    apply Forall_app in Hpos. destruct Hpos as [Hpos _].
    apply Forall_app in Hpos. destruct Hpos as [_ Hpos].
    inversion Hpos; subst.
    apply surface_bin_count_nonneg; [|assumption].
    pose proof (extent_product_pos (proj1 Hvalid)). lia. }
  rewrite Hp, surface_bin_count_app, surface_bin_count_cons in Hr.
  lia.
Qed.

Lemma dimension_in_shape (k : Z) (s : slice) :
  0 <= k < surface_bin_count lens T ->
  decode lens T k = Some s ->
  (iSweepDimension s < length lens)%nat.
Proof.
  intros Hk Hdec.
  destruct (decode_spec Hvalid Hk) as (p & n & q & Heq & Hr & Hd).
  rewrite Hd in Hdec. inversion Hdec. cbn [iSweepDimension].
  rewrite Heq, length_app. cbn [length]. lia.
Qed.
End BinsOfCell.

(** ** Exact arithmetic: what later slices do to a slice *)

Lemma zrange_split_sorted (n k : Z) :
  0 <= k < n ->
  exists suf : list Z,
    zrange n = zrange k ++ k :: suf /\
    StronglySorted Z.lt suf /\
    (forall j, In j suf -> k < j < n).
Proof.
  intros Hk.
  exists (map (fun j => k + 1 + Z.of_nat j) (seq 0 (Z.to_nat (n - (k + 1))))).
  split; [|split].
  - replace n with ((k + 1) + (n - (k + 1))) at 1 by lia.
    rewrite zrange_add, zrange_succ by lia. now rewrite <- app_assoc.
  - generalize (Z.to_nat (n - (k + 1))) as len. intros len.
    generalize 0%nat as b.
    induction len as [|len IH]; intros b; cbn [seq map]; constructor.
    + apply IH.
    + apply Forall_forall. intros x Hx. apply in_map_iff in Hx.
      destruct Hx as (j & <- & Hj). apply in_seq in Hj. lia.
  - intros j Hj. apply in_map_iff in Hj. destruct Hj as (a & <- & Ha).
    apply in_seq in Ha. lia.
Qed.

Lemma later_dimensions_nonneg (lens : list Z) (d : nat) : (0 <= later_dimensions lens d)%Q.
Proof.
  unfold later_dimensions. change 0%Q with (inject_Z 0).
  rewrite <- Zle_Qle. lia.
Qed.

Lemma later_dimensions_step (lens : list Z) (d d' : nat) :
  (d < d')%nat -> (d' < length lens)%nat ->
  (1 + later_dimensions lens d' <= later_dimensions lens d)%Q.
Proof.
  intros Hd Hd'. unfold later_dimensions.
  change 1%Q with (inject_Z 1). rewrite <- inject_Z_plus, <- Zle_Qle. lia.
Qed.

Section LaterSlices.
Variables (lens : list Z) (T : Z).
Hypothesis Hvalid : valid_shape lens T.

Lemma covers_decode (k i : Z) :
  covers lens T k i = true ->
  exists s, decode lens T k = Some s /\ In i (slice_cells s).
Proof.
  unfold covers. destruct (decode lens T k) as [s|]; [|discriminate].
  intros Hex. exists s. split; [reflexivity|].
  apply existsb_exists in Hex. destruct Hex as (x & Hx & Hxi).
  apply Z.eqb_eq in Hxi. now subst x.
Qed.

(** Among surface bins in increasing order, those that contain a given
    cell sweep different dimensions, so what they remove from the cell is
    at most [M] for each dimension after [d0]. *)
Lemma covered_sum_bound (x : Z -> Q) (M : Q) (i : Z) (bins : list Z) :
  (0 <= M)%Q ->
  StronglySorted Z.lt bins ->
  (forall k, In k bins -> 0 <= k < surface_bin_count lens T) ->
  (forall k, In k bins -> (Qabs (x k) <= M)%Q) ->
  forall d0 : nat,
    (d0 < length lens)%nat ->
    (forall k s, In k bins -> decode lens T k = Some s -> In i (slice_cells s) ->
       (d0 < iSweepDimension s)%nat) ->
    (Qabs (covered_sum lens T x bins i) <= later_dimensions lens d0 * M)%Q.
Proof.
  intros HM Hsorted. unfold covered_sum.
  induction Hsorted as [|k bins Hsorted IH Hlt]; intros Hrange Hx d0 Hd0 Hdims.
  - cbn. pose proof (later_dimensions_nonneg lens d0).
    change (Qabs 0) with 0%Q. now apply Qmult_le_0_compat.
  - cbn [map]. rewrite sumQ_cons.
    destruct (covers lens T k i) eqn:Hc.
    + destruct (covers_decode _ _ Hc) as (s & Hdec & Hi).
      assert (Hd1 : (d0 < iSweepDimension s)%nat)
        by (eapply Hdims; eauto; now left).
      assert (Hd1' : (iSweepDimension s < length lens)%nat).
      { eapply dimension_in_shape; eauto. apply Hrange. now left. }
      assert (Hrest : (Qabs (sumQ (map (fun k0 => if covers lens T k0 i then x k0 else 0)
                                       bins))
                       <= later_dimensions lens (iSweepDimension s) * M)%Q).
      { apply IH; auto.
        - intros k' Hk'. apply Hrange. now right.
        - intros k' Hk'. apply Hx. now right.
        - intros k' s' Hk' Hdec' Hi'.
          rewrite Forall_forall in Hlt. specialize (Hlt k' Hk').
          assert (Hmono : (iSweepDimension s <= iSweepDimension s')%nat).
          { eapply (dimension_monotone Hvalid) with (k := k) (k' := k'); eauto.
            - apply Hrange. now left.
            - apply Hrange. now right.
            - lia. }
          destruct (Nat.eq_dec (iSweepDimension s) (iSweepDimension s')) as [Heq|Hne];
            [|lia].
          exfalso.
          assert (k = k').
          { eapply (same_dimension_disjoint Hvalid) with (s := s) (s' := s'); eauto.
            - apply Hrange. now left.
            - apply Hrange. now right. }
          lia. }
      pose proof (later_dimensions_step lens Hd1 Hd1') as Hstep.
      pose proof (Hx k (or_introl eq_refl)) as Hxk.
      eapply Qle_trans; [apply Qabs_triangle|].
      eapply Qle_trans; [apply Qplus_le_compat; [exact Hxk|exact Hrest]|].
      setoid_replace (M + later_dimensions lens (iSweepDimension s) * M)%Q
        with ((1 + later_dimensions lens (iSweepDimension s)) * M)%Q by ring.
      apply Qmult_le_compat_r; assumption.
    + rewrite Qplus_0_l. apply IH; auto.
      * intros k' Hk'. apply Hrange. now right.
      * intros k' Hk'. apply Hx. now right.
      * intros k' s' Hk'. apply Hdims. now right.
Qed.
End LaterSlices.

Lemma covered_sum_app (lens : list Z) (T : Z) (x : Z -> Q) (l1 l2 : list Z) (i : Z) :
  (covered_sum lens T x (l1 ++ l2) i ==
   covered_sum lens T x l1 i + covered_sum lens T x l2 i)%Q.
Proof. unfold covered_sum. now rewrite map_app, sumQ_app. Qed.

Lemma covered_sum_zero (lens : list Z) (T : Z) (x : Z -> Q) (l : list Z) (i : Z) :
  (forall k, In k l -> (x k == 0)%Q) ->
  (covered_sum lens T x l i == 0)%Q.
Proof.
  intros Hzero. unfold covered_sum.
  rewrite (@sumQ_map_ext (fun _ => 0%Q)).
  - induction l as [|a l IH]; [reflexivity|].
    cbn [map]. rewrite sumQ_cons, IH; [ring|].
    intros k Hk. apply Hzero. now right.
  - intros k Hk. destruct (covers lens T k i); [now apply Hzero|reflexivity].
Qed.

Lemma covered_sum_minus (lens : list Z) (T : Z) (f g : Z -> Q) (l : list Z) (i : Z) :
  (covered_sum lens T f l i - covered_sum lens T g l i ==
   covered_sum lens T (fun k => f k - g k) l i)%Q.
Proof.
  unfold covered_sum. induction l as [|a l IH]; cbn [map].
  - cbn. ring.
  - rewrite !sumQ_cons, <- IH. destruct (covers lens T a i); ring.
Qed.

Lemma removed_from_cell_covered (lens : list Z) (T : Z) (aImpurities : list Q) (i : Z) :
  removed_from_cell lens T aImpurities i =
    covered_sum lens T (fun k => load 0%Q aImpurities k)
                (zrange (surface_bin_count lens T)) i.
Proof. reflexivity. Qed.

(** Two score buffers that differ by at most [B] in every cell of a slice
    have weighted sums along the slice that differ by at most [B] times the
    weight of the slice, when no weight is negative. *)
Lemma slice_weighted_sum_close (w a b : list Q) (cells : list Z) (B : Q) :
  (forall i, In i cells -> (0 <= load 0%Q w i)%Q) ->
  (forall i, In i cells -> (Qabs (load 0%Q a i - load 0%Q b i) <= B)%Q) ->
  (Qabs (slice_weighted_sum w a cells - slice_weighted_sum w b cells)
   <= B * slice_weight w cells)%Q.
Proof.
  unfold slice_weighted_sum, slice_weight.
  induction cells as [|i cells IH]; intros Hw Hab.
  - cbn [map]. change (sumQ []) with 0%Q.
    setoid_replace (0 - 0)%Q with 0%Q by ring.
    change (Qabs 0) with 0%Q. rewrite Qmult_0_r. apply Qle_refl.
  - cbn [map]. rewrite !sumQ_cons.
    specialize (IH (fun j Hj => Hw j (or_intror Hj)) (fun j Hj => Hab j (or_intror Hj))).
    pose proof (Hw i (or_introl eq_refl)) as Hwi.
    pose proof (Hab i (or_introl eq_refl)) as Habi.
    set (sa := sumQ (map (fun i0 => (load 0 a i0 * load 0 w i0)%Q) cells)) in *.
    set (sb := sumQ (map (fun i0 => (load 0 b i0 * load 0 w i0)%Q) cells)) in *.
    set (sw := sumQ (map (fun i0 => load 0%Q w i0) cells)) in *.
    setoid_replace (load 0 a i * load 0 w i + sa - (load 0 b i * load 0 w i + sb))%Q
      with ((load 0 a i - load 0 b i) * load 0 w i + (sa - sb))%Q by ring.
    eapply Qle_trans; [apply Qabs_triangle|].
    rewrite Qabs_Qmult, (Qabs_pos (load 0%Q w i)) by assumption.
    setoid_replace (B * (load 0 w i + sw))%Q with (B * load 0 w i + B * sw)%Q by ring.
    apply Qplus_le_compat; [|exact IH].
    apply Qmult_le_compat_r; assumption.
Qed.

Section SlicePurified.
Variables (lens : list Z) (T : Z) (w : list Q) (M : Q) (L : nat).
Hypothesis Hvalid : valid_shape lens T.
Hypothesis HL : surface_bin_count lens T <= Z.of_nat L.

Lemma purify_bins_conserved (base : Z -> Q) (bins : list Z) (st : pass_state) :
  (forall k, In k bins -> 0 <= k < surface_bin_count lens T) ->
  conserved lens T base L (aScores_of st) (aImpurities_of st) ->
  exists st',
    purify_bins lens T w M bins st = Some st' /\
    conserved lens T base L (aScores_of st') (aImpurities_of st').
Proof.
  intros Hbins Hcons.
  apply (@purify_bins_invariant Q Q_arith
           (fun st => conserved lens T base L (aScores_of st) (aImpurities_of st)));
    auto.
  intros st0 k s Hk Hdec Hs HP. apply purify_slice_conserved; auto.
Qed.

(** Over a run of distinct surface bins that ends with [bRetry] unset,
    the impurity of each bin of the run has moved by at most [M], and no
    other has moved. *)
Lemma purify_bins_delta (bins : list Z) :
  NoDup bins ->
  (forall k, In k bins -> 0 <= k < surface_bin_count lens T) ->
  forall st st',
    length (aImpurities_of st) = L ->
    purify_bins lens T w M bins st = Some st' ->
    bRetry st' = false ->
    forall k, 0 <= k ->
      (In k bins ->
       (Qabs (load 0%Q (aImpurities_of st') k - load 0%Q (aImpurities_of st) k) <= M)%Q) /\
      (~ In k bins ->
       load 0%Q (aImpurities_of st') k = load 0%Q (aImpurities_of st) k).
Proof.
  intros Hnd. induction Hnd as [|k1 bins Hnotin Hnd IH];
    intros Hrange st st' Hlen Hrun Hretry k Hk.
  - inversion Hrun; subst. split; [intros []|reflexivity].
  - rewrite purify_bins_cons in Hrun.
    destruct (@purify_bin_valid Q Q_arith lens T w M st k1 Hvalid) as (s & Hdec & Hs & Hbin);
      [apply Hrange; now left|].
    rewrite Hbin in Hrun.
    set (st1 := purify_slice w M st k1 (slice_cells s)) in *.
    assert (Hlen1 : length (aImpurities_of st1) = L)
      by (unfold st1, purify_slice; cbn [aImpurities_of]; now rewrite store_length).
    assert (Hretry1 : bRetry st1 = false).
    { destruct (bRetry st1) eqn:E; [|reflexivity].
      assert (bRetry st' = true)
        by (eapply purify_bins_retry_mono; [exact Hrun|exact E]).
      congruence. }
    assert (Hm : (Qabs (slice_impurity w (aScores_of st) (slice_cells s)) <= M)%Q).
    { unfold st1 in Hretry1. rewrite purify_slice_retry in Hretry1.
      apply orb_false_iff in Hretry1. destruct Hretry1 as (_ & Hlt).
      now apply fltb_false_Qle in Hlt. }
    assert (Hk1 : 0 <= k1 < Z.of_nat (length (aImpurities_of st))).
    { specialize (Hrange k1 (or_introl eq_refl)). lia. }
    destruct (IH (fun j Hj => Hrange j (or_intror Hj)) st1 st' Hlen1 Hrun Hretry k Hk)
      as (Hin & Hout).
    assert (Hsame : k1 <> k -> load 0%Q (aImpurities_of st1) k = load 0%Q (aImpurities_of st) k).
    { intros Hne. unfold st1, purify_slice. cbn [aImpurities_of].
      now rewrite load_store_other. }
    split.
    + intros [<- | Hkin].
      * rewrite (Hout Hnotin). unfold st1, purify_slice. cbn [aImpurities_of].
        rewrite load_store_same by assumption. qarith.
        setoid_replace (load 0 (aImpurities_of st) k1
                        + slice_impurity w (aScores_of st) (slice_cells s)
                        - load 0 (aImpurities_of st) k1)%Q
          with (slice_impurity w (aScores_of st) (slice_cells s)) by ring.
        exact Hm.
      * rewrite <- Hsame; [now apply Hin|]. intros ->. contradiction.
    + intros Hnot. rewrite Hout by (intros H; apply Hnot; now right).
      apply Hsame. intros ->. apply Hnot. now left.
Qed.

(** Right after a slice that has weight was purified, its weighted sum is
    zero. *)
Lemma purify_slice_sum_zero (st : pass_state) (k : Z) (s : slice) :
  slice_in_tensor T s ->
  Z.of_nat (length (aScores_of st)) = T ->
  ~ (slice_weight w (slice_cells s) == 0)%Q ->
  (slice_weighted_sum w (aScores_of (purify_slice w M st k (slice_cells s)))
                      (slice_cells s) == 0)%Q.
Proof.
  intros Hs Hlen HW. unfold purify_slice. cbn [aScores_of].
  rewrite (@slice_weighted_sum_shift w (aScores_of st) _ (slice_cells s)
             (slice_impurity w (aScores_of st) (slice_cells s))).
  - rewrite slice_impurity_mean. unfold slice_mean.
    destruct (Qeq_bool (slice_weight w (slice_cells s)) 0) eqn:E.
    + apply Qeq_bool_iff in E. contradiction.
    + now field.
  - intros i Hi.
    rewrite slice_update_load_Q;
      [|eapply slice_cells_NoDup; eauto
       |intros c Hc; rewrite Hlen; eapply slice_cells_range; eauto
       |pose proof (@slice_cells_range T s i Hs Hi); lia].
    assert (Hex : existsb (Z.eqb i) (slice_cells s) = true).
    { apply existsb_exists. exists i. split; [assumption|apply Z.eqb_refl]. }
    rewrite Hex. qarith. ring.
Qed.
End SlicePurified.

Lemma slice_weight_nonneg (T : Z) (w : list Q) (s : slice) :
  nonneg_weights T w -> slice_in_tensor T s ->
  (0 <= slice_weight w (slice_cells s))%Q.
Proof.
  intros Hnn Hs. unfold slice_weight. apply sumQ_nonneg.
  apply Forall_forall. intros x Hx. apply in_map_iff in Hx.
  destruct Hx as (i & <- & Hi). apply Hnn. eapply slice_cells_range; eauto.
Qed.

Lemma Qabs_div_le (a W B : Q) :
  (0 < W)%Q -> (Qabs a <= B * W)%Q -> (Qabs (a / W) <= B)%Q.
Proof.
  intros HW Ha. unfold Qdiv. rewrite Qabs_Qmult.
  rewrite (Qabs_pos (/ W)) by (apply Qlt_le_weak; now apply Qinv_lt_0_compat).
  now apply Qle_shift_div_r.
Qed.

Section ResidualBound.
Variables (lens : list Z) (T : Z) (w : list Q) (M : Q) (L : nat).
Hypothesis Hvalid : valid_shape lens T.
Hypothesis HL : surface_bin_count lens T <= Z.of_nat L.
Hypothesis Hnn : nonneg_weights T w.

(** After a pass that ends with [bRetry] unset, the weighted mean of the
    scores along a slice that sweeps dimension [d] is at most [M] for each
    dimension after [d]: the slice was left with a weighted mean of zero,
    and only the slices of later dimensions touched its cells again, one
    slice per cell and dimension, each removing at most [M]. *)
Lemma purify_pass_residual_mean (aScoresIn aImpuritiesIn : list Q) (st : pass_state) :
  Z.of_nat (length aScoresIn) = T ->
  length aImpuritiesIn = L ->
  purify_pass lens T (surface_bin_count lens T) w M aScoresIn aImpuritiesIn = Some st ->
  bRetry st = false ->
  forall k s,
    0 <= k < surface_bin_count lens T ->
    decode lens T k = Some s ->
    (Qabs (slice_mean w (aScores_of st) (slice_cells s))
     <= later_dimensions lens (iSweepDimension s) * M)%Q.
Proof.
  intros HscLen HimLen Hpass Hretry k s Hk Hdec.
  destruct (zrange_split_sorted Hk) as (suf & Hsplit & Hsorted & Hsuf).
  unfold purify_pass in Hpass. rewrite Hsplit, purify_bins_app in Hpass.
  set (init := mkPass aScoresIn aImpuritiesIn (@f0 Q Q_arith) false) in *.
  (* the bins before [k] *)
  destruct (@purify_bins_conserved lens T w M L Hvalid HL
              (fun i => (load 0%Q aScoresIn i + removed_from_cell lens T aImpuritiesIn i)%Q)
              (zrange k) init) as (stk & Hpre & Hconsk).
  { intros j Hj. apply zrange_In in Hj. lia. }
  { split; [exact HscLen|]. split; [exact HimLen|]. intros i Hi. reflexivity. }
  rewrite Hpre in Hpass. rewrite purify_bins_cons in Hpass.
  destruct (@purify_bin_valid Q Q_arith lens T w M stk k Hvalid Hk)
    as (s' & Hdec' & Hs & Hbin).
  assert (s' = s) by congruence. subst s'.
  rewrite Hbin in Hpass.
  destruct Hconsk as (Hlenk & Himk & _).
  set (st1 := purify_slice w M stk k (slice_cells s)) in *.
  (* the threshold is not negative *)
  assert (Hretry1 : bRetry st1 = false).
  { destruct (bRetry st1) eqn:E; [|reflexivity].
    assert (bRetry st = true)
      by (eapply purify_bins_retry_mono; [exact Hpass|exact E]).
    congruence. }
  assert (HM : (0 <= M)%Q).
  { unfold st1 in Hretry1. rewrite purify_slice_retry in Hretry1.
    apply orb_false_iff in Hretry1. destruct Hretry1 as (_ & Hlt).
    apply fltb_false_Qle in Hlt. qarith.
    eapply Qle_trans; [apply Qabs_nonneg|exact Hlt]. }
  pose proof (later_dimensions_nonneg lens (iSweepDimension s)) as Hc.
  unfold slice_mean.
  destruct (Qeq_bool (slice_weight w (slice_cells s)) 0) eqn:EW.
  { change (Qabs 0) with 0%Q. now apply Qmult_le_0_compat. }
  apply Qeq_bool_false_iff in EW.
  assert (HW : (0 < slice_weight w (slice_cells s))%Q).
  { pose proof (slice_weight_nonneg Hnn Hs) as H0.
    destruct (Qle_lt_or_eq _ _ H0) as [Hlt|Heq]; [assumption|].
    exfalso. apply EW. now symmetry. }
  (* the slice, right after it was purified *)
  assert (Hsum1 : (slice_weighted_sum w (aScores_of st1) (slice_cells s) == 0)%Q)
    by (unfold st1; apply (@purify_slice_sum_zero T); assumption).
  assert (Hlen1 : Z.of_nat (length (aScores_of st1)) = T)
    by (unfold st1, purify_slice; cbn [aScores_of]; now rewrite slice_update_length).
  assert (Him1 : length (aImpurities_of st1) = L)
    by (unfold st1, purify_slice; cbn [aImpurities_of]; now rewrite store_length).
  (* the bins after [k] *)
  assert (Hsufrange : forall j, In j suf -> 0 <= j < surface_bin_count lens T)
    by (intros j Hj; specialize (Hsuf j Hj); lia).
  destruct (@purify_bins_conserved lens T w M L Hvalid HL
              (fun i => (load 0%Q (aScores_of st1) i
                         + removed_from_cell lens T (aImpurities_of st1) i)%Q)
              suf st1 Hsufrange) as (st' & Hrun' & Hcons).
  { split; [exact Hlen1|]. split; [exact Him1|]. intros i Hi. reflexivity. }
  assert (st' = st) by congruence. subst st'.
  destruct Hcons as (_ & _ & Hcons).
  assert (Hnd : NoDup suf).
  { pose proof (zrange_NoDup (surface_bin_count lens T)) as H.
    rewrite Hsplit in H. apply NoDup_app_remove_l in H. now inversion H. }
  pose proof (@purify_bins_delta lens T w M L Hvalid HL suf Hnd Hsufrange st1 st
                Him1 Hpass Hretry) as Hdelta.
  set (x := fun j => (load 0%Q (aImpurities_of st) j
                      - load 0%Q (aImpurities_of st1) j)%Q).
  assert (Hx0 : forall j, 0 <= j -> ~ In j suf -> (x j == 0)%Q).
  { intros j Hj Hnot. unfold x. destruct (Hdelta j Hj) as (_ & Hout).
    rewrite (Hout Hnot). ring. }
  (* every cell of the slice has moved by at most the bound *)
  assert (Hcell : forall i, In i (slice_cells s) ->
            (Qabs (load 0%Q (aScores_of st) i - load 0%Q (aScores_of st1) i)
             <= later_dimensions lens (iSweepDimension s) * M)%Q).
  { intros i Hi.
    pose proof (@slice_cells_range T s i Hs Hi) as HiT.
    specialize (Hcons i HiT). cbv beta in Hcons.
    assert (Hmove : (load 0%Q (aScores_of st) i - load 0%Q (aScores_of st1) i
                     == - covered_sum lens T x suf i)%Q).
    { assert (Hall : (covered_sum lens T x (zrange (surface_bin_count lens T)) i
                      == covered_sum lens T x suf i)%Q).
      { rewrite Hsplit, covered_sum_app.
        rewrite (@covered_sum_zero lens T x (zrange k)).
        - change (k :: suf) with ([k] ++ suf). rewrite covered_sum_app.
          rewrite (@covered_sum_zero lens T x [k]); [ring|].
          intros j [<-|[]]. apply Hx0; [lia|].
          intros Hin. specialize (Hsuf k Hin). lia.
        - intros j Hj. apply zrange_In in Hj. apply Hx0; [lia|].
          intros Hin. specialize (Hsuf j Hin). lia. }
      rewrite <- Hall. unfold x. rewrite <- covered_sum_minus.
      rewrite <- !removed_from_cell_covered.
      setoid_replace (load 0%Q (aScores_of st) i)
        with (load 0%Q (aScores_of st1) i
              + removed_from_cell lens T (aImpurities_of st1) i
              - removed_from_cell lens T (aImpurities_of st) i)%Q
        by (rewrite Hcons; ring).
      ring. }
    rewrite Hmove, Qabs_opp.
    apply (covered_sum_bound Hvalid); auto.
    - intros j Hj. destruct (Hdelta j) as (Hin & _); [specialize (Hsuf j Hj); lia|].
      now apply Hin.
    - eapply dimension_in_shape; eauto.
    - intros j s' Hj Hdecj Hij.
      specialize (Hsuf j Hj).
      assert (Hmono : (iSweepDimension s <= iSweepDimension s')%nat).
      { eapply (dimension_monotone Hvalid) with (k := k) (k' := j); eauto; lia. }
      destruct (Nat.eq_dec (iSweepDimension s) (iSweepDimension s')) as [Heq|Hne]; [|lia].
      exfalso.
      assert (k = j).
      { eapply (same_dimension_disjoint Hvalid) with (s := s) (s' := s'); eauto; lia. }
      lia. }
  (* so has its weighted mean *)
  apply Qabs_div_le; [assumption|].
  setoid_replace (slice_weighted_sum w (aScores_of st) (slice_cells s))
    with (slice_weighted_sum w (aScores_of st) (slice_cells s)
          - slice_weighted_sum w (aScores_of st1) (slice_cells s))%Q
    by (rewrite Hsum1; ring).
  apply slice_weighted_sum_close; [|exact Hcell].
  intros i Hi. apply Hnn. eapply slice_cells_range; eauto.
Qed.
End ResidualBound.

(** ** The convergence test and the residual *)

Lemma purify_pass_lengths (lens : list Z) (T : Z) (w : list Q) (M : Q) (L : nat)
    (sc im : list Q) (st : pass_state) :
  valid_shape lens T ->
  surface_bin_count lens T <= Z.of_nat L ->
  Z.of_nat (length sc) = T -> length im = L ->
  purify_pass lens T (surface_bin_count lens T) w M sc im = Some st ->
  Z.of_nat (length (aScores_of st)) = T /\ length (aImpurities_of st) = L.
Proof.
  intros Hvalid HL Hsc Him Hpass.
  destruct (@purify_pass_conserved lens T Hvalid
              (fun i => (load 0%Q sc i + removed_from_cell lens T im i)%Q) L w M sc im HL)
    as (st' & Hpass' & Hlen & Hlen' & _).
  { split; [exact Hsc|]. split; [exact Him|]. intros i Hi. reflexivity. }
  assert (st' = st) by congruence. subst st'. auto.
Qed.

(** C2 (amended).  Weighted-mean removal, in exact arithmetic: for a
    valid shape and weights that are not negative, with a total other than
    zero, when [PurifyInternal] returns, the run made some number [n] of
    passes that did not leave the loop, and the pass after them, whose
    buffers are returned, left it either by the test
    [impurityPrev <= impurityCur], [impurityPrev] being the total of the
    pass before it, or with [bRetry] false; in the second case, for every
    slice, the weighted mean taken on the scores as they were when the
    last pass reached the slice was at most [impurityMax] in absolute
    value, and the weighted mean of the residual along the slice is at
    most [impurityMax] times the number of dimensions after the dimension
    the slice sweeps: zero along the last dimension, at most [impurityMax]
    along the one before it. *)
Theorem weighted_mean_removal (fuel : nat) (cTensorBins : Z) (tolerance : Q)
    (cDimensions : Z) (aDimensionLengths : list Z) (aWeights : list Q) (m r : memory) :
  let lens := firstn (Z.to_nat cDimensions) aDimensionLengths in
  let cSurfaceBins := surface_bin_count lens cTensorBins in
  let impurityMax := impurity_threshold cTensorBins tolerance aWeights (mScores m) in
  let m1 := extract_intercept cTensorBins
              (sum_totals cTensorBins aWeights (mScores m)) m in
  valid_shape lens cTensorBins ->
  cSurfaceBins < size_modulus ->
  Z.of_nat (length (mScores m)) = cTensorBins ->
  cSurfaceBins <= Z.of_nat (length (mImpurities m)) ->
  nonneg_weights cTensorBins aWeights ->
  ~ (weight_sum cTensorBins aWeights == 0)%Q ->
  PurifyInternal fuel cTensorBins tolerance cDimensions aDimensionLengths aWeights m
    = Done (Error_None, r) ->
  exists (n : nat) (impurityPrev : option Q) (aScoresIn aImpuritiesIn : list Q)
         (st : pass_state),
    passes n lens cTensorBins cSurfaceBins aWeights impurityMax None
           (mScores m1) (memset_zero cSurfaceBins (mImpurities m1))
      = Some (impurityPrev, aScoresIn, aImpuritiesIn) /\
    purify_pass lens cTensorBins cSurfaceBins aWeights impurityMax aScoresIn aImpuritiesIn
      = Some st /\
    mScores r = aScores_of st /\ mImpurities r = aImpurities_of st /\
    ((exists p : Q, impurityPrev = Some p /\ (p <= impurityCur st)%Q) \/
     (bRetry st = false /\
      forall k s, 0 <= k < cSurfaceBins -> decode lens cTensorBins k = Some s ->
        (exists stk : pass_state,
           purify_bins lens cTensorBins aWeights impurityMax (zrange k)
                       (mkPass aScoresIn aImpuritiesIn 0%Q false) = Some stk /\
           (Qabs (slice_mean aWeights (aScores_of stk) (slice_cells s)) <= impurityMax)%Q) /\
        (Qabs (slice_mean aWeights (mScores r) (slice_cells s))
         <= later_dimensions lens (iSweepDimension s) * impurityMax)%Q)).
Proof.
  intros lens cSurfaceBins impurityMax m1 Hvalid HS Hlen HimpLen Hnn Hw Hrun.
  assert (HSc : count_surface_bins lens cTensorBins = cSurfaceBins)
    by (apply count_surface_bins_exact; assumption).
  rewrite PurifyInternal_passes in Hrun
    by (apply Qeq_bool_false_iff; intros H0; apply Hw; now symmetry).
  fold lens in Hrun. cbv zeta in Hrun. rewrite HSc in Hrun.
  fold impurityMax in Hrun. fold m1 in Hrun.
  assert (Hm1len : Z.of_nat (length (mScores m1)) = cTensorBins).
  { subst m1. unfold extract_intercept.
    destruct (mInterceptOut m); cbn [mScores]; auto.
    now rewrite subtract_intercept_length. }
  assert (Hm1imp : length (memset_zero cSurfaceBins (mImpurities m1))
                   = length (mImpurities m)).
  { rewrite memset_zero_length. subst m1. unfold extract_intercept.
    now destruct (mInterceptOut m). }
  destruct (purify_loop fuel lens cTensorBins cSurfaceBins aWeights impurityMax None
              (mScores m1) (memset_zero cSurfaceBins (mImpurities m1)))
    as [[aScores' aImpurities']| |] eqn:Hloop; try discriminate.
  inversion Hrun; subst r; clear Hrun. cbn [mScores mImpurities].
  destruct (@purify_loop_exit Q Q_arith lens cTensorBins cSurfaceBins aWeights
              impurityMax
              (fun sc im => Z.of_nat (length sc) = cTensorBins /\
                            length im = length (mImpurities m)))
    with (fuel := fuel) (prev := @None Q) (sc := mScores m1)
         (im := memset_zero cSurfaceBins (mImpurities m1))
         (sc' := aScores') (im' := aImpurities')
    as (n & prev & scIn & imIn & st & _ & Hpasses & (HscIn & HimIn) & Hpass & Hsc & Him
        & Hexit); auto.
  { intros sc im st (Hsc & Him) Hpass.
    eapply purify_pass_lengths; eauto. }
  exists n, prev, scIn, imIn, st.
  split; [exact Hpasses|]. split; [exact Hpass|]. split; [exact Hsc|]. split; [exact Him|].
  destruct Hexit as [Hguard|(_ & Hretry)].
  { left. destruct prev as [p|]; [|discriminate].
    exists p. split; [reflexivity|].
    cbn [not_improved] in Hguard. qarith. now apply Qle_bool_iff. }
  right. split; [exact Hretry|].
  intros k s Hk Hdec. split.
  - destruct (zrange_split Hk) as (suf & Hsplit).
    pose proof Hpass as Hpass'.
    unfold purify_pass in Hpass'. rewrite Hsplit in Hpass'.
    destruct (purify_bins_no_retry _ _ _ _ _ _ _ _ Hpass' Hretry)
      as (s' & stk & Hdec' & Hpre & Hlt).
    assert (s' = s) by congruence. subst s'.
    exists stk. split; [exact Hpre|].
    apply fltb_false_Qle in Hlt. qarith.
    now rewrite <- slice_impurity_mean.
  - subst aScores'.
    eapply purify_pass_residual_mean with (L := length (mImpurities m)); eauto.
Qed.

(** With at most two dimensions the bound on the residual is
    [impurityMax] itself. *)
Lemma later_dimensions_two (lens : list Z) (d : nat) (M : Q) :
  (length lens <= 2)%nat -> (0 <= M)%Q ->
  (later_dimensions lens d * M <= M)%Q.
Proof.
  intros Hlen HM. unfold later_dimensions.
  setoid_replace M with (1 * M)%Q at 2 by ring.
  apply Qmult_le_compat_r; [|assumption].
  change 1%Q with (inject_Z 1). rewrite <- Zle_Qle. lia.
Qed.

Lemma example_weight_nonzero : ~ (weight_sum 4 example_weights == 0)%Q.
Proof. vm_compute. discriminate. Qed.

Lemma example_nonneg_weights : nonneg_weights 4 example_weights.
Proof.
  intros i Hi. assert (Hcases : i = 0 \/ i = 1 \/ i = 2 \/ i = 3) by lia.
  destruct Hcases as [-> | [-> | [-> | ->]]]; vm_compute; discriminate.
Qed.

Lemma weighted_mean_removal_witness :
  let lens := firstn (Z.to_nat 2) [2; 2] in
  let cSurfaceBins := surface_bin_count lens 4 in
  let impurityMax :=
    impurity_threshold 4 (1 # 10)%Q example_weights (mScores example_memory) in
  let m1 := extract_intercept 4 (sum_totals 4 example_weights (mScores example_memory))
              example_memory in
  valid_shape lens 4 /\
  cSurfaceBins < size_modulus /\
  Z.of_nat (length (mScores example_memory)) = 4 /\
  cSurfaceBins <= Z.of_nat (length (mImpurities example_memory)) /\
  nonneg_weights 4 example_weights /\
  ~ (weight_sum 4 example_weights == 0)%Q /\
  PurifyInternal 10 4 (1 # 10)%Q 2 [2; 2] example_weights example_memory
    = Done (Error_None, example_result) /\
  exists (n : nat) (impurityPrev : option Q) (aScoresIn aImpuritiesIn : list Q)
         (st : pass_state),
    passes n lens 4 cSurfaceBins example_weights impurityMax None
           (mScores m1) (memset_zero cSurfaceBins (mImpurities m1))
      = Some (impurityPrev, aScoresIn, aImpuritiesIn) /\
    purify_pass lens 4 cSurfaceBins example_weights impurityMax aScoresIn aImpuritiesIn
      = Some st /\
    mScores example_result = aScores_of st /\
    mImpurities example_result = aImpurities_of st /\
    ((exists p : Q, impurityPrev = Some p /\ (p <= impurityCur st)%Q) \/
     (bRetry st = false /\
      forall k s, 0 <= k < cSurfaceBins -> decode lens 4 k = Some s ->
        (exists stk : pass_state,
           purify_bins lens 4 example_weights impurityMax (zrange k)
                       (mkPass aScoresIn aImpuritiesIn 0%Q false) = Some stk /\
           (Qabs (slice_mean example_weights (aScores_of stk) (slice_cells s))
            <= impurityMax)%Q) /\
        (Qabs (slice_mean example_weights (mScores example_result) (slice_cells s))
         <= later_dimensions lens (iSweepDimension s) * impurityMax)%Q)).
Proof.
  intros lens cSurfaceBins impurityMax m1.
  assert (HS : cSurfaceBins < size_modulus) by reflexivity.
  assert (Hl : Z.of_nat (length (mScores example_memory)) = 4) by reflexivity.
  assert (Hi : cSurfaceBins <= Z.of_nat (length (mImpurities example_memory)))
    by (vm_compute; discriminate).
  split; [exact example_valid_shape|]. split; [exact HS|].
  split; [exact Hl|]. split; [exact Hi|].
  split; [exact example_nonneg_weights|]. split; [exact example_weight_nonzero|].
  split; [exact example_run|].
  exact (@weighted_mean_removal 10 4 (1 # 10)%Q 2 [2; 2] example_weights
           example_memory example_result example_valid_shape HS Hl Hi
           example_nonneg_weights example_weight_nonzero example_run).
Defined.

(** C2, as stated, fails in three dimensions: the first pass of the
    example ends with [bRetry] false (with no previous pass, the test
    [impurityPrev <= impurityCur] compares against infinity), yet the
    weighted mean of the residual along the slice of surface bin 1 is 2/3,
    above the threshold 5/8. *)
Lemma residual_mean_above_threshold :
  let lens := firstn (Z.to_nat 3) [2; 2; 2] in
  let impurityMax := impurity_threshold 8 1%Q cube_weights (mScores cube_memory) in
  valid_shape lens 8 /\
  (impurityMax == 5 # 8)%Q /\
  (exists st : pass_state,
     purify_pass lens 8 (surface_bin_count lens 8) cube_weights impurityMax
                 (mScores cube_memory) (mImpurities cube_memory) = Some st /\
     not_improved None (impurityCur st) = false /\ bRetry st = false) /\
  (exists r : memory,
     PurifyInternal 1 8 1%Q 3 [2; 2; 2] cube_weights cube_memory = Done (Error_None, r) /\
     Forall2 Qeq (mScores r) (mScores cube_result)) /\
  (exists s : slice,
     decode lens 8 1 = Some s /\
     (slice_mean cube_weights (mScores cube_result) (slice_cells s) == 2 # 3)%Q /\
     ~ (Qabs (slice_mean cube_weights (mScores cube_result) (slice_cells s))
        <= impurityMax)%Q).
Proof.
  intros lens impurityMax.
  split; [split; [repeat constructor|split; reflexivity]|].
  split; [reflexivity|].
  split; [eexists; split; [vm_compute; reflexivity|split; reflexivity]|].
  split.
  - eexists. split; [vm_compute; reflexivity|].
    repeat constructor; reflexivity.
  - eexists. split; [vm_compute; reflexivity|]. split; [reflexivity|].
    vm_compute. intros H. apply H. reflexivity.
Qed.

(** ** Through the entry point *)

Section EntryFacts.
Context {F : Type} {AF : Arith F}.
Variable k_cDimensionsMax : Z.

(** For arguments that pass every check, [Purify] is [PurifyInternal] on
    the buffers, after the store of [0.0] through [interceptOut]. *)
Lemma Purify_checked (fuel : nat) (tolerance : F) (countDimensions : Z)
    (aLens : list Z) (cTensorBins : Z) (w sc im : list F) (icpt : option (list F)) :
  0 < countDimensions <= k_cDimensionsMax ->
  k_cDimensionsMax < size_modulus ->
  scan_lengths (firstn (Z.to_nat countDimensions) aLens) false = Some false ->
  count_tensor_bins (firstn (Z.to_nat countDimensions) aLens) 1 = Some cTensorBins ->
  Purify k_cDimensionsMax fuel tolerance countDimensions (Some aLens)
         (mkBuf (Some w) (Some sc) (Some im) icpt) =
    match PurifyInternal fuel cTensorBins tolerance countDimensions aLens w
            (mkMem sc im (interceptOut (zero_intercept (mkBuf (Some w) (Some sc) (Some im) icpt))))
    with
    | Done (error, m) =>
        Done (error, mkBuf (Some w) (Some (mScores m)) (Some (mImpurities m))
                           (mInterceptOut m))
    | Fault => Fault
    | OutOfFuel => OutOfFuel
    end.
Proof.
  intros Hcount Hk Hscan Hbins. unfold Purify.
  destruct (Z.leb_spec countDimensions 0) as [Hle|_]; [lia|].
  destruct (Z.ltb_spec k_cDimensionsMax countDimensions) as [Hlt|_]; [lia|].
  assert (Hcast : to_size_t countDimensions = countDimensions)
    by (apply wrap_small; lia).
  rewrite Hcast, Hscan, Hbins.
  destruct icpt; reflexivity.
Qed.

(** With weights that sum to zero, a checked call returns success; the
    buffers are as passed in, and the only store through [interceptOut]
    is the [0.0] of the entry point. *)
Lemma Purify_zero_weight (fuel : nat) (tolerance : F) (countDimensions : Z)
    (aLens : list Z) (cTensorBins : Z) (w sc im : list F) (icpt : option (list F)) :
  0 < countDimensions <= k_cDimensionsMax ->
  k_cDimensionsMax < size_modulus ->
  scan_lengths (firstn (Z.to_nat countDimensions) aLens) false = Some false ->
  count_tensor_bins (firstn (Z.to_nat countDimensions) aLens) 1 = Some cTensorBins ->
  feqb f0 (weight_sum cTensorBins w) = true ->
  Purify k_cDimensionsMax fuel tolerance countDimensions (Some aLens)
         (mkBuf (Some w) (Some sc) (Some im) icpt) =
    Done (Error_None, zero_intercept (mkBuf (Some w) (Some sc) (Some im) icpt)).
Proof.
  intros Hcount Hk Hscan Hbins Hzero.
  rewrite (Purify_checked _ _ _ _ _ _ _ Hcount Hk Hscan Hbins).
  rewrite zero_weight_noop_any by assumption.
  destruct icpt; reflexivity.
Qed.
End EntryFacts.

(** The run of the binary64 example does not end when it is started
    through [Purify] either: the example passes every check of the entry
    point. *)
Lemma binary64_entry_never_returns (fuel : nat) :
  Purify 63 fuel 0%float 3 (Some [4; 3; 3])
         (mkBuf (Some ieee_weights) (Some ieee_scores) (Some (repeat 0%float 33)) None)
    = OutOfFuel.
Proof.
  rewrite (@Purify_checked float float_arith 63 fuel 0%float 3 [4; 3; 3] 36);
    try reflexivity; try lia.
  change (zero_intercept _) with
    (mkBuf (Some ieee_weights) (Some ieee_scores) (Some (repeat 0%float 33)) None).
  cbn [interceptOut].
  change (mkMem ieee_scores (repeat 0%float 33) None) with ieee_memory.
  ieee_unfold_call.
  rewrite ieee_loop_never_ends.
  reflexivity.
Qed.

(** ** Binary64: rounding against the statements of exact arithmetic

    The amended statements of C2, C7 and C8 are statements of exact
    arithmetic.  With binary64 each of them fails on a small vector. *)

(** A vector of one dimension, tolerance 0: three passes do not end the
    call, the fourth does, and the scores returned are not those the
    first pass left. *)
Lemma binary64_vector_four_passes :
  let w := [1; 1; 1]%float in
  let m := mkMem tenths_scores [0%float] None in
  PurifyInternal 3 3 0%float 1 [3] w m = OutOfFuel /\
  exists (r : memory) (p1 : option float) (sc1 im1 : list float),
    PurifyInternal 4 3 0%float 1 [3] w m = Done (Error_None, r) /\
    passes 1 [3] 3 1 w (impurity_threshold 3 0%float w tenths_scores) None
           tenths_scores [0%float] = Some (p1, sc1, im1) /\
    PrimFloat.eqb (load 0%float (mScores r) 0) (load 0%float sc1 0) = false.
Proof.
  intros w m. split; [vm_compute; reflexivity|].
  eexists _, _, _, _. split; [vm_compute; reflexivity|].
  split; [vm_compute; reflexivity|]. vm_compute. reflexivity.
Qed.

(** Four scores whose exact weighted mean is zero: the code finds the
    sum -1, stores the intercept -0.25, needs three passes, and returns
    the second score changed. *)
Lemma binary64_cancelling_scores_change :
  let w := [1; 1; 1; 1]%float in
  let m := mkMem cancelling_scores [0%float] (Some [0%float]) in
  (weighted_mean 4 [1; 1; 1; 1]%Q
     [inject_Z (2 ^ 53); 1; - inject_Z (2 ^ 53); -1]%Q == 0)%Q /\
  PurifyInternal 2 4 0%float 1 [4] w m = OutOfFuel /\
  exists r : memory,
    PurifyInternal 3 4 0%float 1 [4] w m = Done (Error_None, r) /\
    mInterceptOut r = Some [(-0x1p-2)%float; 0%float] /\
    PrimFloat.eqb (load 0%float (mScores r) 1) 1%float = false.
Proof.
  intros w m. split; [vm_compute; reflexivity|].
  split; [vm_compute; reflexivity|].
  eexists. split; [vm_compute; reflexivity|].
  split; [reflexivity|]. vm_compute. reflexivity.
Qed.

(** A vector of one dimension, tolerance 1: the call returns after one
    pass, with [bRetry] false, and the weighted mean of the residual along
    the only dimension, as the code itself computes it (lines 126-136),
    is not zero. *)
Lemma binary64_residual_not_zero :
  let w := [1; 1; 1]%float in
  let m := mkMem tenths_scores [0%float] None in
  exists (r : memory) (s : slice),
    PurifyInternal 1 3 1%float 1 [3] w m = Done (Error_None, r) /\
    decode [3] 3 0 = Some s /\
    PrimFloat.eqb 0%float (slice_impurity w (mScores r) (slice_cells s)) = false.
Proof.
  intros w m. eexists _, _. split; [vm_compute; reflexivity|].
  split; [vm_compute; reflexivity|]. vm_compute. reflexivity.
Qed.

(** * Further properties of the code *)

(** ** The checks of the entry point *)

(** The first loop over the lengths: a negative length ends the call,
    otherwise [bZero] tells whether a length was zero. *)
Lemma scan_lengths_spec (lens : list Z) (bZero : bool) :
  scan_lengths lens bZero =
    if existsb (fun len => len <? 0) lens then None
    else Some (bZero || existsb (Z.eqb 0) lens).
Proof.
  revert bZero. induction lens as [|len lens IH]; intros bZero.
  - cbn. now rewrite orb_false_r.
  - cbn [scan_lengths existsb].
    destruct (Z.leb_spec len 0) as [Hle|Hgt].
    + destruct (Z.ltb_spec len 0) as [Hlt|Hge]; [reflexivity|].
      assert (len = 0) by lia. subst len.
      rewrite IH. cbn [orb Z.eqb]. now rewrite orb_true_r.
    + destruct (Z.ltb_spec len 0) as [Hlt|_]; [lia|].
      rewrite IH. destruct (Z.eqb_spec 0 len) as [Heq|_]; [lia|]. reflexivity.
Qed.

Lemma scan_lengths_positive (lens : list Z) :
  Forall (fun len => 0 < len) lens -> scan_lengths lens false = Some false.
Proof.
  intros Hpos. rewrite scan_lengths_spec.
  assert (Hneg : existsb (fun len => len <? 0) lens = false).
  { apply not_true_is_false. intros H. apply existsb_exists in H.
    destruct H as (x & Hx & Hlt). rewrite Forall_forall in Hpos.
    specialize (Hpos x Hx). apply Z.ltb_lt in Hlt. lia. }
  assert (Hzero : existsb (Z.eqb 0) lens = false).
  { apply not_true_is_false. intros H. apply existsb_exists in H.
    destruct H as (x & Hx & Heq). rewrite Forall_forall in Hpos.
    specialize (Hpos x Hx). apply Z.eqb_eq in Heq. lia. }
  now rewrite Hneg, Hzero.
Qed.

Lemma scan_lengths_negative (lens : list Z) (bZero : bool) :
  Exists (fun len => len < 0) lens -> scan_lengths lens bZero = None.
Proof.
  intros Hex. rewrite scan_lengths_spec.
  assert (Hneg : existsb (fun len => len <? 0) lens = true).
  { apply existsb_exists. apply Exists_exists in Hex.
    destruct Hex as (x & Hx & Hlt). exists x. split; [assumption|].
    now apply Z.ltb_lt. }
  now rewrite Hneg.
Qed.

(** The second loop over the lengths, started with a count [c]: the exact
    product when it fits the size type, the overflow exit otherwise. *)
Lemma count_tensor_bins_from (lens : list Z) :
  Forall (fun len => 0 < len) lens ->
  forall c : Z, 0 < c < size_modulus ->
    count_tensor_bins lens c =
      if c * extent_product lens <? size_modulus
      then Some (c * extent_product lens) else None.
Proof.
  induction 1 as [|len lens Hlen Hpos IH]; intros c Hc.
  - change (extent_product []) with 1. rewrite Z.mul_1_r. cbn [count_tensor_bins].
    destruct (Z.ltb_spec c size_modulus); [reflexivity|lia].
  - cbn [count_tensor_bins]. rewrite extent_product_cons.
    pose proof (extent_product_pos Hpos) as HP.
    assert (Hgrow : c * len <= c * (len * extent_product lens)).
    { apply Z.mul_le_mono_nonneg_l; [lia|]. nia. }
    assert (Hlow : len <= c * len) by nia.
    unfold IsConvertError_size_t, IsMultiplyError.
    destruct (Z.ltb_spec len 0) as [Hneg|_]; [lia|]. cbn [orb].
    destruct (Z.leb_spec size_modulus len) as [Hbig|Hsmall].
    + destruct (Z.ltb_spec (c * (len * extent_product lens)) size_modulus) as [Hfit|_];
        [lia|reflexivity].
    + assert (Hcast : to_size_t len = len) by (apply wrap_small; lia).
      rewrite Hcast.
      destruct (Z.leb_spec size_modulus (c * len)) as [Hover|Hfits].
      * destruct (Z.ltb_spec (c * (len * extent_product lens)) size_modulus) as [Hfit|_];
          [lia|reflexivity].
      * rewrite wrap_small by nia. rewrite IH by nia.
        now rewrite Z.mul_assoc.
Qed.

(** X1.  The bin count of the entry point: for positive lengths the
    second loop over the lengths yields exactly their product when the
    product fits the size type, and takes the overflow exit otherwise;
    it never yields a wrapped product. *)
Theorem tensor_bin_count_or_overflow (lens : list Z) :
  Forall (fun len => 0 < len) lens ->
  count_tensor_bins lens 1 =
    if extent_product lens <? size_modulus then Some (extent_product lens) else None.
Proof.
  intros Hpos.
  rewrite (count_tensor_bins_from Hpos) by (split; reflexivity).
  now rewrite Z.mul_1_l.
Qed.

Lemma tensor_bin_count_or_overflow_witness :
  Forall (fun len => 0 < len) [4294967296; 4294967296; 3] /\
  count_tensor_bins [4294967296; 4294967296; 3] 1 = None /\
  count_tensor_bins [4; 3; 2] 1 = Some 24.
Proof.
  assert (H1 : Forall (fun len => 0 < len) [4294967296; 4294967296; 3])
    by (repeat constructor).
  assert (H2 : Forall (fun len => 0 < len) [4; 3; 2]) by (repeat constructor).
  split; [exact H1|]. split.
  - exact (tensor_bin_count_or_overflow H1).
  - exact (tensor_bin_count_or_overflow H2).
Defined.

Section EntryChecks.
Context {F : Type} {AF : Arith F}.
Variable k_cDimensionsMax : Z.

(** [PurifyInternal] has no error exit. *)
Lemma PurifyInternal_error_none (fuel : nat) (T : Z) (tolerance : F) (D : Z)
    (aLens : list Z) (w : list F) (m : memory) (e : ErrorEbm) (r : memory) :
  PurifyInternal fuel T tolerance D aLens w m = Done (e, r) -> e = Error_None.
Proof.
  unfold PurifyInternal.
  destruct (feqb f0 (weightTotalAll (sum_totals T w (mScores m)))).
  - intros H. now inversion H.
  - cbv zeta.
    destruct (purify_loop _ _ _ _ _ _ _ _ _) as [[sc im]| |]; intros H;
      [now inversion H|discriminate|discriminate].
Qed.

(** What [PurifyInternal] leaves behind [pInterceptOut]: nothing for a
    null pointer, at most one store otherwise. *)
Lemma PurifyInternal_intercept_log (fuel : nat) (T : Z) (tolerance : F) (D : Z)
    (aLens : list Z) (w : list F) (m : memory) (e : ErrorEbm) (r : memory) :
  PurifyInternal fuel T tolerance D aLens w m = Done (e, r) ->
  match mInterceptOut m with
  | None => mInterceptOut r = None
  | Some stores =>
      mInterceptOut r = Some stores \/ exists v, mInterceptOut r = Some (v :: stores)
  end.
Proof.
  unfold PurifyInternal.
  destruct (feqb f0 (weightTotalAll (sum_totals T w (mScores m)))).
  - intros H. inversion H; subst. destruct (mInterceptOut r); auto.
  - cbv zeta.
    destruct (purify_loop _ _ _ _ _ _ _ _ _) as [[sc im]| |]; intros H;
      [|discriminate|discriminate].
    inversion H; subst. cbn [mInterceptOut]. unfold extract_intercept.
    destruct m as [sc0 im0 [stores|]]; cbn [mInterceptOut]; eauto.
Qed.

(** X2.  A non-null array of lengths with a negative length among the
    first [countDimensions] entries is rejected with the illegal-parameter
    code whatever the other lengths are (a zero length, which alone makes
    the call a trivial success, does not help) and whatever the buffers
    are; only the [0.0] through [interceptOut] has been stored. *)
Theorem negative_length_rejected (fuel : nat) (tolerance : F) (countDimensions : Z)
    (aLens : list Z) (b : buffers) :
  0 < countDimensions <= k_cDimensionsMax ->
  k_cDimensionsMax < size_modulus ->
  Exists (fun len => len < 0) (firstn (Z.to_nat countDimensions) aLens) ->
  Purify k_cDimensionsMax fuel tolerance countDimensions (Some aLens) b
    = Done (Error_IllegalParamVal, zero_intercept b).
Proof.
  intros Hcount Hk Hneg. unfold Purify.
  destruct (Z.leb_spec countDimensions 0) as [Hle|_]; [lia|].
  destruct (Z.ltb_spec k_cDimensionsMax countDimensions) as [Hlt|_]; [lia|].
  assert (Hcast : to_size_t countDimensions = countDimensions)
    by (apply wrap_small; lia).
  rewrite Hcast, (scan_lengths_negative false Hneg). reflexivity.
Qed.

(** X3.  Positive lengths whose product does not fit the size type are
    rejected with the out-of-memory code before the buffers are looked
    at: the answer is the same for null buffers. *)
Theorem overflowing_shape_out_of_memory (fuel : nat) (tolerance : F)
    (countDimensions : Z) (aLens : list Z) (b : buffers) :
  0 < countDimensions <= k_cDimensionsMax ->
  k_cDimensionsMax < size_modulus ->
  Forall (fun len => 0 < len) (firstn (Z.to_nat countDimensions) aLens) ->
  size_modulus <= extent_product (firstn (Z.to_nat countDimensions) aLens) ->
  Purify k_cDimensionsMax fuel tolerance countDimensions (Some aLens) b
    = Done (Error_OutOfMemory, zero_intercept b).
Proof.
  intros Hcount Hk Hpos Hbig. unfold Purify.
  destruct (Z.leb_spec countDimensions 0) as [Hle|_]; [lia|].
  destruct (Z.ltb_spec k_cDimensionsMax countDimensions) as [Hlt|_]; [lia|].
  assert (Hcast : to_size_t countDimensions = countDimensions)
    by (apply wrap_small; lia).
  rewrite Hcast, (scan_lengths_positive Hpos).
  rewrite (count_tensor_bins_from Hpos) by (split; reflexivity).
  rewrite Z.mul_1_l.
  destruct (Z.ltb_spec (extent_product (firstn (Z.to_nat countDimensions) aLens))
                       size_modulus) as [Hfit|_]; [lia|reflexivity].
Qed.

(** X4.  With a shape that passes the checks, a null pointer for the
    weights, the scores or the impurities is rejected with the
    illegal-parameter code, and the buffers that were passed are handed
    back as they were. *)
Theorem null_buffer_rejected (fuel : nat) (tolerance : F) (countDimensions : Z)
    (aLens : list Z) (b : buffers) :
  0 < countDimensions <= k_cDimensionsMax ->
  k_cDimensionsMax < size_modulus ->
  Forall (fun len => 0 < len) (firstn (Z.to_nat countDimensions) aLens) ->
  extent_product (firstn (Z.to_nat countDimensions) aLens) < size_modulus ->
  weights b = None \/ scores b = None \/ impurities b = None ->
  Purify k_cDimensionsMax fuel tolerance countDimensions (Some aLens) b
    = Done (Error_IllegalParamVal, zero_intercept b).
Proof.
  intros Hcount Hk Hpos Hfit Hnull. unfold Purify.
  destruct (Z.leb_spec countDimensions 0) as [Hle|_]; [lia|].
  destruct (Z.ltb_spec k_cDimensionsMax countDimensions) as [Hlt|_]; [lia|].
  assert (Hcast : to_size_t countDimensions = countDimensions)
    by (apply wrap_small; lia).
  rewrite Hcast, (scan_lengths_positive Hpos).
  rewrite (count_tensor_bins_from Hpos) by (split; reflexivity).
  rewrite Z.mul_1_l.
  destruct (Z.ltb_spec (extent_product (firstn (Z.to_nat countDimensions) aLens))
                       size_modulus) as [_|Hbig]; [|lia].
  destruct b as [bw bs bi bo].
  cbn [weights scores impurities] in Hnull.
  assert (Hw : weights (zero_intercept (mkBuf bw bs bi bo)) = bw) by (now destruct bo).
  assert (Hs : scores (zero_intercept (mkBuf bw bs bi bo)) = bs) by (now destruct bo).
  assert (Hi : impurities (zero_intercept (mkBuf bw bs bi bo)) = bi) by (now destruct bo).
  rewrite Hw, Hs, Hi.
  destruct Hnull as [-> | [-> | ->]].
  - reflexivity.
  - now destruct bw.
  - now destruct bw, bs.
Qed.

(** X5.  For arguments that pass every check, [Purify] is
    [PurifyInternal] on the product of the lengths as the bin count, on a
    shape that is valid, after the store of [0.0] through [interceptOut];
    the error code and the buffers of the core are handed back as they
    are. *)
Theorem checked_call_runs_core (fuel : nat) (tolerance : F) (countDimensions : Z)
    (aLens : list Z) (w sc im : list F) (icpt : option (list F)) :
  0 < countDimensions <= k_cDimensionsMax ->
  k_cDimensionsMax < size_modulus ->
  Forall (fun len => 0 < len) (firstn (Z.to_nat countDimensions) aLens) ->
  extent_product (firstn (Z.to_nat countDimensions) aLens) < size_modulus ->
  let lens := firstn (Z.to_nat countDimensions) aLens in
  let cTensorBins := extent_product lens in
  valid_shape lens cTensorBins /\ 1 <= cTensorBins /\
  Purify k_cDimensionsMax fuel tolerance countDimensions (Some aLens)
         (mkBuf (Some w) (Some sc) (Some im) icpt) =
    match PurifyInternal fuel cTensorBins tolerance countDimensions aLens w
            (mkMem sc im (option_map (cons f0) icpt))
    with
    | Done (error, m) =>
        Done (error, mkBuf (Some w) (Some (mScores m)) (Some (mImpurities m))
                           (mInterceptOut m))
    | Fault => Fault
    | OutOfFuel => OutOfFuel
    end.
Proof.
  intros Hcount Hk Hpos Hfit lens cTensorBins.
  split; [repeat split; assumption|].
  split; [pose proof (extent_product_pos Hpos); unfold cTensorBins, lens; lia|].
  unfold Purify.
  destruct (Z.leb_spec countDimensions 0) as [Hle|_]; [lia|].
  destruct (Z.ltb_spec k_cDimensionsMax countDimensions) as [Hlt|_]; [lia|].
  assert (Hcast : to_size_t countDimensions = countDimensions)
    by (apply wrap_small; lia).
  rewrite Hcast, (scan_lengths_positive Hpos).
  rewrite (count_tensor_bins_from Hpos) by (split; reflexivity).
  rewrite Z.mul_1_l.
  destruct (Z.ltb_spec (extent_product (firstn (Z.to_nat countDimensions) aLens))
                       size_modulus) as [_|Hbig]; [|lia].
  destruct icpt; reflexivity.
Qed.

(** X6.  Whenever [Purify] returns an error code, the weights, the scores
    and the impurities are as they were passed: the only store of the
    call is the [0.0] through a non-null [interceptOut]. *)
Theorem error_return_leaves_buffers (fuel : nat) (tolerance : F) (countDimensions : Z)
    (dimensionLengths : option (list Z)) (b : buffers) (e : ErrorEbm) (b' : buffers) :
  Purify k_cDimensionsMax fuel tolerance countDimensions dimensionLengths b = Done (e, b') ->
  e <> Error_None ->
  b' = zero_intercept b.
Proof.
  unfold Purify. intros Hrun Herr.
  destruct (countDimensions <=? 0).
  { destruct (0 =? countDimensions); inversion Hrun; subst; congruence. }
  destruct (k_cDimensionsMax <? countDimensions); [now inversion Hrun|].
  destruct dimensionLengths as [aLens|]; [|now inversion Hrun].
  destruct (scan_lengths _ false) as [[|]|]; try (now inversion Hrun).
  destruct (count_tensor_bins _ 1) as [T|]; [|now inversion Hrun].
  destruct (weights (zero_intercept b)) as [w|]; [|now inversion Hrun].
  destruct (scores (zero_intercept b)) as [sc|]; [|now inversion Hrun].
  destruct (impurities (zero_intercept b)) as [im|]; [|now inversion Hrun].
  destruct (PurifyInternal _ _ _ _ _ _ _) as [[e0 m]| |] eqn:Hcore; try discriminate.
  apply PurifyInternal_error_none in Hcore. inversion Hrun; subst. congruence.
Qed.

(** X7.  The stores through [interceptOut]: a null pointer is never
    written through; through a non-null pointer the first store is the
    [0.0] of the entry point, and at most one more store follows, which
    happens only on a successful return. *)
Theorem intercept_out_stores (fuel : nat) (tolerance : F) (countDimensions : Z)
    (dimensionLengths : option (list Z)) (b : buffers) (e : ErrorEbm) (b' : buffers) :
  Purify k_cDimensionsMax fuel tolerance countDimensions dimensionLengths b = Done (e, b') ->
  match interceptOut b with
  | None => interceptOut b' = None
  | Some stores =>
      interceptOut b' = Some (f0 :: stores) \/
      (e = Error_None /\ exists v, interceptOut b' = Some (v :: f0 :: stores))
  end.
Proof.
  intros Hrun.
  assert (Hz : match interceptOut b with
               | None => interceptOut (zero_intercept b) = None
               | Some stores => interceptOut (zero_intercept b) = Some (f0 :: stores)
               end).
  { unfold zero_intercept. destruct (interceptOut b) eqn:E; [reflexivity|exact E]. }
  assert (Hkeep : forall e0 : ErrorEbm,
            Done (e0, zero_intercept b) = Done (e, b') ->
            match interceptOut b with
            | None => interceptOut b' = None
            | Some stores =>
                interceptOut b' = Some (f0 :: stores) \/
                (e = Error_None /\ exists v, interceptOut b' = Some (v :: f0 :: stores))
            end).
  { intros e0 H. inversion H; subst. destruct (interceptOut b); auto. }
  unfold Purify in Hrun.
  destruct (countDimensions <=? 0).
  { destruct (0 =? countDimensions); exact (Hkeep _ Hrun). }
  destruct (k_cDimensionsMax <? countDimensions); [exact (Hkeep _ Hrun)|].
  destruct dimensionLengths as [aLens|]; [|exact (Hkeep _ Hrun)].
  destruct (scan_lengths _ false) as [[|]|]; try exact (Hkeep _ Hrun).
  destruct (count_tensor_bins _ 1) as [T|]; [|exact (Hkeep _ Hrun)].
  destruct (weights (zero_intercept b)) as [w|]; [|exact (Hkeep _ Hrun)].
  destruct (scores (zero_intercept b)) as [sc|]; [|exact (Hkeep _ Hrun)].
  destruct (impurities (zero_intercept b)) as [im|]; [|exact (Hkeep _ Hrun)].
  destruct (PurifyInternal _ _ _ _ _ _ _) as [[e0 m]| |] eqn:Hcore; try discriminate.
  pose proof (PurifyInternal_error_none _ _ _ _ _ _ _ Hcore) as He0.
  apply PurifyInternal_intercept_log in Hcore. cbn [mInterceptOut] in Hcore.
  inversion Hrun; subst. cbn [interceptOut].
  destruct (interceptOut b) as [stores|].
  - rewrite Hz in Hcore. destruct Hcore as [Hsame|(v & Hv)]; [now left|right].
    split; [reflexivity|]. now exists v.
  - now rewrite Hz in Hcore.
Qed.
End EntryChecks.

(** The theorems about the entry point at concrete calls, with 63 for
    [k_cDimensionsMax]. *)

Lemma negative_length_rejected_witness :
  0 < 2 <= 63 /\ 63 < size_modulus /\
  Exists (fun len => len < 0) (firstn (Z.to_nat 2) [0; -1]) /\
  Purify 63 0 0%Q 2 (Some [0; -1]) (mkBuf None None None (Some []))
    = Done (Error_IllegalParamVal, mkBuf None None None (Some [0%Q])).
Proof.
  assert (Hc : 0 < 2 <= 63) by lia.
  assert (Hk : 63 < size_modulus) by reflexivity.
  assert (Hneg : Exists (fun len => len < 0) (firstn (Z.to_nat 2) [0; -1])).
  { apply Exists_cons_tl, Exists_cons_hd. reflexivity. }
  split; [exact Hc|]. split; [exact Hk|]. split; [exact Hneg|].
  exact (@negative_length_rejected Q Q_arith 63 0%nat 0%Q 2 [0; -1]
           (mkBuf None None None (Some [])) Hc Hk Hneg).
Defined.

Lemma overflowing_shape_out_of_memory_witness :
  0 < 3 <= 63 /\ 63 < size_modulus /\
  Forall (fun len => 0 < len) (firstn (Z.to_nat 3) [4294967296; 4294967296; 3]) /\
  size_modulus <= extent_product (firstn (Z.to_nat 3) [4294967296; 4294967296; 3]) /\
  Purify 63 0 0%Q 3 (Some [4294967296; 4294967296; 3]) (mkBuf (@None (list Q)) None None None)
    = Done (Error_OutOfMemory, mkBuf None None None None).
Proof.
  assert (Hc : 0 < 3 <= 63) by lia.
  assert (Hk : 63 < size_modulus) by reflexivity.
  assert (Hpos : Forall (fun len => 0 < len)
                   (firstn (Z.to_nat 3) [4294967296; 4294967296; 3]))
    by (repeat constructor).
  assert (Hbig : size_modulus
                 <= extent_product (firstn (Z.to_nat 3) [4294967296; 4294967296; 3]))
    by (vm_compute; discriminate).
  split; [exact Hc|]. split; [exact Hk|]. split; [exact Hpos|]. split; [exact Hbig|].
  exact (@overflowing_shape_out_of_memory Q Q_arith 63 0%nat 0%Q 3
           [4294967296; 4294967296; 3] (mkBuf None None None None) Hc Hk Hpos Hbig).
Defined.

Lemma null_buffer_rejected_witness :
  0 < 2 <= 63 /\ 63 < size_modulus /\
  Forall (fun len => 0 < len) (firstn (Z.to_nat 2) [2; 3]) /\
  extent_product (firstn (Z.to_nat 2) [2; 3]) < size_modulus /\
  Purify 63 0 0%Q 2 (Some [2; 3])
         (mkBuf (Some [1; 1; 1; 1; 1; 1]%Q) (Some [1; 2; 3; 4; 5; 6]%Q) None (Some []))
    = Done (Error_IllegalParamVal,
            mkBuf (Some [1; 1; 1; 1; 1; 1]%Q) (Some [1; 2; 3; 4; 5; 6]%Q) None (Some [0%Q])).
Proof.
  assert (Hc : 0 < 2 <= 63) by lia.
  assert (Hk : 63 < size_modulus) by reflexivity.
  assert (Hpos : Forall (fun len => 0 < len) (firstn (Z.to_nat 2) [2; 3]))
    by (repeat constructor).
  assert (Hfit : extent_product (firstn (Z.to_nat 2) [2; 3]) < size_modulus)
    by reflexivity.
  split; [exact Hc|]. split; [exact Hk|]. split; [exact Hpos|]. split; [exact Hfit|].
  exact (@null_buffer_rejected Q Q_arith 63 0%nat 0%Q 2 [2; 3]
           (mkBuf (Some [1; 1; 1; 1; 1; 1]%Q) (Some [1; 2; 3; 4; 5; 6]%Q) None (Some []))
           Hc Hk Hpos Hfit (or_intror (or_intror eq_refl))).
Defined.

Lemma checked_call_runs_core_witness :
  0 < 2 <= 63 /\ 63 < size_modulus /\
  Forall (fun len => 0 < len) (firstn (Z.to_nat 2) [2; 2]) /\
  extent_product (firstn (Z.to_nat 2) [2; 2]) < size_modulus /\
  valid_shape [2; 2] 4 /\
  Purify 63 10 (1 # 10)%Q 2 (Some [2; 2])
         (mkBuf (Some example_weights) (Some [1; 2; 3; 5]%Q) (Some [7; 7; 7; 7]%Q) (Some []))
    = Done (Error_None,
            mkBuf (Some example_weights) (Some (mScores example_result))
                  (Some (mImpurities example_result)) (mInterceptOut example_result)).
Proof.
  assert (Hc : 0 < 2 <= 63) by lia.
  assert (Hk : 63 < size_modulus) by reflexivity.
  assert (Hpos : Forall (fun len => 0 < len) (firstn (Z.to_nat 2) [2; 2]))
    by (repeat constructor).
  assert (Hfit : extent_product (firstn (Z.to_nat 2) [2; 2]) < size_modulus)
    by reflexivity.
  split; [exact Hc|]. split; [exact Hk|]. split; [exact Hpos|]. split; [exact Hfit|].
  destruct (@checked_call_runs_core Q Q_arith 63 10%nat (1 # 10)%Q 2 [2; 2]
              example_weights [1; 2; 3; 5]%Q [7; 7; 7; 7]%Q (Some []) Hc Hk Hpos Hfit)
    as (Hvalid & _ & Hcall).
  split; [exact Hvalid|].
  rewrite Hcall.
  change (PurifyInternal 10 (extent_product (firstn (Z.to_nat 2) [2; 2])) (1 # 10)%Q 2
            [2; 2] example_weights
            (mkMem [1; 2; 3; 5]%Q [7; 7; 7; 7]%Q (option_map (cons f0) (Some []))))
    with (PurifyInternal 10 4 (1 # 10)%Q 2 [2; 2] example_weights example_memory).
  rewrite example_run. reflexivity.
Defined.

Lemma error_return_leaves_buffers_witness :
  Purify 63 0 0%Q (-1) None (mkBuf (Some [1%Q]) (Some [2%Q]) (Some [3%Q]) (Some []))
    = Done (Error_IllegalParamVal,
            mkBuf (Some [1%Q]) (Some [2%Q]) (Some [3%Q]) (Some [0%Q])) /\
  Error_IllegalParamVal <> Error_None /\
  mkBuf (Some [1%Q]) (Some [2%Q]) (Some [3%Q]) (Some [0%Q])
    = zero_intercept (mkBuf (Some [1%Q]) (Some [2%Q]) (Some [3%Q]) (Some [])).
Proof.
  assert (Hrun : Purify 63 0 0%Q (-1) None
                   (mkBuf (Some [1%Q]) (Some [2%Q]) (Some [3%Q]) (Some []))
                 = Done (Error_IllegalParamVal,
                         mkBuf (Some [1%Q]) (Some [2%Q]) (Some [3%Q]) (Some [0%Q])))
    by reflexivity.
  assert (Herr : Error_IllegalParamVal <> Error_None) by discriminate.
  split; [exact Hrun|]. split; [exact Herr|].
  exact (@error_return_leaves_buffers Q Q_arith 63 0%nat 0%Q (-1) None _ _ _ Hrun Herr).
Defined.

Lemma intercept_out_stores_witness :
  Purify 63 10 (1 # 10)%Q 2 (Some [2; 2])
         (mkBuf (Some example_weights) (Some [1; 2; 3; 5]%Q) (Some [7; 7; 7; 7]%Q) (Some []))
    = Done (Error_None,
            mkBuf (Some example_weights) (Some (mScores example_result))
                  (Some (mImpurities example_result)) (mInterceptOut example_result)) /\
  (mInterceptOut example_result = Some [0%Q] \/
   (Error_None = Error_None /\
    exists v : Q, mInterceptOut example_result = Some [v; 0%Q])).
Proof.
  assert (Hrun :
    Purify 63 10 (1 # 10)%Q 2 (Some [2; 2])
           (mkBuf (Some example_weights) (Some [1; 2; 3; 5]%Q) (Some [7; 7; 7; 7]%Q) (Some []))
      = Done (Error_None,
              mkBuf (Some example_weights) (Some (mScores example_result))
                    (Some (mImpurities example_result)) (mInterceptOut example_result))).
  { vm_compute. reflexivity. }
  split; [exact Hrun|].
  exact (@intercept_out_stores Q Q_arith 63 10%nat (1 # 10)%Q 2 (Some [2; 2]) _ _ _ Hrun).
Defined.

(** ** The layout of the surface bins *)

Lemma split_at_dimension (lens : list Z) :
  forall d : nat,
    (d < length lens)%nat ->
    lens = firstn d lens ++ nth d lens 1 :: skipn (S d) lens /\
    length (firstn d lens) = d.
Proof.
  induction lens as [|a lens IH]; intros d Hd; cbn [length] in Hd; [lia|].
  destruct d as [|d]; [split; reflexivity|].
  destruct (IH d) as (Heq & Hlen); [lia|].
  cbn [firstn nth skipn app length]. split; [f_equal; exact Heq|f_equal; exact Hlen].
Qed.

Lemma firstn_prefix (A : Type) (p l : list A) : firstn (length p) (p ++ l) = p.
Proof. induction p as [|a p IH]; [reflexivity|]. cbn [length app firstn]. now rewrite IH. Qed.

Lemma firstn_prefix_succ (A : Type) (p : list A) (x : A) (q : list A) :
  firstn (S (length p)) (p ++ x :: q) = p ++ [x].
Proof.
  induction p as [|a p IH]; [reflexivity|].
  cbn [length app]. rewrite firstn_cons, IH. reflexivity.
Qed.

(** The ids of the surface bins that sweep the dimension after the prefix
    [p] of the shape. *)
Lemma dimension_ids (p : list Z) (n : Z) (q : list Z) (T : Z) :
  valid_shape (p ++ n :: q) T ->
  0 <= surface_bin_count p T /\
  surface_bin_count p T + extent_product p * extent_product q
    <= surface_bin_count (p ++ n :: q) T.
Proof.
  intros Hvalid.
  destruct (valid_shape_split _ _ _ Hvalid) as (Hp & Hn & Hq & HP & HQ & HT & HTn & _).
  assert (HT0 : 0 <= T) by nia.
  pose proof (surface_bin_count_nonneg HT0 Hp).
  pose proof (surface_bin_count_nonneg HT0 Hq).
  rewrite surface_bin_count_app, surface_bin_count_cons, HTn. lia.
Qed.

(** The decoding of the [r]-th surface bin of the dimension after the
    prefix [p]. *)
Lemma decode_at (p : list Z) (n : Z) (q : list Z) (T r : Z) :
  valid_shape (p ++ n :: q) T ->
  0 <= r < extent_product p * extent_product q ->
  decode (p ++ n :: q) T (surface_bin_count p T + r) =
    Some (mkSlice (length p) n (extent_product p)
            (r mod extent_product p + extent_product p * n * (r / extent_product p)) 0).
Proof.
  intros Hvalid Hr.
  destruct (dimension_ids _ _ _ Hvalid) as (Hlo & Hhi).
  assert (Hk : 0 <= surface_bin_count p T + r < surface_bin_count (p ++ n :: q) T) by lia.
  destruct (decode_spec Hvalid Hk) as (p' & n' & q' & Heq & Hr' & Hdec).
  assert (Hvalid' : valid_shape (p' ++ n' :: q') T) by (now rewrite <- Heq).
  destruct (valid_shape_split _ _ _ Hvalid') as (Hp' & _ & _ & _ & _ & _ & HTn' & _).
  destruct (valid_shape_split _ _ _ Hvalid) as (Hp & _ & _ & _ & _ & HT & HTn & _).
  assert (HT0 : 0 <= T).
  { pose proof (extent_product_pos (proj1 Hvalid)). destruct Hvalid as (_ & <- & _). lia. }
  assert (Hlen : length p = length p').
  { destruct (lt_eq_lt_dec (length p) (length p')) as [[Hlt|Heq']|Hgt]; [exfalso|exact Heq'|exfalso].
    - destruct (app_longer_prefix _ _ _ _ _ _ (eq_sym Heq) Hlt) as (t & Hp'eq).
      assert (Ht : 0 <= surface_bin_count t T).
      { rewrite Hp'eq in Hp'. apply Forall_app in Hp'. destruct Hp' as [_ Hnt].
        inversion Hnt; subst. now apply surface_bin_count_nonneg. }
      rewrite Hp'eq, surface_bin_count_app, surface_bin_count_cons, HTn in Hr'. lia.
    - destruct (app_longer_prefix _ _ _ _ _ _ Heq Hgt) as (t & Hpeq).
      assert (Ht : 0 <= surface_bin_count t T).
      { rewrite Hpeq in Hp. apply Forall_app in Hp. destruct Hp as [_ Hnt].
        inversion Hnt; subst. now apply surface_bin_count_nonneg. }
      rewrite Hpeq, surface_bin_count_app, surface_bin_count_cons, HTn' in Hr'. lia. }
  destruct (app_same_length _ _ _ _ _ _ Heq Hlen) as (<- & <- & <-).
  rewrite Hdec.
  replace (surface_bin_count p T + r - surface_bin_count p T) with r by ring.
  reflexivity.
Qed.

(** X8.  What a surface bin stands for: for a valid shape every surface
    bin id below the count decodes to a slice along one dimension [d] of
    the shape, with as many cells as the extent of [d], one stride apart,
    the stride being the product of the extents before [d]; the cells
    are distinct and lie inside the tensor, so the slice loops never
    touch memory outside the scores and weights. *)
Theorem surface_bin_slice_layout (lens : list Z) (cTensorBins iAllSurfaceBin : Z) :
  valid_shape lens cTensorBins ->
  0 <= iAllSurfaceBin < surface_bin_count lens cTensorBins ->
  exists s : slice,
    decode lens cTensorBins iAllSurfaceBin = Some s /\
    (iSweepDimension s < length lens)%nat /\
    cSweepBins s = nth (iSweepDimension s) lens 0 /\
    cTensorIncrement s = extent_product (firstn (iSweepDimension s) lens) /\
    slice_cells s =
      map (fun j => iTensor s + cTensorIncrement s * Z.of_nat j)
          (seq 0 (Z.to_nat (cSweepBins s))) /\
    NoDup (slice_cells s) /\
    forall i, In i (slice_cells s) -> 0 <= i < cTensorBins.
Proof.
  intros Hvalid Hk.
  destruct (decode_spec Hvalid Hk) as (p & n & q & Heq & _ & Hdec).
  destruct (decode_in_tensor Hvalid Hk) as (s & Hdec' & Hs & _).
  exists s. split; [exact Hdec'|].
  pose proof Hdec' as Es. rewrite Hdec in Es. injection Es as Es.
  assert (Hd : iSweepDimension s = length p) by (now rewrite <- Es).
  assert (Hn : cSweepBins s = n) by (now rewrite <- Es).
  assert (Hinc : cTensorIncrement s = extent_product p) by (now rewrite <- Es).
  split; [rewrite Hd, Heq, length_app; cbn [length]; lia|].
  split; [rewrite Hd, Hn, Heq; now rewrite nth_middle|].
  split; [rewrite Hd, Hinc, Heq; now rewrite firstn_prefix|].
  split; [now apply slice_cells_spec with cTensorBins|].
  split; [now apply slice_cells_NoDup with cTensorBins|].
  intros i Hi. now apply slice_cells_range with s.
Qed.

Lemma surface_bin_slice_layout_witness :
  valid_shape [4; 3; 2] 24 /\ 0 <= 17 < surface_bin_count [4; 3; 2] 24 /\
  exists s : slice,
    decode [4; 3; 2] 24 17 = Some s /\
    iSweepDimension s = 2%nat /\ cSweepBins s = 2 /\ cTensorIncrement s = 12 /\
    slice_cells s = [3; 15].
Proof.
  assert (Hv : valid_shape [4; 3; 2] 24).
  { split; [repeat constructor|split; reflexivity]. }
  assert (Hk : 0 <= 17 < surface_bin_count [4; 3; 2] 24) by (vm_compute; split; congruence).
  split; [exact Hv|]. split; [exact Hk|].
  destruct (surface_bin_slice_layout Hv Hk) as (s & Hdec & _).
  exists s. split; [exact Hdec|].
  vm_compute in Hdec. inversion Hdec. repeat split.
Defined.

(** X9.  The surface bins are numbered dimension by dimension: the bin
    ids that sweep dimension [d] follow the ids of the dimensions before
    [d], and there are [cTensorBins / extent] of them, so a pass handles
    every slice of dimension 0, then every slice of dimension 1, and so
    on. *)
Theorem surface_bins_by_dimension (lens : list Z) (cTensorBins iAllSurfaceBin : Z)
    (s : slice) :
  valid_shape lens cTensorBins ->
  0 <= iAllSurfaceBin < surface_bin_count lens cTensorBins ->
  decode lens cTensorBins iAllSurfaceBin = Some s ->
  let d := iSweepDimension s in
  surface_bin_count (firstn d lens) cTensorBins <= iAllSurfaceBin /\
  iAllSurfaceBin < surface_bin_count (firstn d lens) cTensorBins + cTensorBins / nth d lens 1 /\
  surface_bin_count (firstn (S d) lens) cTensorBins
    = surface_bin_count (firstn d lens) cTensorBins + cTensorBins / nth d lens 1 /\
  In iAllSurfaceBin (dimension_bins lens cTensorBins d).
Proof.
  intros Hvalid Hk Hdec d.
  destruct (decode_spec Hvalid Hk) as (p & n & q & Heq & Hr & Hdec').
  rewrite Hdec' in Hdec. inversion Hdec as [Es]. subst d. rewrite <- Es.
  cbn [iSweepDimension].
  assert (Hvalid' : valid_shape (p ++ n :: q) cTensorBins) by (now rewrite <- Heq).
  destruct (valid_shape_split _ _ _ Hvalid') as (_ & _ & _ & _ & _ & _ & HTn & _).
  rewrite Heq, firstn_prefix, firstn_prefix_succ, nth_middle, HTn.
  rewrite surface_bin_count_app, surface_bin_count_cons, HTn.
  change (surface_bin_count [] cTensorBins) with 0.
  split; [lia|]. split; [lia|]. split; [ring|].
  unfold dimension_bins. rewrite firstn_prefix, nth_middle, HTn.
  apply in_map_iff. exists (iAllSurfaceBin - surface_bin_count p cTensorBins).
  split; [ring|]. apply zrange_In. lia.
Qed.

Lemma surface_bins_by_dimension_witness :
  valid_shape [4; 3; 2] 24 /\ 0 <= 17 < surface_bin_count [4; 3; 2] 24 /\
  decode [4; 3; 2] 24 17 = Some (mkSlice 2 2 12 3 0) /\
  6 + 8 <= 17 /\ 17 < 6 + 8 + 12.
Proof.
  assert (Hv : valid_shape [4; 3; 2] 24).
  { split; [repeat constructor|split; reflexivity]. }
  assert (Hk : 0 <= 17 < surface_bin_count [4; 3; 2] 24) by (vm_compute; split; congruence).
  assert (Hd : decode [4; 3; 2] 24 17 = Some (mkSlice 2 2 12 3 0)) by reflexivity.
  split; [exact Hv|]. split; [exact Hk|]. split; [exact Hd|].
  destruct (surface_bins_by_dimension Hv Hk Hd) as (Hlo & Hhi & _).
  split; [exact Hlo|exact Hhi].
Defined.

(** ** The slices of one dimension *)

Lemma NoDup_flat_map (A B : Type) (f : A -> list B) (l : list A) :
  NoDup l ->
  (forall a, In a l -> NoDup (f a)) ->
  (forall a a' x, In a l -> In a' l -> In x (f a) -> In x (f a') -> a = a') ->
  NoDup (flat_map f l).
Proof.
  induction 1 as [|a l Hnotin Hnd IH]; intros Heach Hdisj; [constructor|].
  cbn [flat_map]. apply NoDup_app.
  - apply Heach. now left.
  - apply IH.
    + intros b Hb. apply Heach. now right.
    + intros b b' x Hb Hb'. apply Hdisj; now right.
  - intros x Hx Hx'. apply in_flat_map in Hx'. destruct Hx' as (b & Hb & Hxb).
    assert (a = b) by (apply (Hdisj a b x); auto; [now left|now right]).
    subst b. contradiction.
Qed.

(** A cell of the tensor lies on a slice of the dimension after the
    prefix [p]: the slice of the cross-section index that the cell's other
    coordinates make up. *)
Lemma cell_on_slice (p : list Z) (n : Z) (q : list Z) (T i : Z) :
  valid_shape (p ++ n :: q) T ->
  0 <= i < T ->
  exists (r : Z) (s : slice),
    0 <= r < extent_product p * extent_product q /\
    decode (p ++ n :: q) T (surface_bin_count p T + r) = Some s /\
    In i (slice_cells s).
Proof.
  intros Hvalid Hi.
  destruct (valid_shape_split _ _ _ Hvalid) as (_ & Hn & _ & HP & HQ & HT & _ & Hsz).
  remember (extent_product p) as P eqn:EP.
  remember (extent_product q) as Q eqn:EQ.
  pose proof (Z.mod_pos_bound i P HP) as Ha.
  pose proof (Z.div_mod i P ltac:(lia)) as Hi1.
  assert (Hb0 : 0 <= i / P) by (apply Z.div_pos; lia).
  pose proof (Z.mod_pos_bound (i / P) n Hn) as Hj.
  pose proof (Z.div_mod (i / P) n ltac:(lia)) as Hi2.
  assert (Hc0 : 0 <= i / P / n) by (apply Z.div_pos; lia).
  assert (Hc : i / P / n < Q).
  { rewrite Z.div_div by lia. apply Z.div_lt_upper_bound; [nia|]. rewrite HT in Hi. nia. }
  set (a := i mod P) in *. set (c := i / P / n) in *. set (j := (i / P) mod n) in *.
  assert (Hr : 0 <= a + P * c < P * Q).
  { split; [nia|].
    assert (P * c <= P * (Q - 1)) by (apply Z.mul_le_mono_nonneg_l; lia). nia. }
  assert (Hrm : (a + P * c) mod P = a).
  { symmetry. apply Z.mod_unique with c; [left; lia|ring]. }
  assert (Hrd : (a + P * c) / P = c).
  { symmetry. apply Z.div_unique with a; [left; lia|ring]. }
  exists (a + P * c). eexists.
  split; [exact Hr|]. split; [apply decode_at; [assumption|now rewrite <- EP, <- EQ]|].
  destruct (@decode_in_tensor (p ++ n :: q) T (surface_bin_count p T + (a + P * c)) Hvalid)
    as (s & Hdec & Hs & _).
  { destruct (dimension_ids _ _ _ Hvalid). rewrite <- EP, <- EQ in *. lia. }
  rewrite decode_at in Hdec by (try assumption; now rewrite <- EP, <- EQ).
  injection Hdec as Es. rewrite Es. rewrite (slice_cells_spec Hs). rewrite <- Es.
  cbn [iTensor cTensorIncrement cSweepBins]. rewrite <- EP, Hrm, Hrd.
  apply in_map_iff. exists (Z.to_nat j). split.
  - rewrite Z2Nat.id by lia.
    transitivity (P * (n * c + j) + a); [ring|].
    rewrite <- Hi2. symmetry. exact Hi1.
  - apply in_seq. lia.
Qed.

(** The surface bins that sweep dimension [d] decode to slices along [d]
    inside the tensor. *)
Lemma dimension_bins_decode (lens : list Z) (cTensorBins : Z) (d : nat) (k : Z) :
  valid_shape lens cTensorBins ->
  (d < length lens)%nat ->
  In k (dimension_bins lens cTensorBins d) ->
  0 <= k < surface_bin_count lens cTensorBins /\
  exists s : slice,
    decode lens cTensorBins k = Some s /\ iSweepDimension s = d /\
    slice_in_tensor cTensorBins s.
Proof.
  intros Hvalid Hd Hk.
  destruct (split_at_dimension lens Hd) as (Heq & Hlen).
  remember (firstn d lens) as p eqn:Ep.
  remember (nth d lens 1) as n eqn:En.
  remember (skipn (S d) lens) as q eqn:Eq.
  assert (Hvalid' : valid_shape (p ++ n :: q) cTensorBins) by (now rewrite <- Heq).
  destruct (valid_shape_split _ _ _ Hvalid') as (_ & _ & _ & _ & _ & _ & HTn & _).
  destruct (dimension_ids _ _ _ Hvalid') as (Hlo & Hhi).
  unfold dimension_bins in Hk. rewrite <- Ep, <- En, HTn in Hk.
  apply in_map_iff in Hk. destruct Hk as (r & <- & Hr). apply zrange_In in Hr.
  assert (Hk : 0 <= surface_bin_count p cTensorBins + r
               < surface_bin_count lens cTensorBins) by (rewrite Heq; lia).
  split; [exact Hk|].
  destruct (decode_in_tensor Hvalid Hk) as (s & Hdec & Hs & _).
  exists s. split; [exact Hdec|]. split; [|exact Hs].
  rewrite Heq, decode_at in Hdec by assumption.
  injection Hdec as <-. exact Hlen.
Qed.

Lemma dimension_cells_permutation (lens : list Z) (cTensorBins : Z) (d : nat) :
  valid_shape lens cTensorBins ->
  (d < length lens)%nat ->
  Permutation (bins_cells lens cTensorBins (dimension_bins lens cTensorBins d))
              (zrange cTensorBins).
Proof.
  intros Hvalid Hd.
  destruct (split_at_dimension lens Hd) as (Heq & Hlen).
  remember (firstn d lens) as p eqn:Ep.
  remember (nth d lens 1) as n eqn:En.
  remember (skipn (S d) lens) as q eqn:Eq.
  assert (Hvalid' : valid_shape (p ++ n :: q) cTensorBins) by (now rewrite <- Heq).
  destruct (valid_shape_split _ _ _ Hvalid') as (_ & Hn & _ & HP & HQ & HT & HTn & _).
  destruct (dimension_ids _ _ _ Hvalid') as (Hlo & Hhi).
  unfold bins_cells, dimension_bins. rewrite <- Ep, <- En, HTn.
  assert (Hbin : forall k,
            In k (map (fun r => surface_bin_count p cTensorBins + r)
                      (zrange (extent_product p * extent_product q))) ->
            exists r s,
              k = surface_bin_count p cTensorBins + r /\
              0 <= r < extent_product p * extent_product q /\
              0 <= k < surface_bin_count lens cTensorBins /\
              decode lens cTensorBins k = Some s /\
              iSweepDimension s = length p /\ slice_in_tensor cTensorBins s).
  { intros k Hk. apply in_map_iff in Hk. destruct Hk as (r & <- & Hr).
    apply zrange_In in Hr.
    assert (Hk : 0 <= surface_bin_count p cTensorBins + r
                 < surface_bin_count lens cTensorBins) by (rewrite Heq; lia).
    destruct (decode_in_tensor Hvalid Hk) as (s & Hdec & Hs & _).
    exists r, s. split; [reflexivity|]. split; [lia|]. split; [lia|].
    split; [exact Hdec|]. split; [|exact Hs].
    rewrite Heq, decode_at in Hdec by assumption.
    injection Hdec as <-. reflexivity. }
  apply NoDup_Permutation.
  - apply NoDup_flat_map.
    + apply Injective_map_NoDup; [|apply zrange_NoDup]. intros x y Hxy. lia.
    + intros k Hk. destruct (Hbin k Hk) as (r & s & _ & _ & _ & Hdec & _ & Hs).
      rewrite Hdec. now apply slice_cells_NoDup with cTensorBins.
    + intros k k' i Hk Hk' Hi Hi'.
      destruct (Hbin k Hk) as (r & s & _ & _ & Hkr & Hdec & Hdim & _).
      destruct (Hbin k' Hk') as (r' & s' & _ & _ & Hkr' & Hdec' & Hdim' & _).
      rewrite Hdec in Hi. rewrite Hdec' in Hi'.
      apply (@same_dimension_disjoint lens cTensorBins Hvalid k k' i s s'); auto.
      congruence.
  - apply zrange_NoDup.
  - intros i. rewrite in_flat_map, zrange_In. split.
    + intros (k & Hk & Hi).
      destruct (Hbin k Hk) as (r & s & _ & _ & _ & Hdec & _ & Hs).
      rewrite Hdec in Hi. now apply slice_cells_range with s.
    + intros Hi.
      destruct (@cell_on_slice p n q cTensorBins i Hvalid' Hi) as (r & s & Hr & Hdec & Hin).
      exists (surface_bin_count p cTensorBins + r). split.
      * apply in_map_iff. exists r. split; [reflexivity|]. now apply zrange_In.
      * rewrite Heq, Hdec. exact Hin.
Qed.

(** X10.  The slices of one dimension tile the tensor: for a valid shape
    and a dimension [d] of it, the cells visited for the surface bins that
    sweep [d], one slice after the other, are the cells [0 .. cTensorBins-1]
    in some order, each exactly once.  Within a pass every cell is thus
    read and updated exactly once for each dimension. *)
Theorem dimension_slices_tile_tensor (lens : list Z) (cTensorBins : Z) (d : nat) :
  valid_shape lens cTensorBins ->
  (d < length lens)%nat ->
  Permutation (bins_cells lens cTensorBins (dimension_bins lens cTensorBins d))
              (zrange cTensorBins) /\
  NoDup (bins_cells lens cTensorBins (dimension_bins lens cTensorBins d)) /\
  Z.of_nat (length (bins_cells lens cTensorBins (dimension_bins lens cTensorBins d)))
    = cTensorBins.
Proof.
  intros Hvalid Hd.
  pose proof (dimension_cells_permutation Hvalid Hd) as Hperm.
  split; [exact Hperm|]. split.
  - apply Permutation_NoDup with (zrange cTensorBins);
      [now apply Permutation_sym|apply zrange_NoDup].
  - rewrite (Permutation_length Hperm). unfold zrange.
    rewrite length_map, length_seq.
    destruct Hvalid as (Hpos & Hprod & _).
    pose proof (extent_product_pos Hpos). lia.
Qed.

Lemma dimension_slices_tile_tensor_witness :
  valid_shape [2; 3] 6 /\ (1 < length [2; 3])%nat /\
  bins_cells [2; 3] 6 (dimension_bins [2; 3] 6 1) = [0; 2; 4; 1; 3; 5] /\
  Permutation [0; 2; 4; 1; 3; 5] (zrange 6).
Proof.
  assert (Hv : valid_shape [2; 3] 6).
  { split; [repeat constructor|split; reflexivity]. }
  assert (Hd : (1 < length [2; 3])%nat) by (cbn; lia).
  split; [exact Hv|]. split; [exact Hd|]. split; [reflexivity|].
  exact (proj1 (dimension_slices_tile_tensor Hv Hd)).
Defined.

(** ** What the core leaves alone *)

Lemma skipn_upd (A : Type) (l : list A) :
  forall (n k : nat) (v : A), (k < n)%nat -> skipn n (upd l k v) = skipn n l.
Proof.
  induction l as [|a l IH]; intros n k v Hk; [reflexivity|].
  destruct n as [|n]; [lia|].
  destruct k as [|k]; cbn [upd skipn]; [reflexivity|].
  apply IH. lia.
Qed.

Lemma skipn_store (A : Type) (a : list A) (n : nat) (i : Z) (v : A) :
  i < Z.of_nat n -> skipn n (store a i v) = skipn n a.
Proof.
  intros Hi. unfold store. destruct (Z.ltb_spec i 0); [reflexivity|].
  apply skipn_upd. lia.
Qed.

Lemma count_surface_bins_le (lens : list Z) (T : Z) :
  valid_shape lens T ->
  0 <= count_surface_bins lens T <= surface_bin_count lens T.
Proof.
  intros Hvalid.
  assert (E : count_surface_bins lens T = wrap (surface_bin_count lens T)).
  { unfold count_surface_bins. change 0 with (wrap 0) at 1.
    rewrite count_surface_bins_wrap by (eapply valid_shape_extent_bound; eauto).
    now rewrite Z.add_0_l. }
  rewrite E.
  assert (H0 : 0 <= surface_bin_count lens T).
  { destruct Hvalid as (Hpos & Hprod & _).
    pose proof (extent_product_pos Hpos).
    apply surface_bin_count_nonneg; [lia|assumption]. }
  unfold wrap. pose proof size_modulus_pos as Hm.
  pose proof (Z.mod_pos_bound (surface_bin_count lens T) size_modulus Hm).
  pose proof (Z.mod_le (surface_bin_count lens T) size_modulus H0 Hm).
  lia.
Qed.

Section FrameFacts.
Context {F : Type} {AF : Arith F}.

Lemma fold_store_skipn (h : F -> F) (cells : list Z) (n : nat) :
  (forall c, In c cells -> c < Z.of_nat n) ->
  forall a : list F,
    skipn n (fold_left (fun a c => store a c (h (load f0 a c))) cells a) = skipn n a.
Proof.
  induction cells as [|c cells IH]; intros Hin a; [reflexivity|].
  cbn [fold_left]. rewrite IH by (intros c' Hc'; apply Hin; now right).
  apply skipn_store. apply Hin. now left.
Qed.

Lemma zrange_below (T c : Z) : In c (zrange T) -> c < Z.of_nat (Z.to_nat T).
Proof. intros Hc. apply zrange_In in Hc. lia. Qed.

Lemma memset_zero_skipn (S : Z) (a : list F) :
  0 <= S -> skipn (Z.to_nat S) (memset_zero S a) = skipn (Z.to_nat S) a.
Proof.
  intros HS. unfold memset_zero.
  apply (fold_store_skipn (fun _ => f0)).
  intros c Hc. apply zrange_In in Hc.
  pose proof size_modulus_pos as Hm.
  assert (Hw : wrap (S * 8) <= S * 8) by (apply Z.mod_le; lia).
  assert (Hd : wrap (S * 8) / 8 <= S).
  { apply Z.div_le_upper_bound; lia. }
  lia.
Qed.

(** A pass writes the scores of the tensor and the impurities of the
    surface bins, and nothing else. *)
Lemma purify_pass_frame (lens : list Z) (T S : Z) (w : list F) (M : F)
    (sc im : list F) (st : pass_state) :
  valid_shape lens T ->
  0 <= S <= surface_bin_count lens T ->
  purify_pass lens T S w M sc im = Some st ->
  length (aScores_of st) = length sc /\
  length (aImpurities_of st) = length im /\
  skipn (Z.to_nat T) (aScores_of st) = skipn (Z.to_nat T) sc /\
  skipn (Z.to_nat S) (aImpurities_of st) = skipn (Z.to_nat S) im.
Proof.
  intros Hvalid HS Hpass. unfold purify_pass in Hpass.
  destruct (@purify_bins_invariant F AF
              (fun st => length (aScores_of st) = length sc /\
                         length (aImpurities_of st) = length im /\
                         skipn (Z.to_nat T) (aScores_of st) = skipn (Z.to_nat T) sc /\
                         skipn (Z.to_nat S) (aImpurities_of st) = skipn (Z.to_nat S) im)
              lens T w M (zrange S) Hvalid)
    with (st := mkPass sc im f0 false) as (st' & Hrun & HP).
  - intros k Hk. apply zrange_In in Hk. lia.
  - intros st0 k s Hk Hdec Hs (H1 & H2 & H3 & H4).
    unfold purify_slice. cbn [aScores_of aImpurities_of].
    rewrite slice_update_length, store_length.
    split; [exact H1|]. split; [exact H2|]. split.
    + rewrite <- H3. apply (fold_store_skipn (fun x => fadd x _)).
      intros c Hc. pose proof (@slice_cells_range T s c Hs Hc). lia.
    + rewrite <- H4. apply skipn_store. apply zrange_In in Hk. lia.
  - cbn [aScores_of aImpurities_of]. auto.
  - rewrite Hrun in Hpass. now inversion Hpass; subst.
Qed.

(** X11.  What [PurifyInternal] writes: for a valid shape, whenever the
    call returns, the scores and impurities buffers have the lengths they
    had, every score from index [cTensorBins] on and every impurity from
    index [cSurfaceBins] on (the number of surface bins as the code counts
    them) is what it was before the call. *)
Theorem writes_stay_inside (fuel : nat) (cTensorBins : Z) (tolerance : F)
    (cDimensions : Z) (aDimensionLengths : list Z) (aWeights : list F)
    (m : memory) (e : ErrorEbm) (r : memory) :
  let lens := firstn (Z.to_nat cDimensions) aDimensionLengths in
  let cSurfaceBins := count_surface_bins lens cTensorBins in
  valid_shape lens cTensorBins ->
  PurifyInternal fuel cTensorBins tolerance cDimensions aDimensionLengths aWeights m
    = Done (e, r) ->
  length (mScores r) = length (mScores m) /\
  length (mImpurities r) = length (mImpurities m) /\
  skipn (Z.to_nat cTensorBins) (mScores r) = skipn (Z.to_nat cTensorBins) (mScores m) /\
  skipn (Z.to_nat cSurfaceBins) (mImpurities r)
    = skipn (Z.to_nat cSurfaceBins) (mImpurities m).
Proof.
  intros lens cSurfaceBins Hvalid Hrun.
  pose proof (count_surface_bins_le Hvalid) as HS. fold cSurfaceBins in HS.
  unfold PurifyInternal in Hrun. fold lens in Hrun.
  destruct (feqb f0 (weightTotalAll (sum_totals cTensorBins aWeights (mScores m)))).
  { inversion Hrun; subst. auto. }
  cbv zeta in Hrun. fold cSurfaceBins in Hrun.
  set (t := sum_totals cTensorBins aWeights (mScores m)) in *.
  set (M := fdiv (fmul (impurityMax0 t) tolerance) (weightTotalAll t)) in *.
  set (m1 := extract_intercept cTensorBins t m) in *.
  assert (Hm1 : length (mScores m1) = length (mScores m) /\
                mImpurities m1 = mImpurities m /\
                skipn (Z.to_nat cTensorBins) (mScores m1)
                  = skipn (Z.to_nat cTensorBins) (mScores m)).
  { subst m1. unfold extract_intercept.
    destruct (mInterceptOut m); cbn [mScores mImpurities]; auto.
    split; [apply subtract_intercept_length|]. split; [reflexivity|].
    apply (fold_store_skipn (fun x => fadd x _)). apply zrange_below. }
  destruct Hm1 as (Hl1 & Hi1 & Hs1).
  destruct (purify_loop fuel lens cTensorBins cSurfaceBins aWeights M None (mScores m1)
              (memset_zero cSurfaceBins (mImpurities m1)))
    as [[sc' im']| |] eqn:Hloop; try discriminate.
  inversion Hrun; subst e r; clear Hrun. cbn [mScores mImpurities].
  destruct (@purify_loop_last_pass F AF lens cTensorBins cSurfaceBins aWeights M
              (fun sc im =>
                 length sc = length (mScores m) /\
                 length im = length (mImpurities m) /\
                 skipn (Z.to_nat cTensorBins) sc = skipn (Z.to_nat cTensorBins) (mScores m) /\
                 skipn (Z.to_nat cSurfaceBins) im
                   = skipn (Z.to_nat cSurfaceBins) (mImpurities m)))
    with (fuel := fuel) (prev := @None F) (sc := mScores m1)
         (im := memset_zero cSurfaceBins (mImpurities m1)) (sc' := sc') (im' := im')
    as (prev & scIn & imIn & st & HI & Hpass & -> & -> & _).
  - intros sc im st (H1 & H2 & H3 & H4) Hpass.
    destruct (purify_pass_frame _ _ _ _ Hvalid HS Hpass) as (G1 & G2 & G3 & G4).
    repeat split; congruence.
  - rewrite memset_zero_length, memset_zero_skipn, Hi1 by lia. auto.
  - exact Hloop.
  - destruct HI as (H1 & H2 & H3 & H4).
    destruct (purify_pass_frame _ _ _ _ Hvalid HS Hpass) as (G1 & G2 & G3 & G4).
    repeat split; congruence.
Qed.
End FrameFacts.

Lemma writes_stay_inside_witness :
  valid_shape (firstn (Z.to_nat 2) [2; 2]) 4 /\
  PurifyInternal 10 4 (1 # 10)%Q 2 [2; 2] example_weights
                 (mkMem [1; 2; 3; 5; 9; 9]%Q [7; 7; 7; 7; 7]%Q (Some [0%Q]))
    = Done (Error_None,
            mkMem (mScores example_result ++ [9; 9]%Q)
                  (mImpurities example_result ++ [7%Q])
                  (mInterceptOut example_result)) /\
  skipn (Z.to_nat 4) (mScores example_result ++ [9; 9]%Q) = [9; 9]%Q /\
  skipn (Z.to_nat 4) (mImpurities example_result ++ [7%Q]) = [7%Q].
Proof.
  assert (Hrun :
    PurifyInternal 10 4 (1 # 10)%Q 2 [2; 2] example_weights
                   (mkMem [1; 2; 3; 5; 9; 9]%Q [7; 7; 7; 7; 7]%Q (Some [0%Q]))
      = Done (Error_None,
              mkMem (mScores example_result ++ [9; 9]%Q)
                    (mImpurities example_result ++ [7%Q])
                    (mInterceptOut example_result))).
  { vm_compute. reflexivity. }
  split; [exact example_valid_shape|]. split; [exact Hrun|].
  destruct (@writes_stay_inside Q Q_arith 10 4 (1 # 10)%Q 2 [2; 2] example_weights _ _ _
              example_valid_shape Hrun) as (_ & _ & Hsc & Him).
  split; [exact Hsc|exact Him].
Defined.

(** ** The impurities buffer is an output only *)

Section ImpuritiesContent.
Context {F : Type} {AF : Arith F}.

(** The scores a run of the loop returns, and whether it returns, do not
    depend on the content of the impurities buffer. *)
Lemma purify_loop_same_scores (lens : list Z) (T S : Z) (w : list F) (M : F)
    (fuel : nat) :
  forall (prev : option F) (sc im im' : list F),
    match purify_loop fuel lens T S w M prev sc im,
          purify_loop fuel lens T S w M prev sc im' with
    | Done (sc1, _), Done (sc2, _) => sc1 = sc2
    | Fault, Fault => True
    | OutOfFuel, OutOfFuel => True
    | _, _ => False
    end.
Proof.
  induction fuel as [|fuel IH]; intros prev sc im im'; [exact I|].
  cbn [purify_loop]. unfold purify_pass.
  pose proof (@purify_bins_same_control F AF lens T w M (zrange S)
                (mkPass sc im f0 false) (mkPass sc im' f0 false)) as H.
  destruct (purify_bins lens T w M (zrange S) (mkPass sc im f0 false)) as [a|];
    destruct (purify_bins lens T w M (zrange S) (mkPass sc im' f0 false)) as [b|];
    try (exfalso; apply H; repeat split); [|exact I].
  destruct H as (Hsc & Hcur & Hretry); [repeat split|].
  rewrite <- Hcur, <- Hretry.
  destruct (not_improved prev (impurityCur a)); [exact Hsc|].
  destruct (bRetry a); [|exact Hsc].
  rewrite <- Hsc. apply IH.
Qed.

(** X12.  The impurities buffer is never an input: the scores a call
    leaves, the stores through [pInterceptOut], the error code, and
    whether the call returns at all, are the same whatever the impurities
    buffer holds on entry. *)
Theorem scores_ignore_impurities_content (fuel : nat) (cTensorBins : Z) (tolerance : F)
    (cDimensions : Z) (aDimensionLengths : list Z) (aWeights aScores : list F)
    (aImpurities aImpurities' : list F) (pInterceptOut : option (list F)) :
  match PurifyInternal fuel cTensorBins tolerance cDimensions aDimensionLengths aWeights
          (mkMem aScores aImpurities pInterceptOut),
        PurifyInternal fuel cTensorBins tolerance cDimensions aDimensionLengths aWeights
          (mkMem aScores aImpurities' pInterceptOut) with
  | Done (e, r), Done (e', r') =>
      e = e' /\ mScores r = mScores r' /\ mInterceptOut r = mInterceptOut r'
  | Fault, Fault => True
  | OutOfFuel, OutOfFuel => True
  | _, _ => False
  end.
Proof.
  unfold PurifyInternal. cbn [mScores].
  destruct (feqb f0 (weightTotalAll (sum_totals cTensorBins aWeights aScores)));
    [repeat split|].
  cbv zeta.
  set (lens := firstn (Z.to_nat cDimensions) aDimensionLengths).
  set (t := sum_totals cTensorBins aWeights aScores).
  assert (Hsc : mScores (extract_intercept cTensorBins t
                           (mkMem aScores aImpurities pInterceptOut))
                = mScores (extract_intercept cTensorBins t
                             (mkMem aScores aImpurities' pInterceptOut)))
    by (unfold extract_intercept; now destruct pInterceptOut).
  assert (Hio : mInterceptOut (extract_intercept cTensorBins t
                                 (mkMem aScores aImpurities pInterceptOut))
                = mInterceptOut (extract_intercept cTensorBins t
                                   (mkMem aScores aImpurities' pInterceptOut)))
    by (unfold extract_intercept; now destruct pInterceptOut).
  rewrite <- Hsc, <- Hio.
  set (S := count_surface_bins lens cTensorBins).
  pose proof (purify_loop_same_scores lens cTensorBins S aWeights
                (fdiv (fmul (impurityMax0 t) tolerance) (weightTotalAll t)) fuel None
                (mScores (extract_intercept cTensorBins t
                            (mkMem aScores aImpurities pInterceptOut)))
                (memset_zero S (mImpurities (extract_intercept cTensorBins t
                                               (mkMem aScores aImpurities pInterceptOut))))
                (memset_zero S (mImpurities (extract_intercept cTensorBins t
                                               (mkMem aScores aImpurities' pInterceptOut)))))
    as H.
  destruct (purify_loop _ _ _ _ _ _ _ _ _) as [[sc1 im1]| |];
    destruct (purify_loop _ _ _ _ _ _ _ _ _) as [[sc2 im2]| |];
    try contradiction; try exact I.
  cbn [mScores mInterceptOut]. auto.
Qed.

Lemma count_surface_bins_nonneg (lens : list Z) (T : Z) :
  0 <= count_surface_bins lens T.
Proof.
  unfold count_surface_bins.
  assert (H : forall c, 0 <= c ->
            0 <= fold_left (fun cSurfaceBins len => wrap (cSurfaceBins + T / to_size_t len))
                           lens c).
  { induction lens as [|len lens IH]; intros c Hc; [exact Hc|].
    cbn [fold_left]. apply IH. unfold wrap.
    apply Z.mod_pos_bound. exact size_modulus_pos. }
  apply H. lia.
Qed.

(** [memset] makes the content of the cells it covers irrelevant. *)
Lemma memset_zero_forgets (S : Z) (im im' : list F) :
  0 <= S -> S * 8 < size_modulus ->
  S <= Z.of_nat (length im) ->
  length im = length im' ->
  skipn (Z.to_nat S) im = skipn (Z.to_nat S) im' ->
  memset_zero S im = memset_zero S im'.
Proof.
  intros HS Hbytes Hlen Hsame Hrest.
  apply (nth_ext _ _ f0 f0); [now rewrite !memset_zero_length|].
  intros n Hn. rewrite memset_zero_length in Hn.
  destruct (Z_lt_le_dec (Z.of_nat n) S) as [Hlt|Hge].
  - pose proof (@memset_zero_load F AF S im (Z.of_nat n) HS Hbytes Hlen) as H1.
    pose proof (@memset_zero_load F AF S im' (Z.of_nat n) HS Hbytes) as H2.
    unfold load in H1, H2. rewrite Nat2Z.id in H1, H2.
    rewrite H1, H2 by lia. reflexivity.
  - assert (E : forall a : list F,
               nth n (memset_zero S a) f0 = nth (n - Z.to_nat S) (skipn (Z.to_nat S) a) f0).
    { intros a. rewrite <- (memset_zero_skipn a HS), nth_skipn. f_equal. lia. }
    now rewrite !E, Hrest.
Qed.

(** X13.  The caller need not clear the impurities buffer: with weights
    whose sum is not zero, the whole result of a call (scores, impurities,
    intercept) is the same for two impurities buffers of one length that
    agree from index [cSurfaceBins] on; in particular for any two buffers
    of exactly [cSurfaceBins] entries. *)
Theorem impurities_need_no_initialisation (fuel : nat) (cTensorBins : Z) (tolerance : F)
    (cDimensions : Z) (aDimensionLengths : list Z) (aWeights aScores : list F)
    (aImpurities aImpurities' : list F) (pInterceptOut : option (list F)) :
  let cSurfaceBins :=
    count_surface_bins (firstn (Z.to_nat cDimensions) aDimensionLengths) cTensorBins in
  feqb f0 (weight_sum cTensorBins aWeights) = false ->
  cSurfaceBins * 8 < size_modulus ->
  cSurfaceBins <= Z.of_nat (length aImpurities) ->
  length aImpurities = length aImpurities' ->
  skipn (Z.to_nat cSurfaceBins) aImpurities = skipn (Z.to_nat cSurfaceBins) aImpurities' ->
  PurifyInternal fuel cTensorBins tolerance cDimensions aDimensionLengths aWeights
    (mkMem aScores aImpurities pInterceptOut)
  = PurifyInternal fuel cTensorBins tolerance cDimensions aDimensionLengths aWeights
      (mkMem aScores aImpurities' pInterceptOut).
Proof.
  intros cSurfaceBins Hw Hbytes Hlen Hsame Hrest.
  rewrite !PurifyInternal_passes by (cbn [mScores]; exact Hw).
  cbv zeta. fold cSurfaceBins.
  assert (Hmem : forall im,
            mImpurities (extract_intercept cTensorBins
                           (sum_totals cTensorBins aWeights aScores)
                           (mkMem aScores im pInterceptOut)) = im)
    by (intros im; unfold extract_intercept; now destruct pInterceptOut).
  cbn [mScores] in *. rewrite !Hmem.
  rewrite (@memset_zero_forgets cSurfaceBins aImpurities aImpurities');
    auto; [|apply count_surface_bins_nonneg].
  unfold extract_intercept. destruct pInterceptOut; reflexivity.
Qed.
End ImpuritiesContent.

Lemma impurities_need_no_initialisation_witness :
  feqb f0 (weight_sum 4 example_weights) = false /\
  count_surface_bins (firstn (Z.to_nat 2) [2; 2]) 4 * 8 < size_modulus /\
  count_surface_bins (firstn (Z.to_nat 2) [2; 2]) 4 <= Z.of_nat (length [7; 7; 7; 7]%Q) /\
  PurifyInternal 10 4 (1 # 10)%Q 2 [2; 2] example_weights
                 (mkMem [1; 2; 3; 5]%Q [7; 7; 7; 7]%Q (Some [0%Q]))
  = PurifyInternal 10 4 (1 # 10)%Q 2 [2; 2] example_weights
                   (mkMem [1; 2; 3; 5]%Q [-1; 0; 1 # 3; 8]%Q (Some [0%Q])).
Proof.
  assert (Hw : feqb f0 (weight_sum 4 example_weights) = false) by reflexivity.
  assert (Hb : count_surface_bins (firstn (Z.to_nat 2) [2; 2]) 4 * 8 < size_modulus)
    by reflexivity.
  assert (Hl : count_surface_bins (firstn (Z.to_nat 2) [2; 2]) 4
               <= Z.of_nat (length [7; 7; 7; 7]%Q)) by (vm_compute; discriminate).
  split; [exact Hw|]. split; [exact Hb|]. split; [exact Hl|].
  exact (@impurities_need_no_initialisation Q Q_arith 10 4 (1 # 10)%Q 2 [2; 2]
           example_weights [1; 2; 3; 5]%Q [7; 7; 7; 7]%Q [-1; 0; 1 # 3; 8]%Q (Some [0%Q])
           Hw Hb Hl eq_refl eq_refl).
Defined.

(** ** Exact arithmetic: the totals of the passes *)

Section PassesFacts.
Context {F : Type} {AF : Arith F}.
Variables (lens : list Z) (T S : Z) (w : list F) (M : F).

Lemma passes_step (n : nat) (prev : option F) (sc im : list F) :
  passes (Datatypes.S n) lens T S w M prev sc im =
    match purify_pass lens T S w M sc im with
    | None => None
    | Some st =>
        if not_improved prev (impurityCur st) then None
        else if bRetry st then
          passes n lens T S w M (Some (impurityCur st)) (aScores_of st) (aImpurities_of st)
        else None
    end.
Proof. reflexivity. Qed.

(** The state after one more pass is the state after the passes so far,
    followed by one pass. *)
Lemma passes_last (n : nat) :
  forall (prev : option F) (sc im : list F),
    passes (Datatypes.S n) lens T S w M prev sc im =
      match passes n lens T S w M prev sc im with
      | Some (prev', sc', im') => passes 1 lens T S w M prev' sc' im'
      | None => None
      end.
Proof.
  induction n as [|n IH]; intros prev sc im; [reflexivity|].
  rewrite (passes_step (Datatypes.S n)).
  rewrite (passes_step n prev).
  destruct (purify_pass lens T S w M sc im) as [st|]; [|reflexivity].
  destruct (not_improved prev (impurityCur st)); [reflexivity|].
  destruct (bRetry st); [|reflexivity].
  apply IH.
Qed.

(** Once the loop was left, it stays left. *)
Lemma passes_none_later (n k : nat) (prev : option F) (sc im : list F) :
  passes n lens T S w M prev sc im = None ->
  passes (k + n) lens T S w M prev sc im = None.
Proof.
  intros Hn. induction k as [|k IH]; [exact Hn|].
  cbn [Nat.add]. now rewrite passes_last, IH.
Qed.

(** A loop that was left within [n] passes has ended when [n] passes are
    granted. *)
Lemma passes_none_loop_ends (n : nat) :
  forall (prev : option F) (sc im : list F),
    passes n lens T S w M prev sc im = None ->
    purify_loop n lens T S w M prev sc im <> OutOfFuel.
Proof.
  induction n as [|n IH]; intros prev sc im Hn; [discriminate|].
  rewrite passes_step in Hn. cbn [purify_loop].
  destruct (purify_pass lens T S w M sc im) as [st|]; [|discriminate].
  destruct (not_improved prev (impurityCur st)); [discriminate|].
  destruct (bRetry st); [|discriminate].
  now apply IH.
Qed.
End PassesFacts.

Lemma purify_bins_total_nonneg (lens : list Z) (T : Z) (w : list Q) (M : Q)
    (bins : list Z) :
  forall st st' : pass_state,
    purify_bins lens T w M bins st = Some st' ->
    (0 <= impurityCur st)%Q -> (0 <= impurityCur st')%Q.
Proof.
  induction bins as [|k bins IH]; intros st st' Hrun H0.
  - inversion Hrun; subst. exact H0.
  - rewrite purify_bins_cons in Hrun.
    destruct (purify_bin lens T w M st k) as [st1|] eqn:Hbin; [|discriminate].
    apply (IH st1 st' Hrun).
    unfold purify_bin in Hbin. destruct (decode lens T k); [|discriminate].
    inversion Hbin; subst. unfold purify_slice. cbn [impurityCur]. qarith.
    pose proof (Qabs_nonneg (slice_impurity w (aScores_of st) (slice_cells s))).
    lra.
Qed.

(** X14.  In exact arithmetic, as long as the loop goes on, the total
    absolute impurity of a pass is not negative and is strictly below the
    total of the pass before it: the totals of the passes that do not end
    the loop form a strictly decreasing sequence. *)
Theorem pass_totals_decrease (lens : list Z) (cTensorBins cSurfaceBins : Z)
    (aWeights : list Q) (impurityMax : Q) (n : nat) (aScores aImpurities : list Q)
    (impurityPrev1 impurityPrev2 : option Q) (sc1 im1 sc2 im2 : list Q) :
  passes (S n) lens cTensorBins cSurfaceBins aWeights impurityMax None aScores aImpurities
    = Some (impurityPrev1, sc1, im1) ->
  passes (S (S n)) lens cTensorBins cSurfaceBins aWeights impurityMax None
         aScores aImpurities
    = Some (impurityPrev2, sc2, im2) ->
  exists c1 c2 : Q,
    impurityPrev1 = Some c1 /\ impurityPrev2 = Some c2 /\ (0 <= c2 < c1)%Q.
Proof.
  intros H1 H2.
  rewrite passes_last in H2. rewrite H1 in H2.
  rewrite passes_last in H1.
  destruct (passes n lens cTensorBins cSurfaceBins aWeights impurityMax None
              aScores aImpurities) as [[[prev0 sc0] im0]|]; [|discriminate].
  cbn [passes] in H1, H2.
  destruct (purify_pass lens cTensorBins cSurfaceBins aWeights impurityMax sc0 im0)
    as [st1|]; [|discriminate].
  destruct (not_improved prev0 (impurityCur st1)); [discriminate|].
  destruct (bRetry st1); [|discriminate].
  inversion H1; subst impurityPrev1 sc1 im1. clear H1.
  destruct (purify_pass lens cTensorBins cSurfaceBins aWeights impurityMax
              (aScores_of st1) (aImpurities_of st1)) as [st2|] eqn:Hpass; [|discriminate].
  destruct (not_improved (Some (impurityCur st1)) (impurityCur st2)) eqn:Hguard;
    [discriminate|].
  destruct (bRetry st2); [|discriminate].
  inversion H2; subst impurityPrev2 sc2 im2. clear H2.
  exists (impurityCur st1), (impurityCur st2).
  split; [reflexivity|]. split; [reflexivity|]. split.
  - unfold purify_pass in Hpass.
    apply (purify_bins_total_nonneg _ _ _ _ _ _ Hpass). cbn [impurityCur]. qarith. lra.
  - cbn [not_improved] in Hguard. qarith.
    apply Qnot_le_lt. intros Hle. apply Qle_bool_iff in Hle. congruence.
Qed.

Lemma pass_totals_decrease_witness :
  exists (p1 : option Q) (sc1 im1 : list Q) (p2 : option Q) (sc2 im2 : list Q),
    passes 1 [2; 2] 4 4 example_weights 0%Q None [1; 2; 3; 5]%Q [0; 0; 0; 0]%Q
      = Some (p1, sc1, im1) /\
    passes 2 [2; 2] 4 4 example_weights 0%Q None [1; 2; 3; 5]%Q [0; 0; 0; 0]%Q
      = Some (p2, sc2, im2) /\
    exists c1 c2 : Q, p1 = Some c1 /\ p2 = Some c2 /\ (0 <= c2 < c1)%Q.
Proof.
  destruct (passes 1 [2; 2] 4 4 example_weights 0%Q None [1; 2; 3; 5]%Q [0; 0; 0; 0]%Q)
    as [[[p1 sc1] im1]|] eqn:H1; [|vm_compute in H1; discriminate].
  destruct (passes 2 [2; 2] 4 4 example_weights 0%Q None [1; 2; 3; 5]%Q [0; 0; 0; 0]%Q)
    as [[[p2 sc2] im2]|] eqn:H2; [|vm_compute in H2; discriminate].
  exists p1, sc1, im1, p2, sc2, im2.
  split; [reflexivity|]. split; [reflexivity|].
  exact (pass_totals_decrease _ _ _ _ _ _ _ _ H1 H2).
Defined.

(** ** Exact arithmetic: the residual over the whole tensor *)

Lemma sumQ_Permutation (l l' : list Q) : Permutation l l' -> (sumQ l == sumQ l')%Q.
Proof.
  induction 1 as [|x l l' _ IH|x y l|l l' l'' _ IH1 _ IH2].
  - reflexivity.
  - rewrite !sumQ_cons, IH. reflexivity.
  - rewrite !sumQ_cons. ring.
  - now rewrite IH1.
Qed.

Lemma sumQ_flat_map (g : Z -> Q) (f : Z -> list Z) (l : list Z) :
  (sumQ (map g (flat_map f l)) == sumQ (map (fun a => sumQ (map g (f a))) l))%Q.
Proof.
  induction l as [|a l IH]; [reflexivity|].
  cbn [flat_map map]. rewrite map_app, sumQ_app, sumQ_cons, IH. reflexivity.
Qed.

Lemma sumQ_all_zero (f : Z -> Q) (l : list Z) :
  (forall a, In a l -> (f a == 0)%Q) -> (sumQ (map f l) == 0)%Q.
Proof.
  induction l as [|a l IH]; intros Hz; [reflexivity|].
  cbn [map]. rewrite sumQ_cons, IH, (Hz a) by (intros; auto with datatypes);
    auto with datatypes. ring.
Qed.

Section LastDimension.
Variables (lens : list Z) (T : Z) (w : list Q) (M : Q).
Hypothesis Hvalid : valid_shape lens T.
Hypothesis Hnn : nonneg_weights T w.

(** The surface bins whose slices do not hold cell [i] leave its score
    alone. *)
Lemma purify_bins_cell_kept (i : Z) (bins : list Z) :
  0 <= i ->
  (forall k, In k bins -> 0 <= k < surface_bin_count lens T) ->
  (forall k s, In k bins -> decode lens T k = Some s -> ~ In i (slice_cells s)) ->
  forall st st' : pass_state,
    Z.of_nat (length (aScores_of st)) = T ->
    purify_bins lens T w M bins st = Some st' ->
    Z.of_nat (length (aScores_of st')) = T /\
    load 0%Q (aScores_of st') i = load 0%Q (aScores_of st) i.
Proof.
  intros Hi. induction bins as [|k bins IH]; intros Hrange Hout st st' Hlen Hrun.
  - inversion Hrun; subst. auto.
  - rewrite purify_bins_cons in Hrun.
    destruct (@purify_bin_valid Q Q_arith lens T w M st k Hvalid) as (s & Hdec & Hs & Hbin);
      [apply Hrange; now left|].
    rewrite Hbin in Hrun.
    assert (Hlen1 : Z.of_nat (length (aScores_of (purify_slice w M st k (slice_cells s)))) = T).
    { unfold purify_slice. cbn [aScores_of]. now rewrite slice_update_length. }
    destruct (IH (fun j Hj => Hrange j (or_intror Hj))
                 (fun j s' Hj => Hout j s' (or_intror Hj)) _ st' Hlen1 Hrun)
      as (Hlen' & Hload).
    split; [exact Hlen'|]. rewrite Hload.
    unfold purify_slice. cbn [aScores_of].
    rewrite slice_update_load_Q;
      [|eapply slice_cells_NoDup; eauto
       |intros c Hc; rewrite Hlen; eapply slice_cells_range; eauto
       |exact Hi].
    assert (Hex : existsb (Z.eqb i) (slice_cells s) = false).
    { apply not_true_is_false. intros Hex. apply existsb_exists in Hex.
      destruct Hex as (x & Hx & Hxi). apply Z.eqb_eq in Hxi. subst x.
      exact (Hout k s (or_introl eq_refl) Hdec Hx). }
    now rewrite Hex.
Qed.

(** Right after a slice was purified its weighted sum is zero, also when
    the slice has no weight. *)
Lemma purify_slice_sum_zero_any (st : pass_state) (k : Z) (s : slice) :
  slice_in_tensor T s ->
  Z.of_nat (length (aScores_of st)) = T ->
  (slice_weighted_sum w (aScores_of (purify_slice w M st k (slice_cells s)))
                      (slice_cells s) == 0)%Q.
Proof.
  intros Hs Hlen.
  destruct (Qeq_dec (slice_weight w (slice_cells s)) 0) as [Hzero|Hpos].
  - apply slice_mean_zero_sum.
    + intros i Hi. apply Hnn. eapply slice_cells_range; eauto.
    + unfold slice_mean.
      assert (E : Qeq_bool (slice_weight w (slice_cells s)) 0 = true)
        by (now apply Qeq_bool_iff).
      now rewrite E.
  - now apply (@purify_slice_sum_zero T w M 0%nat st k s).
Qed.

(** After a pass, the slices along the last dimension have a weighted sum
    of zero: no later slice of the pass touches their cells. *)
Lemma purify_pass_last_dimension (sc im : list Q) (st : pass_state) (k : Z) (s : slice) :
  Z.of_nat (length sc) = T ->
  purify_pass lens T (surface_bin_count lens T) w M sc im = Some st ->
  0 <= k < surface_bin_count lens T ->
  decode lens T k = Some s ->
  iSweepDimension s = (length lens - 1)%nat ->
  (slice_weighted_sum w (aScores_of st) (slice_cells s) == 0)%Q.
Proof.
  intros Hlen Hpass Hk Hdec Hlast.
  destruct (zrange_split_sorted Hk) as (suf & Hsplit & _ & Hsuf).
  unfold purify_pass in Hpass. rewrite Hsplit, purify_bins_app in Hpass.
  destruct (purify_bins lens T w M (zrange k) (mkPass sc im f0 false)) as [stk|] eqn:Hpre;
    [|discriminate].
  assert (Hlenk : Z.of_nat (length (aScores_of stk)) = T).
  { destruct (@purify_bins_invariant Q Q_arith
                (fun st0 => Z.of_nat (length (aScores_of st0)) = T)
                lens T w M (zrange k) Hvalid)
      with (st := mkPass sc im f0 false) as (st0 & Hrun0 & Hlen0).
    - intros j Hj. apply zrange_In in Hj. lia.
    - intros st0 j s0 _ _ _ H0. unfold purify_slice. cbn [aScores_of].
      now rewrite slice_update_length.
    - exact Hlen.
    - rewrite Hpre in Hrun0. now inversion Hrun0; subst. }
  rewrite purify_bins_cons in Hpass.
  destruct (@purify_bin_valid Q Q_arith lens T w M stk k Hvalid Hk) as (s1 & Hdec1 & Hs & Hbin).
  assert (s1 = s) by congruence. subst s1.
  rewrite Hbin in Hpass.
  set (st1 := purify_slice w M stk k (slice_cells s)) in *.
  assert (Hlen1 : Z.of_nat (length (aScores_of st1)) = T).
  { unfold st1, purify_slice. cbn [aScores_of]. now rewrite slice_update_length. }
  rewrite (@slice_weighted_sum_ext w (aScores_of st) (aScores_of st1)).
  - apply purify_slice_sum_zero_any; assumption.
  - intros i Hi.
    pose proof (@slice_cells_range T s i Hs Hi) as Hirange.
    destruct (@purify_bins_cell_kept i suf) with (st := st1) (st' := st) as (_ & Hload);
      try assumption; try lia.
    + intros j Hj. specialize (Hsuf j Hj). lia.
    + intros j s' Hj Hdec' Hin.
      specialize (Hsuf j Hj).
      assert (Hjr : 0 <= j < surface_bin_count lens T) by lia.
      pose proof (@dimension_monotone lens T Hvalid k j s s' Hk Hjr Hdec Hdec'
                    ltac:(lia)) as Hmono.
      pose proof (@dimension_in_shape lens T Hvalid j s' Hjr Hdec') as Hin_shape.
      assert (Hsame : iSweepDimension s = iSweepDimension s') by lia.
      pose proof (@same_dimension_disjoint lens T Hvalid k j i s s' Hk Hjr Hdec Hdec'
                    Hsame Hi Hin).
      lia.
    + now rewrite Hload.
Qed.

(** After a pass the weighted sum of the scores over the whole tensor is
    zero. *)
Lemma purify_pass_total_zero (sc im : list Q) (st : pass_state) :
  (0 < length lens)%nat ->
  Z.of_nat (length sc) = T ->
  purify_pass lens T (surface_bin_count lens T) w M sc im = Some st ->
  (weighted_score_sum T w (aScores_of st) == 0)%Q.
Proof.
  intros HD Hlen Hpass.
  assert (Hd : (length lens - 1 < length lens)%nat) by lia.
  rewrite weighted_score_sum_sumQ.
  rewrite <- (sumQ_Permutation
                (Permutation_map _ (dimension_cells_permutation Hvalid Hd))).
  unfold bins_cells. rewrite sumQ_flat_map.
  apply sumQ_all_zero. intros k Hk.
  destruct (dimension_bins_decode k Hvalid Hd Hk) as (Hkr & s & Hdec & Hdim & _).
  rewrite Hdec.
  exact (@purify_pass_last_dimension sc im st k s Hlen Hpass Hkr Hdec Hdim).
Qed.
End LastDimension.

(** The scores a call returns are the scores of a pass over buffers of
    the size of the tensor. *)
Lemma returned_scores_of_pass (fuel : nat) (T : Z) (tolerance : Q) (D : Z)
    (aLens : list Z) (w : list Q) (m : memory) (e : ErrorEbm) (r : memory) :
  valid_shape (firstn (Z.to_nat D) aLens) T ->
  surface_bin_count (firstn (Z.to_nat D) aLens) T < size_modulus ->
  Z.of_nat (length (mScores m)) = T ->
  ~ (weight_sum T w == 0)%Q ->
  PurifyInternal fuel T tolerance D aLens w m = Done (e, r) ->
  exists (scIn imIn : list Q) (st : pass_state),
    Z.of_nat (length scIn) = T /\
    purify_pass (firstn (Z.to_nat D) aLens) T
                (surface_bin_count (firstn (Z.to_nat D) aLens) T) w
                (impurity_threshold T tolerance w (mScores m)) scIn imIn = Some st /\
    mScores r = aScores_of st.
Proof.
  intros Hvalid HS Hlen Hw Hrun.
  set (lens := firstn (Z.to_nat D) aLens) in *.
  set (cSurfaceBins := surface_bin_count lens T) in *.
  assert (HSc : count_surface_bins lens T = cSurfaceBins)
    by (apply count_surface_bins_exact; assumption).
  rewrite PurifyInternal_passes in Hrun
    by (apply Qeq_bool_false_iff; intros H0; apply Hw; now symmetry).
  fold lens in Hrun. cbv zeta in Hrun. rewrite HSc in Hrun.
  set (M := impurity_threshold T tolerance w (mScores m)) in *.
  set (m1 := extract_intercept T (sum_totals T w (mScores m)) m) in *.
  assert (Hm1len : Z.of_nat (length (mScores m1)) = T).
  { subst m1. unfold extract_intercept.
    destruct (mInterceptOut m); cbn [mScores]; auto.
    now rewrite subtract_intercept_length. }
  destruct (purify_loop fuel lens T cSurfaceBins w M None
              (mScores m1) (memset_zero cSurfaceBins (mImpurities m1)))
    as [[sc' im']| |] eqn:Hloop; try discriminate.
  inversion Hrun; subst e r; clear Hrun. cbn [mScores].
  assert (HSle : 0 <= cSurfaceBins <= surface_bin_count lens T).
  { split; [|reflexivity]. rewrite <- HSc. apply count_surface_bins_nonneg. }
  destruct (@purify_loop_last_pass Q Q_arith lens T cSurfaceBins w M
              (fun sc im => Z.of_nat (length sc) = T))
    with (fuel := fuel) (prev := @None Q) (sc := mScores m1)
         (im := memset_zero cSurfaceBins (mImpurities m1)) (sc' := sc') (im' := im')
    as (prev & scIn & imIn & st & HscIn & Hpass & -> & _ & _); auto.
  { intros sc im st Hsc Hpass.
    destruct (purify_pass_frame _ _ _ _ Hvalid HSle Hpass) as (G1 & _).
    rewrite G1. exact Hsc. }
  exists scIn, imIn, st. auto.
Qed.

(** X15.  In exact arithmetic the residual has no weighted mean left: for
    a valid shape of at least one dimension and weights that are not
    negative, with a sum other than zero, whenever [PurifyInternal]
    returns, every slice along the last dimension has a weighted sum of
    zero, and so has the whole tensor, whether an intercept was requested
    or not and however the loop was left. *)
Theorem residual_weighted_sum_zero (fuel : nat) (cTensorBins : Z) (tolerance : Q)
    (cDimensions : Z) (aDimensionLengths : list Z) (aWeights : list Q)
    (m : memory) (e : ErrorEbm) (r : memory) :
  let lens := firstn (Z.to_nat cDimensions) aDimensionLengths in
  let cSurfaceBins := surface_bin_count lens cTensorBins in
  valid_shape lens cTensorBins ->
  (0 < length lens)%nat ->
  cSurfaceBins < size_modulus ->
  Z.of_nat (length (mScores m)) = cTensorBins ->
  nonneg_weights cTensorBins aWeights ->
  ~ (weight_sum cTensorBins aWeights == 0)%Q ->
  PurifyInternal fuel cTensorBins tolerance cDimensions aDimensionLengths aWeights m
    = Done (e, r) ->
  (forall k s,
     0 <= k < cSurfaceBins -> decode lens cTensorBins k = Some s ->
     iSweepDimension s = (length lens - 1)%nat ->
     (slice_weighted_sum aWeights (mScores r) (slice_cells s) == 0)%Q) /\
  (weighted_score_sum cTensorBins aWeights (mScores r) == 0)%Q.
Proof.
  intros lens cSurfaceBins Hvalid HD HS Hlen Hnn Hw Hrun.
  destruct (@returned_scores_of_pass fuel cTensorBins tolerance cDimensions
              aDimensionLengths aWeights m e r Hvalid HS Hlen Hw Hrun)
    as (scIn & imIn & st & HscIn & Hpass & Hsc).
  fold lens cSurfaceBins in Hpass. rewrite Hsc.
  split.
  - intros k s Hk Hdec Hdim.
    exact (@purify_pass_last_dimension lens cTensorBins aWeights _ Hvalid Hnn
             scIn imIn st k s HscIn Hpass Hk Hdec Hdim).
  - exact (@purify_pass_total_zero lens cTensorBins aWeights _ Hvalid Hnn
             scIn imIn st HD HscIn Hpass).
Qed.

Lemma residual_weighted_sum_zero_witness :
  let lens := firstn (Z.to_nat 2) [2; 2] in
  valid_shape lens 4 /\
  (0 < length lens)%nat /\
  surface_bin_count lens 4 < size_modulus /\
  Z.of_nat (length (mScores example_memory)) = 4 /\
  nonneg_weights 4 example_weights /\
  ~ (weight_sum 4 example_weights == 0)%Q /\
  (weighted_score_sum 4 example_weights (mScores example_result) == 0)%Q.
Proof.
  intros lens.
  assert (HD : (0 < length lens)%nat) by (unfold lens; vm_compute; repeat constructor).
  assert (HS : surface_bin_count lens 4 < size_modulus) by reflexivity.
  assert (Hl : Z.of_nat (length (mScores example_memory)) = 4) by reflexivity.
  split; [exact example_valid_shape|]. split; [exact HD|]. split; [exact HS|].
  split; [exact Hl|]. split; [exact example_nonneg_weights|].
  split; [exact example_weight_nonzero|].
  exact (proj2 (@residual_weighted_sum_zero 10 4 (1 # 10)%Q 2 [2; 2] example_weights
                  example_memory Error_None example_result example_valid_shape HD HS Hl
                  example_nonneg_weights example_weight_nonzero example_run)).
Defined.

(** ** The return codes of the entry point *)

Lemma scan_lengths_cases (lens : list Z) :
  match scan_lengths lens false with
  | None => Exists (fun len => len < 0) lens
  | Some true => Forall (fun len => 0 <= len) lens /\ In 0 lens
  | Some false => Forall (fun len => 0 < len) lens
  end.
Proof.
  rewrite scan_lengths_spec.
  destruct (existsb (fun len => len <? 0) lens) eqn:Hneg.
  - apply existsb_exists in Hneg. destruct Hneg as (x & Hx & Hlt).
    apply Exists_exists. exists x. split; [assumption|now apply Z.ltb_lt].
  - assert (Hnn : Forall (fun len => 0 <= len) lens).
    { apply Forall_forall. intros x Hx.
      destruct (Z_lt_le_dec x 0) as [Hlt|Hge]; [|exact Hge].
      assert (existsb (fun len => len <? 0) lens = true)
        by (apply existsb_exists; exists x; split; [assumption|now apply Z.ltb_lt]).
      congruence. }
    cbn [orb]. destruct (existsb (Z.eqb 0) lens) eqn:Hzero.
    + apply existsb_exists in Hzero. destruct Hzero as (x & Hx & Heq).
      apply Z.eqb_eq in Heq. subst x. auto.
    + apply Forall_forall. intros x Hx.
      rewrite Forall_forall in Hnn. specialize (Hnn x Hx).
      destruct (Z.eq_dec x 0) as [->|Hne]; [|lia].
      assert (existsb (Z.eqb 0) lens = true)
        by (apply existsb_exists; exists 0; split; [assumption|reflexivity]).
      congruence.
Qed.

Section ReturnCodes.
Context {F : Type} {AF : Arith F}.
Variable k_cDimensionsMax : Z.
Hypothesis Hmax : k_cDimensionsMax < size_modulus.

(** X16.  What a return code of [Purify] says about the arguments.  The
    illegal-parameter code: the dimension count is negative, or it is
    within the maximum and the array of lengths is null, holds a negative
    length, or is fine while one of the three buffers is null.  The
    out-of-memory code: the count is above the maximum, or the lengths are
    positive and their product does not fit the size type.  Success: the
    count is zero, or no length is negative and either one is zero or the
    product fits and no buffer is null. *)
Theorem return_code_causes (fuel : nat) (tolerance : F) (countDimensions : Z)
    (dimensionLengths : option (list Z)) (b : buffers) (e : ErrorEbm) (b' : buffers) :
  Purify k_cDimensionsMax fuel tolerance countDimensions dimensionLengths b = Done (e, b') ->
  match e with
  | Error_IllegalParamVal =>
      countDimensions < 0 \/
      (0 < countDimensions <= k_cDimensionsMax /\
       match dimensionLengths with
       | None => True
       | Some aLens =>
           let lens := firstn (Z.to_nat countDimensions) aLens in
           Exists (fun len => len < 0) lens \/
           (Forall (fun len => 0 < len) lens /\
            extent_product lens < size_modulus /\
            (weights b = None \/ scores b = None \/ impurities b = None))
       end)
  | Error_OutOfMemory =>
      (0 < countDimensions /\ k_cDimensionsMax < countDimensions) \/
      (0 < countDimensions <= k_cDimensionsMax /\
       exists aLens : list Z,
         dimensionLengths = Some aLens /\
         Forall (fun len => 0 < len) (firstn (Z.to_nat countDimensions) aLens) /\
         size_modulus <= extent_product (firstn (Z.to_nat countDimensions) aLens))
  | Error_None =>
      countDimensions = 0 \/
      (0 < countDimensions <= k_cDimensionsMax /\
       exists aLens : list Z,
         dimensionLengths = Some aLens /\
         Forall (fun len => 0 <= len) (firstn (Z.to_nat countDimensions) aLens) /\
         (In 0 (firstn (Z.to_nat countDimensions) aLens) \/
          (Forall (fun len => 0 < len) (firstn (Z.to_nat countDimensions) aLens) /\
           extent_product (firstn (Z.to_nat countDimensions) aLens) < size_modulus /\
           weights b <> None /\ scores b <> None /\ impurities b <> None)))
  end.
Proof.
  unfold Purify. intros Hrun.
  destruct (Z.leb_spec countDimensions 0) as [Hle|Hgt].
  { destruct (Z.eqb_spec 0 countDimensions) as [Heq|Hne]; inversion Hrun; subst.
    - now left.
    - left. lia. }
  destruct (Z.ltb_spec k_cDimensionsMax countDimensions) as [Hbig|Hok].
  { inversion Hrun; subst. left. lia. }
  assert (Hcount : 0 < countDimensions <= k_cDimensionsMax) by lia.
  assert (Hcast : to_size_t countDimensions = countDimensions)
    by (apply wrap_small; lia).
  rewrite Hcast in Hrun.
  destruct dimensionLengths as [aLens|]; [|inversion Hrun; subst; right; auto].
  pose proof (scan_lengths_cases (firstn (Z.to_nat countDimensions) aLens)) as Hscan.
  destruct (scan_lengths (firstn (Z.to_nat countDimensions) aLens) false) as [[|]|].
  - inversion Hrun; subst. right. split; [exact Hcount|].
    exists aLens. destruct Hscan as (Hnn & Hzero). auto.
  - rewrite (count_tensor_bins_from Hscan) in Hrun by (split; reflexivity).
    rewrite Z.mul_1_l in Hrun.
    destruct (Z.ltb_spec (extent_product (firstn (Z.to_nat countDimensions) aLens))
                         size_modulus) as [Hfit|Hover].
    + assert (Hw : weights (zero_intercept b) = weights b)
        by (unfold zero_intercept; now destruct (interceptOut b)).
      assert (Hs : scores (zero_intercept b) = scores b)
        by (unfold zero_intercept; now destruct (interceptOut b)).
      assert (Hi : impurities (zero_intercept b) = impurities b)
        by (unfold zero_intercept; now destruct (interceptOut b)).
      rewrite Hw, Hs, Hi in Hrun.
      destruct (weights b) as [w|] eqn:Ew;
        [|inversion Hrun; subst; right; split; [exact Hcount|]; right; auto].
      destruct (scores b) as [sc|] eqn:Es;
        [|inversion Hrun; subst; right; split; [exact Hcount|]; right; auto].
      destruct (impurities b) as [im|] eqn:Ei;
        [|inversion Hrun; subst; right; split; [exact Hcount|]; right; auto 6].
      destruct (PurifyInternal _ _ _ _ _ _ _) as [[e0 m]| |] eqn:Hcore; try discriminate.
      apply PurifyInternal_error_none in Hcore. inversion Hrun; subst.
      right. split; [exact Hcount|]. exists aLens. split; [reflexivity|].
      split.
      * eapply Forall_impl; [|exact Hscan]. intros a Ha. cbv beta in Ha. lia.
      * right. repeat split; try assumption; discriminate.
    + inversion Hrun; subst. right. split; [exact Hcount|]. exists aLens. auto.
  - inversion Hrun; subst. right. split; [exact Hcount|]. now left.
Qed.

(** X17.  Through the entry point, weights whose sum compares equal to
    [0.0] give success without a pass: the scores and the impurities are
    handed back as they were passed (the impurities are not cleared), and
    the only store through a non-null [interceptOut] is [0.0]. *)
Theorem entry_zero_weight_noop (fuel : nat) (tolerance : F) (countDimensions : Z)
    (aLens : list Z) (w sc im : list F) (icpt : option (list F)) :
  0 < countDimensions <= k_cDimensionsMax ->
  Forall (fun len => 0 < len) (firstn (Z.to_nat countDimensions) aLens) ->
  extent_product (firstn (Z.to_nat countDimensions) aLens) < size_modulus ->
  feqb f0 (weight_sum (extent_product (firstn (Z.to_nat countDimensions) aLens)) w) = true ->
  Purify k_cDimensionsMax fuel tolerance countDimensions (Some aLens)
         (mkBuf (Some w) (Some sc) (Some im) icpt)
    = Done (Error_None, mkBuf (Some w) (Some sc) (Some im) (option_map (cons f0) icpt)).
Proof.
  intros Hcount Hpos Hfit Hzero.
  rewrite (@Purify_checked F AF k_cDimensionsMax fuel tolerance countDimensions aLens
             (extent_product (firstn (Z.to_nat countDimensions) aLens)) w sc im icpt
             Hcount Hmax (scan_lengths_positive Hpos)).
  - rewrite zero_weight_noop_any by exact Hzero.
    destruct icpt; reflexivity.
  - rewrite (count_tensor_bins_from Hpos) by (split; reflexivity).
    rewrite Z.mul_1_l.
    destruct (Z.ltb_spec (extent_product (firstn (Z.to_nat countDimensions) aLens))
                         size_modulus) as [_|Hbig]; [reflexivity|lia].
Qed.

(** The loop over the passes does not leave the dimension array. *)
Lemma purify_loop_no_fault (lens : list Z) (T S : Z) (w : list F) (M : F) (fuel : nat) :
  valid_shape lens T ->
  0 <= S <= surface_bin_count lens T ->
  forall (prev : option F) (sc im : list F),
    purify_loop fuel lens T S w M prev sc im <> Fault.
Proof.
  intros Hvalid HS. induction fuel as [|fuel IH]; intros prev sc im; [discriminate|].
  cbn [purify_loop]. unfold purify_pass.
  destruct (@purify_bins_invariant F AF (fun _ => True) lens T w M (zrange S) Hvalid)
    with (st := mkPass sc im f0 false) as (st & Hrun & _); auto.
  { intros k Hk. apply zrange_In in Hk. lia. }
  rewrite Hrun.
  destruct (not_improved prev (impurityCur st)); [discriminate|].
  destruct (bRetry st); [apply IH|discriminate].
Qed.

(** X18.  No call through the entry point leaves the array of dimension
    lengths while it searches the sweep dimension of a surface bin: the
    checks of the entry point make the shape valid, and for a valid shape
    every surface bin id of a pass decodes. *)
Theorem entry_never_faults (fuel : nat) (tolerance : F) (countDimensions : Z)
    (dimensionLengths : option (list Z)) (b : buffers) :
  Purify k_cDimensionsMax fuel tolerance countDimensions dimensionLengths b <> Fault.
Proof.
  unfold Purify.
  destruct (Z.leb_spec countDimensions 0) as [Hle|Hgt].
  { destruct (0 =? countDimensions); discriminate. }
  destruct (Z.ltb_spec k_cDimensionsMax countDimensions) as [Hbig|Hok]; [discriminate|].
  assert (Hcast : to_size_t countDimensions = countDimensions)
    by (apply wrap_small; lia).
  rewrite Hcast.
  destruct dimensionLengths as [aLens|]; [|discriminate].
  pose proof (scan_lengths_cases (firstn (Z.to_nat countDimensions) aLens)) as Hscan.
  destruct (scan_lengths (firstn (Z.to_nat countDimensions) aLens) false) as [[|]|];
    try discriminate.
  rewrite (count_tensor_bins_from Hscan) by (split; reflexivity).
  rewrite Z.mul_1_l.
  destruct (Z.ltb_spec (extent_product (firstn (Z.to_nat countDimensions) aLens))
                       size_modulus) as [Hfit|Hover]; [|discriminate].
  destruct (weights (zero_intercept b)) as [w|]; [|discriminate].
  destruct (scores (zero_intercept b)) as [sc|]; [|discriminate].
  destruct (impurities (zero_intercept b)) as [im|]; [|discriminate].
  assert (Hvalid : valid_shape (firstn (Z.to_nat countDimensions) aLens)
                     (extent_product (firstn (Z.to_nat countDimensions) aLens)))
    by (repeat split; assumption).
  unfold PurifyInternal.
  destruct (feqb f0 _); [discriminate|]. cbv zeta.
  pose proof (count_surface_bins_le Hvalid) as HS.
  match goal with
  | |- context [purify_loop ?f ?l ?T ?S ?w ?M ?p ?s ?i] =>
      pose proof (@purify_loop_no_fault l T S w M f Hvalid HS p s i) as Hnf;
      destruct (purify_loop f l T S w M p s i) as [[sc' im']| |]
  end; [discriminate|contradiction|discriminate].
Qed.
End ReturnCodes.

Lemma return_code_causes_witness :
  63 < size_modulus /\
  Purify 63 0 0%Q 2 (Some [0; -1]) (mkBuf None None None (Some []))
    = Done (Error_IllegalParamVal, mkBuf None None None (Some [0%Q])) /\
  (2 < 0 \/
   (0 < 2 <= 63 /\
    (Exists (fun len => len < 0) (firstn (Z.to_nat 2) [0; -1]) \/
     (Forall (fun len => 0 < len) (firstn (Z.to_nat 2) [0; -1]) /\
      extent_product (firstn (Z.to_nat 2) [0; -1]) < size_modulus /\
      (@None (list Q) = None \/ @None (list Q) = None \/ @None (list Q) = None))))).
Proof.
  assert (Hk : 63 < size_modulus) by reflexivity.
  assert (Hrun : Purify 63 0 0%Q 2 (Some [0; -1]) (mkBuf None None None (Some []))
                 = Done (Error_IllegalParamVal, mkBuf None None None (Some [0%Q])))
    by reflexivity.
  split; [exact Hk|]. split; [exact Hrun|].
  exact (@return_code_causes Q Q_arith 63 Hk 0%nat 0%Q 2 (Some [0; -1])
           (mkBuf None None None (Some [])) _ _ Hrun).
Defined.

Lemma entry_zero_weight_noop_witness :
  63 < size_modulus /\ 0 < 1 <= 63 /\
  Forall (fun len => 0 < len) (firstn (Z.to_nat 1) [2]) /\
  extent_product (firstn (Z.to_nat 1) [2]) < size_modulus /\
  feqb f0 (weight_sum (extent_product (firstn (Z.to_nat 1) [2])) [0%Q; 0%Q]) = true /\
  Purify 63 0 (1 # 2)%Q 1 (Some [2])
         (mkBuf (Some [0%Q; 0%Q]) (Some [3%Q; 5%Q]) (Some [7%Q]) (Some []))
    = Done (Error_None,
            mkBuf (Some [0%Q; 0%Q]) (Some [3%Q; 5%Q]) (Some [7%Q]) (Some [0%Q])).
Proof.
  assert (Hk : 63 < size_modulus) by reflexivity.
  assert (Hc : 0 < 1 <= 63) by lia.
  assert (Hpos : Forall (fun len => 0 < len) (firstn (Z.to_nat 1) [2]))
    by (repeat constructor).
  assert (Hfit : extent_product (firstn (Z.to_nat 1) [2]) < size_modulus) by reflexivity.
  assert (Hz : feqb f0 (weight_sum (extent_product (firstn (Z.to_nat 1) [2])) [0%Q; 0%Q])
               = true) by reflexivity.
  split; [exact Hk|]. split; [exact Hc|]. split; [exact Hpos|]. split; [exact Hfit|].
  split; [exact Hz|].
  exact (@entry_zero_weight_noop Q Q_arith 63 Hk 0%nat (1 # 2)%Q 1 [2]
           [0%Q; 0%Q] [3%Q; 5%Q] [7%Q] (Some []) Hc Hpos Hfit Hz).
Defined.

Lemma entry_never_faults_witness :
  63 < size_modulus /\
  Purify 63 3 0%Q 2 (Some [2; 2])
         (mkBuf (Some example_weights) (Some [1; 2; 3; 5]%Q) (Some [0; 0; 0; 0]%Q) None)
    <> Fault.
Proof.
  assert (Hk : 63 < size_modulus) by reflexivity.
  split; [exact Hk|].
  exact (@entry_never_faults Q Q_arith 63 Hk 3%nat 0%Q 2 (Some [2; 2])
           (mkBuf (Some example_weights) (Some [1; 2; 3; 5]%Q) (Some [0; 0; 0; 0]%Q) None)).
Defined.

(** ** Binary64: the loop ends unless a total is NaN *)

Lemma digits2_pos_bound (m : positive) : Z.pos m < 2 ^ Z.pos (digits2_pos m).
Proof.
  induction m as [m IH|m IH|]; cbn [digits2_pos]; [| |reflexivity].
  - rewrite Pos2Z.inj_succ, Z.pow_succ_r by lia. lia.
  - rewrite Pos2Z.inj_succ, Z.pow_succ_r by lia. lia.
Qed.

(** The mantissa and the exponent of a finite binary64 value. *)
Lemma valid_binary_bounds (s : bool) (m : positive) (e : Z) :
  valid_binary (S754_finite s m e) = true ->
  -1074 <= e <= 971 /\ Z.pos m < 2 ^ 53.
Proof.
  cbn [SpecFloat.valid_binary]. unfold bounded, canonical_mantissa, fexp.
  intros H. apply andb_true_iff in H. destruct H as (Hcan & Hmax).
  apply Z.eqb_eq in Hcan. apply Z.leb_le in Hmax.
  change (SpecFloat.emin prec emax) with (-1074) in Hcan.
  change prec with 53 in *. change emax with 1024 in *.
  pose proof (digits2_pos_bound m) as Hm.
  assert (Hd : Z.pos (digits2_pos m) <= 53) by lia.
  assert (Hp : 2 ^ Z.pos (digits2_pos m) <= 2 ^ 53) by (apply Z.pow_le_mono_r; lia).
  lia.
Qed.

Lemma float_rank_bounds (x : spec_float) :
  valid_binary x = true -> - 2 ^ 65 <= float_rank x <= 2 ^ 65.
Proof.
  destruct x as [s|s| |s m e]; intros Hv; cbn [float_rank].
  - lia.
  - destruct s; lia.
  - lia.
  - destruct (@valid_binary_bounds s m e Hv) as (He & Hm).
    assert (H1 : 0 <= (e + 1075) * 2 ^ 53 <= 2046 * 2 ^ 53) by nia.
    cbv zeta. destruct s; lia.
Qed.

(** [float_rank] follows the order of the values. *)
Lemma float_rank_mono (x y : spec_float) :
  valid_binary x = true -> valid_binary y = true ->
  SFcompare x y = Some Gt ->
  float_rank y < float_rank x.
Proof.
  intros Hx Hy.
  pose proof (@float_rank_bounds x Hx) as Bx. pose proof (@float_rank_bounds y Hy) as By.
  destruct x as [sx|sx| |sx mx ex]; destruct y as [sy|sy| |sy my ey];
    cbn [SFcompare]; try discriminate.
  - destruct sy; [|discriminate]. intros _. cbn [float_rank]. lia.
  - destruct sy; [|discriminate]. intros _.
    destruct (@valid_binary_bounds _ _ _ Hy) as (He & Hm).
    cbn [float_rank]. cbv zeta. nia.
  - destruct sx; [discriminate|]. intros _. cbn [float_rank]. lia.
  - destruct sx, sy; try discriminate. intros _. cbn [float_rank]. lia.
  - destruct sx; [discriminate|]. intros _.
    destruct (@valid_binary_bounds _ _ _ Hy) as (He & Hm).
    assert (H1 : 0 <= (ey + 1075) * 2 ^ 53 <= 2046 * 2 ^ 53) by nia.
    cbn [float_rank]. cbv zeta. destruct sy; lia.
  - destruct sx; [discriminate|]. intros _.
    destruct (@valid_binary_bounds _ _ _ Hx) as (He & Hm).
    cbn [float_rank]. cbv zeta. nia.
  - destruct sy; [|discriminate]. intros _.
    destruct (@valid_binary_bounds _ _ _ Hx) as (He & Hm).
    assert (H1 : 0 <= (ex + 1075) * 2 ^ 53 <= 2046 * 2 ^ 53) by nia.
    cbn [float_rank]. cbv zeta. destruct sx; lia.
  - destruct (@valid_binary_bounds _ _ _ Hx) as (Hex & Hmx).
    destruct (@valid_binary_bounds _ _ _ Hy) as (Hey & Hmy).
    cbn [float_rank]. cbv zeta.
    change (PosDef.Pos.compare_cont Eq mx my) with (Pos.compare mx my).
    destruct sx, sy; try discriminate.
    + destruct (Z.compare_spec ex ey) as [Heq|Hlt|Hgt]; try discriminate.
      * destruct (Pos.compare_spec mx my) as [Hm|Hm|Hm]; try discriminate.
        intros _. subst ey. lia.
      * intros _. nia.
    + intros _. nia.
    + destruct (Z.compare_spec ex ey) as [Heq|Hlt|Hgt]; try discriminate.
      * destruct (Pos.compare_spec mx my) as [Hm|Hm|Hm]; try discriminate.
        intros _. subst ey. lia.
      * intros _. nia.
Qed.

Lemma SFcompare_none (x y : spec_float) :
  SFcompare x y = None -> SFcompare x x = None \/ SFcompare y y = None.
Proof. destruct x, y; cbn [SFcompare]; try discriminate; auto. Qed.

(** A total that is not below the one before it ends the loop, so two
    totals between which the loop goes on, neither of them NaN, step down
    in rank. *)
Lemma leb_false_rank (c c' : float) :
  PrimFloat.leb c c = true -> PrimFloat.leb c' c' = true ->
  PrimFloat.leb c c' = false ->
  float_rank (Prim2SF c') < float_rank (Prim2SF c).
Proof.
  rewrite !leb_spec. unfold SFleb. intros Hc Hc' Hle.
  destruct (SFcompare (Prim2SF c) (Prim2SF c')) as [[| |]|] eqn:Hcmp; try discriminate.
  - apply float_rank_mono; auto using Prim2SF_valid.
  - destruct (@SFcompare_none _ _ Hcmp) as [H|H]; rewrite H in *; discriminate.
Qed.

Section Binary64Loop.
Variables (lens : list Z) (T S : Z) (w : list float) (M : float) (sc im : list float).
Hypothesis Hnan :
  forall (n : nat) (c : float) (sc' im' : list float),
    passes n lens T S w M None sc im = Some (Some c, sc', im') ->
    PrimFloat.leb c c = true.

(** While the loop goes on, the rank of the total goes down by at least
    one with every pass. *)
Lemma passes_rank (n : nat) :
  forall (prev : option float) (sc' im' : list float),
    passes (Datatypes.S n) lens T S w M None sc im = Some (prev, sc', im') ->
    exists c : float,
      prev = Some c /\ float_rank (Prim2SF c) <= 2 ^ 65 - Z.of_nat n.
Proof.
  induction n as [|n IH]; intros prev sc' im' Hp.
  - rewrite passes_step in Hp.
    destruct (purify_pass lens T S w M sc im) as [st|]; [|discriminate].
    destruct (not_improved None (impurityCur st)); [discriminate|].
    destruct (bRetry st); [|discriminate].
    cbn [passes] in Hp. inversion Hp; subst.
    exists (impurityCur st). split; [reflexivity|].
    pose proof (@float_rank_bounds _ (Prim2SF_valid (impurityCur st))). lia.
  - pose proof Hp as Hp'. rewrite passes_last in Hp.
    destruct (passes (Datatypes.S n) lens T S w M None sc im)
      as [[[prev1 sc1] im1]|] eqn:H1; [|discriminate].
    destruct (IH _ _ _ eq_refl) as (c1 & -> & Hr1).
    rewrite passes_step in Hp.
    destruct (purify_pass lens T S w M sc1 im1) as [st|]; [|discriminate].
    destruct (not_improved (Some c1) (impurityCur st)) eqn:Hg; [discriminate|].
    destruct (bRetry st); [|discriminate].
    cbn [passes] in Hp. inversion Hp; subst.
    exists (impurityCur st). split; [reflexivity|].
    cbn [not_improved fleb float_arith] in Hg.
    assert (Hc1 : PrimFloat.leb c1 c1 = true) by (eapply Hnan; exact H1).
    assert (Hc2 : PrimFloat.leb (impurityCur st) (impurityCur st) = true)
      by (eapply Hnan; exact Hp').
    pose proof (leb_false_rank Hc1 Hc2 Hg). lia.
Qed.

(** There are fewer than 2^66 + 2 ranks, so the loop is left within that
    many passes. *)
Lemma passes_run_out (N : nat) :
  Z.of_nat N = 2 ^ 66 + 1 ->
  passes (Datatypes.S N) lens T S w M None sc im = None.
Proof.
  intros HN.
  destruct (passes (Datatypes.S N) lens T S w M None sc im) as [[[prev sc'] im']|] eqn:Hp;
    [exfalso|reflexivity].
  destruct (passes_rank _ Hp) as (c & _ & Hr).
  pose proof (@float_rank_bounds _ (Prim2SF_valid c)). lia.
Qed.

Lemma purify_loop_ends :
  valid_shape lens T ->
  0 <= S <= surface_bin_count lens T ->
  exists (fuel : nat) (res : list float * list float),
    Z.of_nat fuel = 2 ^ 66 + 2 /\
    purify_loop fuel lens T S w M None sc im = Done res.
Proof.
  intros Hvalid HS.
  assert (HN : Z.of_nat (Z.to_nat (2 ^ 66 + 1)) = 2 ^ 66 + 1) by (apply Z2Nat.id; lia).
  revert HN. generalize (Z.to_nat (2 ^ 66 + 1)). intros N HN.
  exists (Datatypes.S N).
  pose proof (@passes_none_loop_ends float float_arith lens T S w M (Datatypes.S N) None sc im
                (@passes_run_out N HN)) as Hend.
  pose proof (@purify_loop_no_fault float float_arith lens T S w M (Datatypes.S N)
                Hvalid HS None sc im) as Hnf.
  destruct (purify_loop (Datatypes.S N) lens T S w M None sc im) as [res| |];
    [|contradiction|contradiction].
  exists res. split; [lia|reflexivity].
Qed.
End Binary64Loop.

(** X19.  In binary64 a call can only fail to return through a NaN: for a
    valid shape, if no pass that leaves the loop running has a total
    [impurityCur] that is NaN, [PurifyInternal] returns, within 2^66 + 2
    passes.  The totals of such passes step down in the order of the
    binary64 values, of which there are finitely many. *)
Theorem binary64_returns_without_nan (cTensorBins : Z) (tolerance : float)
    (cDimensions : Z) (aDimensionLengths : list Z) (aWeights : list float) (m : memory) :
  let lens := firstn (Z.to_nat cDimensions) aDimensionLengths in
  let cSurfaceBins := count_surface_bins lens cTensorBins in
  let impurityMax := impurity_threshold cTensorBins tolerance aWeights (mScores m) in
  let m1 := extract_intercept cTensorBins
              (sum_totals cTensorBins aWeights (mScores m)) m in
  valid_shape lens cTensorBins ->
  (forall (n : nat) (c : float) (sc' im' : list float),
     passes n lens cTensorBins cSurfaceBins aWeights impurityMax None
            (mScores m1) (memset_zero cSurfaceBins (mImpurities m1))
       = Some (Some c, sc', im') ->
     PrimFloat.leb c c = true) ->
  exists (fuel : nat) (r : memory),
    Z.of_nat fuel = 2 ^ 66 + 2 /\
    PurifyInternal fuel cTensorBins tolerance cDimensions aDimensionLengths aWeights m
      = Done (Error_None, r).
Proof.
  intros lens cSurfaceBins impurityMax m1 Hvalid Hnan.
  destruct (feqb f0 (weight_sum cTensorBins aWeights)) eqn:Hw.
  - assert (HN : Z.of_nat (Z.to_nat (2 ^ 66 + 2)) = 2 ^ 66 + 2) by (apply Z2Nat.id; lia).
    revert HN. generalize (Z.to_nat (2 ^ 66 + 2)). intros N HN.
    exists N, m. split; [exact HN|]. now apply zero_weight_noop_any.
  - destruct (@purify_loop_ends lens cTensorBins cSurfaceBins aWeights impurityMax
                (mScores m1) (memset_zero cSurfaceBins (mImpurities m1)) Hnan Hvalid
                (count_surface_bins_le Hvalid))
      as (fuel & [sc' im'] & Hfuel & Hloop).
    exists fuel, (mkMem sc' im' (mInterceptOut m1)). split; [exact Hfuel|].
    rewrite PurifyInternal_passes by exact Hw.
    cbv zeta. fold lens cSurfaceBins impurityMax m1. now rewrite Hloop.
Qed.

Lemma binary64_returns_without_nan_witness :
  valid_shape (firstn (Z.to_nat 1) [2]) 2 /\
  exists (fuel : nat) (r : memory),
    Z.of_nat fuel = 2 ^ 66 + 2 /\
    PurifyInternal fuel 2 0%float 1 [2] [1; 1]%float (mkMem [1; 3]%float [0]%float None)
      = Done (Error_None, r).
Proof.
  assert (Hv : valid_shape (firstn (Z.to_nat 1) [2]) 2).
  { split; [repeat constructor|split; reflexivity]. }
  split; [exact Hv|].
  apply (@binary64_returns_without_nan 2 0%float 1 [2] [1; 1]%float
           (mkMem [1; 3]%float [0]%float None) Hv).
  intros n c sc' im' Hp.
  destruct n as [|[|n]].
  - discriminate.
  - vm_compute in Hp. inversion Hp. reflexivity.
  - exfalso.
    replace (Datatypes.S (Datatypes.S n)) with (n + 2)%nat in Hp by lia.
    rewrite (@passes_none_later float float_arith _ _ _ _ _ 2 n) in Hp; [discriminate|].
    vm_compute. reflexivity.
Defined.

(** ** A threshold that no impurity exceeds *)

Section NoRetry.
Context {F : Type} {AF : Arith F}.
Variables (lens : list Z) (T S : Z) (w : list F) (M : F).
Hypothesis HM : forall x : F, fltb M x = false.

Lemma purify_bins_never_retry (bins : list Z) :
  forall st st' : pass_state,
    purify_bins lens T w M bins st = Some st' ->
    bRetry st = false -> bRetry st' = false.
Proof.
  induction bins as [|k bins IH]; intros st st' Hrun Hretry.
  - inversion Hrun; subst. exact Hretry.
  - rewrite purify_bins_cons in Hrun.
    destruct (purify_bin lens T w M st k) as [st1|] eqn:Hbin; [|discriminate].
    apply (IH st1 st' Hrun).
    unfold purify_bin in Hbin. destruct (decode lens T k); [|discriminate].
    inversion Hbin; subst. rewrite purify_slice_retry, Hretry, HM. reflexivity.
Qed.

(** With such a threshold the loop is left after its first pass. *)
Lemma purify_loop_single_pass (fuel : nat) (prev : option F) (sc im : list F)
    (st : pass_state) :
  purify_pass lens T S w M sc im = Some st ->
  purify_loop (Datatypes.S fuel) lens T S w M prev sc im
    = Done (aScores_of st, aImpurities_of st).
Proof.
  intros Hpass. cbn [purify_loop]. rewrite Hpass.
  destruct (not_improved prev (impurityCur st)); [reflexivity|].
  unfold purify_pass in Hpass.
  now rewrite (@purify_bins_never_retry (zrange S) _ st Hpass eq_refl).
Qed.
End NoRetry.

(** NaN in binary64: it is not below any value, and it is what a product
    or a quotient with it yields. *)

Lemma ltb_nan_l (x : float) : PrimFloat.ltb nan x = false.
Proof. rewrite ltb_spec. reflexivity. Qed.

Lemma mul_nan_r (x : float) : PrimFloat.mul x nan = nan.
Proof.
  rewrite <- (SF2Prim_Prim2SF (PrimFloat.mul x nan)), mul_spec.
  change (Prim2SF nan) with S754_nan.
  destruct (Prim2SF x); reflexivity.
Qed.

Lemma div_nan_l (x : float) : PrimFloat.div nan x = nan.
Proof.
  rewrite <- (SF2Prim_Prim2SF (PrimFloat.div nan x)), div_spec.
  reflexivity.
Qed.

(** X20.  A NaN tolerance is not rejected and does not hang the call: in
    binary64, for a valid shape and weights whose sum is not [0.0], the
    threshold [impurityMax] is NaN, no slice sets [bRetry], and the call
    returns the scores and impurities of exactly one pass, however many
    passes are granted. *)
Theorem nan_tolerance_single_pass (fuel : nat) (cTensorBins : Z) (cDimensions : Z)
    (aDimensionLengths : list Z) (aWeights : list float) (m : memory) :
  let lens := firstn (Z.to_nat cDimensions) aDimensionLengths in
  let cSurfaceBins := count_surface_bins lens cTensorBins in
  let m1 := extract_intercept cTensorBins
              (sum_totals cTensorBins aWeights (mScores m)) m in
  valid_shape lens cTensorBins ->
  feqb f0 (weight_sum cTensorBins aWeights) = false ->
  impurity_threshold cTensorBins nan aWeights (mScores m) = nan /\
  exists st : pass_state,
    purify_pass lens cTensorBins cSurfaceBins aWeights nan
                (mScores m1) (memset_zero cSurfaceBins (mImpurities m1)) = Some st /\
    bRetry st = false /\
    PurifyInternal (S fuel) cTensorBins nan cDimensions aDimensionLengths aWeights m
      = Done (Error_None, mkMem (aScores_of st) (aImpurities_of st) (mInterceptOut m1)).
Proof.
  intros lens cSurfaceBins m1 Hvalid Hw.
  assert (HM : impurity_threshold cTensorBins nan aWeights (mScores m) = nan).
  { unfold impurity_threshold. cbn [fdiv fmul float_arith].
    now rewrite mul_nan_r, div_nan_l. }
  split; [exact HM|].
  pose proof (count_surface_bins_le Hvalid) as HS. fold lens cSurfaceBins in HS.
  destruct (@purify_bins_invariant float float_arith (fun _ => True) lens cTensorBins
              aWeights nan (zrange cSurfaceBins) Hvalid)
    with (st := mkPass (mScores m1) (memset_zero cSurfaceBins (mImpurities m1)) f0 false)
    as (st & Hrun & _); auto.
  { intros k Hk. apply zrange_In in Hk. lia. }
  exists st. split; [exact Hrun|].
  split; [exact (@purify_bins_never_retry float float_arith lens cTensorBins aWeights nan
                  ltb_nan_l (zrange cSurfaceBins) _ st Hrun eq_refl)|].
  rewrite PurifyInternal_passes by exact Hw.
  cbv zeta. fold lens cSurfaceBins m1. rewrite HM.
  now rewrite (@purify_loop_single_pass float float_arith lens cTensorBins cSurfaceBins
                 aWeights nan ltb_nan_l fuel None _ _ st Hrun).
Qed.

Lemma nan_tolerance_single_pass_witness :
  valid_shape (firstn (Z.to_nat 1) [2]) 2 /\
  feqb f0 (weight_sum 2 [1; 1]%float) = false /\
  PurifyInternal 5 2 nan 1 [2] [1; 1]%float (mkMem [1; 3]%float [0]%float None)
    = Done (Error_None, mkMem [-1; 1]%float [2]%float None).
Proof.
  assert (Hv : valid_shape (firstn (Z.to_nat 1) [2]) 2).
  { split; [repeat constructor|split; reflexivity]. }
  assert (Hw : feqb f0 (weight_sum 2 [1; 1]%float) = false) by reflexivity.
  split; [exact Hv|]. split; [exact Hw|].
  destruct (@nan_tolerance_single_pass 4 2 1 [2] [1; 1]%float
              (mkMem [1; 3]%float [0]%float None) Hv Hw) as (_ & st & Hpass & _ & Hrun).
  rewrite Hrun. vm_compute in Hpass. inversion Hpass. reflexivity.
Defined.

(** ** Exact arithmetic: the weighted sum of squares *)

(** A list without repetition that holds the cells of a slice is the
    slice followed by the other cells, in some order. *)
Lemma cells_and_rest (l cells : list Z) :
  NoDup l -> NoDup cells -> (forall c, In c cells -> In c l) ->
  exists rest : list Z,
    Permutation l (cells ++ rest) /\
    forall j, In j rest -> In j l /\ ~ In j cells.
Proof.
  intros Hl Hc Hsub.
  exists (filter (fun j => negb (existsb (Z.eqb j) cells)) l).
  assert (Hrest : forall j,
            In j (filter (fun j => negb (existsb (Z.eqb j) cells)) l) <->
            In j l /\ ~ In j cells).
  { intros j. rewrite filter_In. split; intros (Hj & Hn); split; try assumption.
    - intros Hin. apply negb_true_iff in Hn.
      assert (existsb (Z.eqb j) cells = true)
        by (apply existsb_exists; exists j; split; [assumption|apply Z.eqb_refl]).
      congruence.
    - apply negb_true_iff. apply not_true_is_false. intros Hex.
      apply existsb_exists in Hex. destruct Hex as (x & Hx & Hjx).
      apply Z.eqb_eq in Hjx. subst x. contradiction. }
  split; [|intros j Hj; now apply Hrest].
  apply NoDup_Permutation; [assumption| |].
  - apply NoDup_app; [assumption|now apply NoDup_filter|].
    intros c Hin Hin'. apply Hrest in Hin'. now destruct Hin'.
  - intros j. rewrite in_app_iff, Hrest. split.
    + intros Hj. destruct (in_dec Z.eq_dec j cells); auto.
    + intros [Hj|[Hj _]]; auto.
Qed.

Lemma sumQ_map_plus (f g : Z -> Q) (l : list Z) :
  (sumQ (map (fun c => f c + g c) l) == sumQ (map f l) + sumQ (map g l))%Q.
Proof.
  induction l as [|a l IH]; [cbn; ring|].
  cbn [map]. rewrite !sumQ_cons, IH. ring.
Qed.

Lemma sumQ_map_scale (k : Q) (f : Z -> Q) (l : list Z) :
  (sumQ (map (fun c => k * f c) l) == k * sumQ (map f l))%Q.
Proof.
  induction l as [|a l IH]; [cbn; ring|].
  cbn [map]. rewrite !sumQ_cons, IH. ring.
Qed.

(** Adding [v] to the scores of the cells of a slice changes the weighted
    sum of squares by [2 v] times the weighted sum of the slice plus
    [v^2] times its weight. *)
Lemma slice_update_squares (T : Z) (w sc : list Q) (cells : list Z) (v : Q) :
  NoDup cells ->
  (forall c, In c cells -> 0 <= c < T) ->
  Z.of_nat (length sc) = T ->
  (weighted_square_sum T w (slice_update sc cells v) ==
   weighted_square_sum T w sc
   + (2 * v * slice_weighted_sum w sc cells + v * v * slice_weight w cells))%Q.
Proof.
  intros Hnd Hrange Hlen.
  destruct (@cells_and_rest (zrange T) cells (zrange_NoDup T) Hnd) as (rest & Hperm & Hrest).
  { intros c Hc. apply zrange_In. now apply Hrange. }
  unfold weighted_square_sum.
  rewrite (sumQ_Permutation (Permutation_map _ Hperm)).
  rewrite (sumQ_Permutation
             (Permutation_map (fun i => (load 0 w i * (load 0 sc i * load 0 sc i))%Q) Hperm)).
  rewrite !map_app, !sumQ_app.
  assert (Hin : forall c, In c cells ->
            load 0%Q (slice_update sc cells v) c = (load 0%Q sc c + v)%Q).
  { intros c Hc. rewrite slice_update_load_Q; auto.
    - assert (Hex : existsb (Z.eqb c) cells = true)
        by (apply existsb_exists; exists c; split; [assumption|apply Z.eqb_refl]).
      now rewrite Hex.
    - intros c' Hc'. rewrite Hlen. now apply Hrange.
    - specialize (Hrange c Hc). lia. }
  assert (Hout : forall j, In j rest ->
            load 0%Q (slice_update sc cells v) j = load 0%Q sc j).
  { intros j Hj. destruct (Hrest j Hj) as (Hjl & Hjn).
    apply zrange_In in Hjl. rewrite slice_update_load_Q; auto.
    - assert (Hex : existsb (Z.eqb j) cells = false).
      { apply not_true_is_false. intros Hex. apply existsb_exists in Hex.
        destruct Hex as (x & Hx & Hjx). apply Z.eqb_eq in Hjx. subst x. contradiction. }
      now rewrite Hex.
    - intros c' Hc'. rewrite Hlen. now apply Hrange.
    - lia. }
  rewrite (@sumQ_map_ext
             (fun i => (load 0 w i * (load 0 sc i * load 0 sc i))%Q)
             (fun i => (load 0 w i * (load 0 (slice_update sc cells v) i
                                      * load 0 (slice_update sc cells v) i))%Q) rest)
    by (intros j Hj; cbv beta; now rewrite (Hout j Hj)).
  rewrite (@sumQ_map_ext
             (fun i => (load 0 w i * (load 0 sc i * load 0 sc i)
                        + (2 * v * (load 0 sc i * load 0 w i) + v * v * load 0 w i))%Q)
             (fun i => (load 0 w i * (load 0 (slice_update sc cells v) i
                                      * load 0 (slice_update sc cells v) i))%Q) cells)
    by (intros c Hc; cbv beta; rewrite (Hin c Hc); ring).
  rewrite sumQ_map_plus, sumQ_map_plus, !sumQ_map_scale.
  unfold slice_weighted_sum, slice_weight.
  change (sumQ (map (fun i : Z => load 0%Q w i) cells))
    with (sumQ (map (load 0%Q w) cells)).
  ring.
Qed.

(** Subtracting the weighted mean of a slice from its cells does not
    increase the weighted sum of squares. *)
Lemma mean_removal_drop (SW W v : Q) :
  (0 <= W)%Q ->
  ((W == 0)%Q -> (v == 0)%Q) ->
  (~ (W == 0)%Q -> (v == - (SW / W))%Q) ->
  (2 * v * SW + v * v * W <= 0)%Q.
Proof.
  intros HW H0 H1.
  destruct (Qeq_dec W 0) as [Hz|Hnz].
  - rewrite (H0 Hz). setoid_replace (2 * 0 * SW + 0 * 0 * W)%Q with 0%Q by ring.
    apply Qle_refl.
  - rewrite (H1 Hnz).
    setoid_replace (2 * - (SW / W) * SW + - (SW / W) * - (SW / W) * W)%Q
      with (- ((SW / W) * (SW / W) * W))%Q by (field; exact Hnz).
    generalize (SW / W)%Q. intros q.
    assert (Hq : (0 <= q * q)%Q) by nra.
    assert (H2 : (0 <= q * q * W)%Q) by (apply Qmult_le_0_compat; assumption).
    lra.
Qed.

Lemma slice_mean_removal_squares (T : Z) (w sc : list Q) (cells : list Z) (v : Q) :
  NoDup cells ->
  (forall c, In c cells -> 0 <= c < T) ->
  Z.of_nat (length sc) = T ->
  nonneg_weights T w ->
  (v == - slice_mean w sc cells)%Q ->
  (weighted_square_sum T w (slice_update sc cells v) <= weighted_square_sum T w sc)%Q.
Proof.
  intros Hnd Hrange Hlen Hnn Hv.
  rewrite slice_update_squares by assumption.
  assert (HW : (0 <= slice_weight w cells)%Q).
  { unfold slice_weight. apply sumQ_nonneg. apply Forall_forall.
    intros x Hx. apply in_map_iff in Hx. destruct Hx as (c & <- & Hc).
    apply Hnn. now apply Hrange. }
  pose proof (@mean_removal_drop (slice_weighted_sum w sc cells) (slice_weight w cells) v HW)
    as Hdrop.
  assert (Hle : (2 * v * slice_weighted_sum w sc cells + v * v * slice_weight w cells <= 0)%Q).
  { apply Hdrop; intros HW0; rewrite Hv; unfold slice_mean.
    - assert (E : Qeq_bool (slice_weight w cells) 0 = true) by (now apply Qeq_bool_iff).
      rewrite E. reflexivity.
    - assert (E : Qeq_bool (slice_weight w cells) 0 = false)
        by (now apply Qeq_bool_false_iff).
      rewrite E. reflexivity. }
  lra.
Qed.

Section Squares.
Variables (lens : list Z) (T : Z) (w : list Q) (M : Q).
Hypothesis Hvalid : valid_shape lens T.
Hypothesis Hnn : nonneg_weights T w.

(** A pass does not increase the weighted sum of squares. *)
Lemma purify_pass_squares (S : Z) (sc im : list Q) (st : pass_state) (E0 : Q) :
  0 <= S <= surface_bin_count lens T ->
  Z.of_nat (length sc) = T ->
  (weighted_square_sum T w sc <= E0)%Q ->
  purify_pass lens T S w M sc im = Some st ->
  Z.of_nat (length (aScores_of st)) = T /\
  (weighted_square_sum T w (aScores_of st) <= E0)%Q.
Proof.
  intros HS Hlen HE Hpass. unfold purify_pass in Hpass.
  destruct (@purify_bins_invariant Q Q_arith
              (fun st0 => Z.of_nat (length (aScores_of st0)) = T /\
                          (weighted_square_sum T w (aScores_of st0) <= E0)%Q)
              lens T w M (zrange S) Hvalid)
    with (st := mkPass sc im (@f0 Q Q_arith) false) as (st' & Hrun & HP).
  - intros k Hk. apply zrange_In in Hk. lia.
  - intros st0 k s Hk Hdec Hs (Hlen0 & HE0).
    unfold purify_slice. cbn [aScores_of].
    split; [now rewrite slice_update_length|].
    eapply Qle_trans; [|exact HE0].
    apply slice_mean_removal_squares; auto.
    + eapply slice_cells_NoDup; eauto.
    + intros c Hc. eapply slice_cells_range; eauto.
    + qarith. now rewrite slice_impurity_mean.
  - cbn [aScores_of]. auto.
  - rewrite Hrun in Hpass. now inversion Hpass; subst.
Qed.
End Squares.

(** X21.  Purification never adds weighted energy: in exact arithmetic,
    for a valid shape and weights that are not negative, whenever
    [PurifyInternal] returns, the weighted sum of the squares of the
    residual scores is at most that of the scores passed in.  Every step
    that subtracts a weighted mean (the intercept, each slice) lowers the
    sum by the square of the mean times the weight it was taken over. *)
Theorem residual_squares_not_increased (fuel : nat) (cTensorBins : Z) (tolerance : Q)
    (cDimensions : Z) (aDimensionLengths : list Z) (aWeights : list Q)
    (m : memory) (e : ErrorEbm) (r : memory) :
  let lens := firstn (Z.to_nat cDimensions) aDimensionLengths in
  valid_shape lens cTensorBins ->
  Z.of_nat (length (mScores m)) = cTensorBins ->
  nonneg_weights cTensorBins aWeights ->
  PurifyInternal fuel cTensorBins tolerance cDimensions aDimensionLengths aWeights m
    = Done (e, r) ->
  (weighted_square_sum cTensorBins aWeights (mScores r)
   <= weighted_square_sum cTensorBins aWeights (mScores m))%Q.
Proof.
  intros lens Hvalid Hlen Hnn Hrun.
  destruct (feqb f0 (weight_sum cTensorBins aWeights)) eqn:Hw.
  { rewrite zero_weight_noop_any in Hrun by exact Hw.
    inversion Hrun; subst. apply Qle_refl. }
  rewrite PurifyInternal_passes in Hrun by exact Hw.
  fold lens in Hrun. cbv zeta in Hrun.
  set (S := count_surface_bins lens cTensorBins) in *.
  set (M := impurity_threshold cTensorBins tolerance aWeights (mScores m)) in *.
  set (m1 := extract_intercept cTensorBins
               (sum_totals cTensorBins aWeights (mScores m)) m) in *.
  set (E0 := weighted_square_sum cTensorBins aWeights (mScores m)).
  assert (Hm1 : Z.of_nat (length (mScores m1)) = cTensorBins /\
                (weighted_square_sum cTensorBins aWeights (mScores m1) <= E0)%Q).
  { subst m1. unfold extract_intercept.
    destruct (mInterceptOut m); cbn [mScores]; [|split; [exact Hlen|apply Qle_refl]].
    split; [now rewrite subtract_intercept_length|].
    change (subtract_intercept cTensorBins ?v ?a) with (slice_update a (zrange cTensorBins) v).
    apply slice_mean_removal_squares; auto.
    - apply zrange_NoDup.
    - intros c Hc. now apply zrange_In.
    - rewrite sum_totals_spec. cbn [impurityTotalAll weightTotalAll]. qarith.
      unfold slice_mean.
      assert (HW : (slice_weight aWeights (zrange cTensorBins)
                    == weight_sum cTensorBins aWeights)%Q)
        by (unfold slice_weight; now rewrite weight_sum_sumQ).
      assert (HS : (slice_weighted_sum aWeights (mScores m) (zrange cTensorBins)
                    == weighted_score_sum cTensorBins aWeights (mScores m))%Q)
        by (unfold slice_weighted_sum; now rewrite weighted_score_sum_sumQ).
      assert (E : Qeq_bool (slice_weight aWeights (zrange cTensorBins)) 0 = false).
      { apply Qeq_bool_false_iff. rewrite HW. intros H0.
        qarith. apply Qeq_bool_false_iff in Hw. apply Hw. now symmetry. }
      rewrite E, HW, HS. reflexivity. }
  destruct Hm1 as (Hl1 & HE1).
  destruct (purify_loop fuel lens cTensorBins S aWeights M None (mScores m1)
              (memset_zero S (mImpurities m1))) as [[sc' im']| |] eqn:Hloop;
    try discriminate.
  inversion Hrun; subst e r; clear Hrun. cbn [mScores].
  pose proof (count_surface_bins_le Hvalid) as HSle. fold S in HSle.
  destruct (@purify_loop_last_pass Q Q_arith lens cTensorBins S aWeights M
              (fun sc im => Z.of_nat (length sc) = cTensorBins /\
                            (weighted_square_sum cTensorBins aWeights sc <= E0)%Q))
    with (fuel := fuel) (prev := @None Q) (sc := mScores m1)
         (im := memset_zero S (mImpurities m1)) (sc' := sc') (im' := im')
    as (prev & scIn & imIn & st & (HlIn & HEIn) & Hpass & -> & _ & _); auto.
  { intros sc im st (Hl & HE) Hpass.
    exact (@purify_pass_squares lens cTensorBins aWeights M Hvalid Hnn S sc im st E0
             HSle Hl HE Hpass). }
  exact (proj2 (@purify_pass_squares lens cTensorBins aWeights M Hvalid Hnn S scIn imIn st E0
                  HSle HlIn HEIn Hpass)).
Qed.

Lemma residual_squares_not_increased_witness :
  valid_shape (firstn (Z.to_nat 2) [2; 2]) 4 /\
  Z.of_nat (length (mScores example_memory)) = 4 /\
  nonneg_weights 4 example_weights /\
  (weighted_square_sum 4 example_weights (mScores example_result)
   <= weighted_square_sum 4 example_weights (mScores example_memory))%Q.
Proof.
  assert (Hl : Z.of_nat (length (mScores example_memory)) = 4) by reflexivity.
  split; [exact example_valid_shape|]. split; [exact Hl|].
  split; [exact example_nonneg_weights|].
  exact (@residual_squares_not_increased 10 4 (1 # 10)%Q 2 [2; 2] example_weights
           example_memory Error_None example_result example_valid_shape Hl
           example_nonneg_weights example_run).
Defined.

(** ** The number of surface bins *)

Lemma extent_divides_count (lens : list Z) (T len : Z) :
  valid_shape lens T -> In len lens -> 1 <= T / len <= T.
Proof.
  intros Hvalid Hin.
  apply in_split in Hin. destruct Hin as (p & q & Heq). subst lens.
  destruct (valid_shape_split _ _ _ Hvalid) as (_ & Hn & _ & HP & HQ & HT & HTn & _).
  rewrite HTn. rewrite HT. nia.
Qed.

Lemma surface_bin_count_between (lens : list Z) (T : Z) :
  Forall (fun len => 1 <= T / len <= T) lens ->
  Z.of_nat (length lens) <= surface_bin_count lens T <= Z.of_nat (length lens) * T.
Proof.
  induction 1 as [|len lens Hlen _ IH].
  - cbn. lia.
  - rewrite surface_bin_count_cons. cbn [length]. lia.
Qed.

(** X22.  The number of surface bins, which is the number of entries of
    the impurities buffer that a call uses: for a valid shape the code's
    count is the sum over the dimensions of [cTensorBins / extent],
    reduced to the size type; the sum is at least the number of
    dimensions and at most that number times [cTensorBins], and when it
    fits the size type the count is the sum itself. *)
Theorem surface_bin_count_value (lens : list Z) (cTensorBins : Z) :
  valid_shape lens cTensorBins ->
  count_surface_bins lens cTensorBins = wrap (surface_bin_count lens cTensorBins) /\
  Z.of_nat (length lens) <= surface_bin_count lens cTensorBins
    <= Z.of_nat (length lens) * cTensorBins /\
  (surface_bin_count lens cTensorBins < size_modulus ->
   count_surface_bins lens cTensorBins = surface_bin_count lens cTensorBins).
Proof.
  intros Hvalid.
  assert (Hb : Z.of_nat (length lens) <= surface_bin_count lens cTensorBins
               <= Z.of_nat (length lens) * cTensorBins).
  { apply surface_bin_count_between. apply Forall_forall.
    intros len Hlen. now apply extent_divides_count with lens. }
  assert (E : count_surface_bins lens cTensorBins
              = wrap (surface_bin_count lens cTensorBins)).
  { unfold count_surface_bins. change 0 with (wrap 0) at 1.
    rewrite count_surface_bins_wrap by (eapply valid_shape_extent_bound; eauto).
    now rewrite Z.add_0_l. }
  split; [exact E|]. split; [exact Hb|].
  intros Hfit. rewrite E. apply wrap_small. lia.
Qed.

Lemma surface_bin_count_value_witness :
  valid_shape [4; 3; 2] 24 /\
  count_surface_bins [4; 3; 2] 24 = 26 /\
  3 <= surface_bin_count [4; 3; 2] 24 <= 3 * 24.
Proof.
  assert (Hv : valid_shape [4; 3; 2] 24).
  { split; [repeat constructor|split; reflexivity]. }
  split; [exact Hv|].
  destruct (surface_bin_count_value Hv) as (Hc & Hb & _).
  split; [exact Hc|exact Hb].
Defined.

(** ** Binary64: a slice without weight *)







(** ** Exact arithmetic: a last dimension of extent one *)

(** X24.  A last dimension of extent 1 takes everything: in exact
    arithmetic, for a valid shape whose last extent is 1 and weights that
    are not negative, with a sum other than zero, whenever
    [PurifyInternal] returns, the residual score of every cell with a
    weight other than zero is zero.  Each slice along that dimension is a
    single cell, and the slice update removes the cell's whole score. *)
Theorem unit_last_dimension_takes_all (fuel : nat) (cTensorBins : Z) (tolerance : Q)
    (cDimensions : Z) (aDimensionLengths : list Z) (aWeights : list Q)
    (m : memory) (e : ErrorEbm) (r : memory) (p : list Z) :
  let lens := firstn (Z.to_nat cDimensions) aDimensionLengths in
  lens = p ++ [1] ->
  valid_shape lens cTensorBins ->
  surface_bin_count lens cTensorBins < size_modulus ->
  Z.of_nat (length (mScores m)) = cTensorBins ->
  nonneg_weights cTensorBins aWeights ->
  ~ (weight_sum cTensorBins aWeights == 0)%Q ->
  PurifyInternal fuel cTensorBins tolerance cDimensions aDimensionLengths aWeights m
    = Done (e, r) ->
  forall i, 0 <= i < cTensorBins ->
    ~ (load 0%Q aWeights i == 0)%Q ->
    (load 0%Q (mScores r) i == 0)%Q.
Proof.
  intros lens Hlast Hvalid HS Hlen Hnn Hw Hrun i Hi Hwi.
  assert (Hvalid' : valid_shape (p ++ 1 :: []) cTensorBins) by (now rewrite <- Hlast).
  destruct (@cell_on_slice p 1 [] cTensorBins i Hvalid' Hi) as (k0 & s & Hk0 & Hdec & Hin).
  destruct (dimension_ids _ _ _ Hvalid') as (Hlo & Hhi).
  assert (Hk : 0 <= surface_bin_count p cTensorBins + k0
               < surface_bin_count lens cTensorBins) by (rewrite Hlast; lia).
  rewrite <- Hlast in Hdec.
  destruct (decode_in_tensor Hvalid Hk) as (s' & Hdec' & Hs & _).
  assert (s' = s) by congruence. subst s'.
  pose proof Hdec as Hdec2.
  rewrite Hlast, decode_at in Hdec2 by assumption.
  injection Hdec2 as Es.
  assert (Hdim : iSweepDimension s = (length lens - 1)%nat).
  { rewrite <- Es, Hlast, length_app. cbn [iSweepDimension length]. lia. }
  assert (Hcells : slice_cells s = [i]).
  { assert (Hn : cSweepBins s = 1) by (now rewrite <- Es).
    assert (Hspec : slice_cells s = [iTensor s + cTensorIncrement s * Z.of_nat 0])
      by (rewrite (slice_cells_spec Hs), Hn; reflexivity).
    rewrite Hspec in Hin. destruct Hin as [Hin|[]].
    rewrite Hspec. f_equal. exact Hin. }
  destruct (@returned_scores_of_pass fuel cTensorBins tolerance cDimensions
              aDimensionLengths aWeights m e r Hvalid HS Hlen Hw Hrun)
    as (scIn & imIn & st & HscIn & Hpass & Hsc).
  fold lens in Hpass.
  pose proof (@purify_pass_last_dimension lens cTensorBins aWeights _ Hvalid Hnn
                scIn imIn st _ s HscIn Hpass Hk Hdec Hdim) as Hzero.
  rewrite <- Hsc in Hzero.
  rewrite Hcells in Hzero.
  assert (Hprod : (load 0%Q (mScores r) i * load 0%Q aWeights i == 0)%Q).
  { eapply Qeq_trans; [|exact Hzero].
    unfold slice_weighted_sum. cbn [map]. rewrite sumQ_cons. cbn [map sumQ fold_right].
    ring. }
  apply Qmult_integral in Hprod. destruct Hprod as [H0|H0]; [exact H0|contradiction].
Qed.

Lemma unit_last_dimension_takes_all_witness :
  firstn (Z.to_nat 2) [2; 1] = [2] ++ [1] /\
  valid_shape (firstn (Z.to_nat 2) [2; 1]) 2 /\
  surface_bin_count (firstn (Z.to_nat 2) [2; 1]) 2 < size_modulus /\
  nonneg_weights 2 [1; 1]%Q /\
  ~ (weight_sum 2 [1; 1]%Q == 0)%Q /\
  exists r : memory,
    PurifyInternal 3 2 0%Q 2 [2; 1] [1; 1]%Q (mkMem [1; 2]%Q [0; 0; 0]%Q None)
      = Done (Error_None, r) /\
    forall i, 0 <= i < 2 ->
      ~ (load 0%Q [1; 1]%Q i == 0)%Q ->
      (load 0%Q (mScores r) i == 0)%Q.
Proof.
  assert (Hlast : firstn (Z.to_nat 2) [2; 1] = [2] ++ [1]) by reflexivity.
  assert (Hv : valid_shape (firstn (Z.to_nat 2) [2; 1]) 2).
  { split; [repeat constructor|split; reflexivity]. }
  assert (HS : surface_bin_count (firstn (Z.to_nat 2) [2; 1]) 2 < size_modulus)
    by reflexivity.
  assert (Hnn : nonneg_weights 2 [1; 1]%Q).
  { intros i Hi. assert (Hcases : i = 0 \/ i = 1) by lia.
    destruct Hcases as [-> | ->]; vm_compute; discriminate. }
  assert (Hw : ~ (weight_sum 2 [1; 1]%Q == 0)%Q) by (vm_compute; discriminate).
  split; [exact Hlast|]. split; [exact Hv|]. split; [exact HS|].
  split; [exact Hnn|]. split; [exact Hw|].
  destruct (PurifyInternal 3 2 0%Q 2 [2; 1] [1; 1]%Q (mkMem [1; 2]%Q [0; 0; 0]%Q None))
    as [[e r]| |] eqn:Hrun;
    [|vm_compute in Hrun; discriminate|vm_compute in Hrun; discriminate].
  exists r. split.
  - now rewrite (PurifyInternal_error_none _ _ _ _ _ _ _ Hrun).
  - exact (@unit_last_dimension_takes_all 3 2 0%Q 2 [2; 1] [1; 1]%Q
             (mkMem [1; 2]%Q [0; 0; 0]%Q None) e r [2] Hlast Hv HS eq_refl Hnn Hw Hrun).
Defined.

(** ** Exact arithmetic: a negative tolerance *)

(** Below a negative threshold every slice sets [bRetry]. *)
Lemma purify_pass_always_retry (lens : list Z) (T : Z) (w : list Q) (M : Q)
    (sc im : list Q) (st : pass_state) :
  valid_shape lens T ->
  (0 < length lens)%nat ->
  (M < 0)%Q ->
  purify_pass lens T (surface_bin_count lens T) w M sc im = Some st ->
  bRetry st = true.
Proof.
  intros Hvalid HD HM Hpass.
  assert (HS : 0 <= 0 < surface_bin_count lens T).
  { assert (Hb : Z.of_nat (length lens) <= surface_bin_count lens T
                 <= Z.of_nat (length lens) * T).
    { apply surface_bin_count_between. apply Forall_forall.
      intros len Hlen. now apply extent_divides_count with lens. }
    lia. }
  destruct (zrange_split HS) as (suf & Hsplit).
  change (zrange 0) with (@nil Z) in Hsplit. cbn [app] in Hsplit.
  unfold purify_pass in Hpass. rewrite Hsplit, purify_bins_cons in Hpass.
  destruct (@purify_bin_valid Q Q_arith lens T w M (mkPass sc im f0 false) 0 Hvalid HS)
    as (s & _ & _ & Hbin).
  rewrite Hbin in Hpass.
  apply (purify_bins_retry_mono _ _ _ _ _ _ Hpass).
  rewrite purify_slice_retry. cbn [bRetry orb aScores_of]. qarith.
  apply negb_true_iff. apply not_true_is_false. intros Hle.
  apply Qle_bool_iff in Hle.
  pose proof (Qabs_nonneg (slice_impurity w sc (slice_cells s))). lra.
Qed.

(** X25.  A negative tolerance is not rejected: in exact arithmetic, for
    a valid shape of at least one dimension, when the threshold
    [impurityMax] comes out negative, every pass sets [bRetry], so one
    pass never ends the call, and a call that returns made [n >= 1]
    passes that did not leave the loop and left it in the pass after
    them by the test [impurityPrev <= impurityCur]: [impurityPrev], the
    total of the pass before, was not above the total of the last pass,
    whose [bRetry] was set all the same. *)
Theorem negative_threshold_ends_by_guard (fuel : nat) (cTensorBins : Z) (tolerance : Q)
    (cDimensions : Z) (aDimensionLengths : list Z) (aWeights : list Q)
    (m : memory) (e : ErrorEbm) (r : memory) :
  let lens := firstn (Z.to_nat cDimensions) aDimensionLengths in
  let cSurfaceBins := surface_bin_count lens cTensorBins in
  let impurityMax := impurity_threshold cTensorBins tolerance aWeights (mScores m) in
  let m1 := extract_intercept cTensorBins
              (sum_totals cTensorBins aWeights (mScores m)) m in
  valid_shape lens cTensorBins ->
  (0 < length lens)%nat ->
  cSurfaceBins < size_modulus ->
  ~ (weight_sum cTensorBins aWeights == 0)%Q ->
  (impurityMax < 0)%Q ->
  PurifyInternal fuel cTensorBins tolerance cDimensions aDimensionLengths aWeights m
    = Done (e, r) ->
  PurifyInternal 1 cTensorBins tolerance cDimensions aDimensionLengths aWeights m
    = OutOfFuel /\
  exists (n : nat) (impurityPrev : Q) (aScoresIn aImpuritiesIn : list Q)
         (st : pass_state),
    (1 <= n)%nat /\
    passes n lens cTensorBins cSurfaceBins aWeights impurityMax None
           (mScores m1) (memset_zero cSurfaceBins (mImpurities m1))
      = Some (Some impurityPrev, aScoresIn, aImpuritiesIn) /\
    purify_pass lens cTensorBins cSurfaceBins aWeights impurityMax aScoresIn aImpuritiesIn
      = Some st /\
    mScores r = aScores_of st /\ mImpurities r = aImpurities_of st /\
    bRetry st = true /\
    (impurityPrev <= impurityCur st)%Q.
Proof.
  intros lens cSurfaceBins impurityMax m1 Hvalid HD HS Hw HM Hrun.
  assert (HSc : count_surface_bins lens cTensorBins = cSurfaceBins)
    by (apply count_surface_bins_exact; assumption).
  assert (Hwb : feqb f0 (weight_sum cTensorBins aWeights) = false)
    by (apply Qeq_bool_false_iff; intros H0; apply Hw; now symmetry).
  rewrite PurifyInternal_passes in Hrun by exact Hwb.
  rewrite PurifyInternal_passes by exact Hwb.
  fold lens in Hrun |- *. cbv zeta in Hrun |- *. rewrite HSc in Hrun |- *.
  fold impurityMax in Hrun |- *. fold m1 in Hrun |- *.
  split.
  - cbn [purify_loop].
    destruct (purify_pass lens cTensorBins cSurfaceBins aWeights impurityMax (mScores m1)
                (memset_zero cSurfaceBins (mImpurities m1))) as [st|] eqn:Hpass.
    + cbn [not_improved]. qarith.
      now rewrite (@purify_pass_always_retry lens cTensorBins aWeights impurityMax
                     _ _ st Hvalid HD HM Hpass).
    + exfalso.
      destruct (@purify_bins_invariant Q Q_arith (fun _ => True) lens cTensorBins aWeights
                  impurityMax (zrange cSurfaceBins) Hvalid)
        with (st := mkPass (mScores m1) (memset_zero cSurfaceBins (mImpurities m1))
                           (@f0 Q Q_arith) false) as (st & Hrun' & _); auto.
      { intros k Hk. apply zrange_In in Hk. exact Hk. }
      unfold purify_pass in Hpass. congruence.
  - destruct (purify_loop fuel lens cTensorBins cSurfaceBins aWeights impurityMax None
                (mScores m1) (memset_zero cSurfaceBins (mImpurities m1)))
      as [[sc' im']| |] eqn:Hloop; try discriminate.
    inversion Hrun; subst e r; clear Hrun. cbn [mScores mImpurities].
    destruct (@purify_loop_exit Q Q_arith lens cTensorBins cSurfaceBins aWeights
                impurityMax (fun _ _ => True))
      with (fuel := fuel) (prev := @None Q) (sc := mScores m1)
           (im := memset_zero cSurfaceBins (mImpurities m1)) (sc' := sc') (im' := im')
      as (n & prev & scIn & imIn & st & _ & Hpasses & _ & Hpass & -> & -> & Hexit); auto.
    pose proof (@purify_pass_always_retry lens cTensorBins aWeights impurityMax
                  scIn imIn st Hvalid HD HM Hpass) as Hretry.
    destruct Hexit as [Hguard|(_ & Hno)]; [|congruence].
    destruct prev as [c|]; [|discriminate].
    exists n, c, scIn, imIn, st.
    split.
    { destruct n as [|n]; [|lia]. cbn [passes] in Hpasses. discriminate. }
    split; [exact Hpasses|]. split; [exact Hpass|].
    split; [reflexivity|]. split; [reflexivity|]. split; [exact Hretry|].
    cbn [not_improved] in Hguard. qarith. now apply Qle_bool_iff.
Qed.

Lemma negative_threshold_ends_by_guard_witness :
  let lens := firstn (Z.to_nat 1) [2] in
  let cSurfaceBins := surface_bin_count lens 2 in
  let impurityMax := impurity_threshold 2 (-1)%Q [1; 1]%Q [1; 3]%Q in
  let m := mkMem [1; 3]%Q [0]%Q None in
  let m1 := extract_intercept 2 (sum_totals 2 [1; 1]%Q (mScores m)) m in
  valid_shape lens 2 /\
  (0 < length lens)%nat /\
  cSurfaceBins < size_modulus /\
  ~ (weight_sum 2 [1; 1]%Q == 0)%Q /\
  (impurityMax < 0)%Q /\
  PurifyInternal 1 2 (-1)%Q 1 [2] [1; 1]%Q m = OutOfFuel /\
  exists r : memory,
    PurifyInternal 3 2 (-1)%Q 1 [2] [1; 1]%Q m = Done (Error_None, r) /\
    exists (n : nat) (impurityPrev : Q) (aScoresIn aImpuritiesIn : list Q)
           (st : pass_state),
      (1 <= n)%nat /\
      passes n lens 2 cSurfaceBins [1; 1]%Q impurityMax None
             (mScores m1) (memset_zero cSurfaceBins (mImpurities m1))
        = Some (Some impurityPrev, aScoresIn, aImpuritiesIn) /\
      purify_pass lens 2 cSurfaceBins [1; 1]%Q impurityMax aScoresIn aImpuritiesIn
        = Some st /\
      mScores r = aScores_of st /\ mImpurities r = aImpurities_of st /\
      bRetry st = true /\
      (impurityPrev <= impurityCur st)%Q.
Proof.
  intros lens cSurfaceBins impurityMax m m1.
  assert (Hv : valid_shape lens 2).
  { split; [repeat constructor|split; reflexivity]. }
  assert (HD : (0 < length lens)%nat)
    by (vm_compute; repeat constructor).
  assert (HS : cSurfaceBins < size_modulus) by reflexivity.
  assert (Hw : ~ (weight_sum 2 [1; 1]%Q == 0)%Q) by (vm_compute; discriminate).
  assert (HM : (impurityMax < 0)%Q) by reflexivity.
  split; [exact Hv|]. split; [exact HD|]. split; [exact HS|]. split; [exact Hw|].
  split; [exact HM|].
  destruct (PurifyInternal 3 2 (-1)%Q 1 [2] [1; 1]%Q m)
    as [[e r]| |] eqn:Hrun;
    [|vm_compute in Hrun; discriminate|vm_compute in Hrun; discriminate].
  destruct (@negative_threshold_ends_by_guard 3 2 (-1)%Q 1 [2] [1; 1]%Q
              m e r Hv HD HS Hw HM Hrun) as (Hone & Hlast).
  split; [exact Hone|].
  exists r. split; [|exact Hlast].
  now rewrite (PurifyInternal_error_none _ _ _ _ _ _ _ Hrun).
Defined.

(** ** Exact arithmetic: scaling the scores and the weights *)

Lemma scaled_by_load (c : Q) (a a' : list Q) (i : Z) :
  scaled_by c a a' -> (load 0%Q a' i == c * load 0%Q a i)%Q.
Proof.
  unfold load. generalize (Z.to_nat i). intros n H. revert n.
  induction H as [|x x' a a' Hx _ IH]; intros n.
  - destruct n; cbn; ring.
  - destruct n as [|n]; [exact Hx|apply IH].
Qed.

Lemma scaled_by_upd (c : Q) (a a' : list Q) (n : nat) (v v' : Q) :
  scaled_by c a a' -> (v' == c * v)%Q -> scaled_by c (upd a n v) (upd a' n v').
Proof.
  intros H Hv. revert n.
  induction H as [|x x' a a' Hx Ha IH]; intros n; [constructor|].
  destruct n as [|n]; cbn [upd]; constructor; auto.
  apply IH.
Qed.

Lemma scaled_by_store (c : Q) (a a' : list Q) (i : Z) (v v' : Q) :
  scaled_by c a a' -> (v' == c * v)%Q -> scaled_by c (store a i v) (store a' i v').
Proof.
  intros H Hv. unfold store. destruct (i <? 0); [exact H|now apply scaled_by_upd].
Qed.

Lemma Qle_bool_ext (a a' b b' : Q) :
  (a == a')%Q -> (b == b')%Q -> Qle_bool a b = Qle_bool a' b'.
Proof.
  intros Ha Hb.
  destruct (Qle_bool a' b') eqn:E.
  - apply Qle_bool_iff. apply Qle_bool_iff in E. now rewrite Ha, Hb.
  - apply not_true_is_false. intros H. apply Qle_bool_iff in H.
    rewrite Ha, Hb in H. apply Qle_bool_iff in H. congruence.
Qed.

Lemma Qeq_bool_ext (a a' b b' : Q) :
  (a == a')%Q -> (b == b')%Q -> Qeq_bool a b = Qeq_bool a' b'.
Proof.
  intros Ha Hb.
  destruct (Qeq_bool a' b') eqn:E.
  - apply Qeq_bool_iff. apply Qeq_bool_iff in E. now rewrite Ha, Hb.
  - apply Qeq_bool_false_iff. apply Qeq_bool_false_iff in E.
    intros H. apply E. now rewrite <- Ha, <- Hb.
Qed.

Lemma Qle_bool_scale (k a b : Q) :
  (0 < k)%Q -> Qle_bool (k * a) (k * b) = Qle_bool a b.
Proof.
  intros Hk.
  destruct (Qle_bool a b) eqn:E.
  - apply Qle_bool_iff. apply Qle_bool_iff in E. now apply Qmult_le_l.
  - apply not_true_is_false. intros H. apply Qle_bool_iff in H.
    apply Qmult_le_l in H; [|exact Hk]. apply Qle_bool_iff in H. congruence.
Qed.

Section Scaling.
Variables (c d : Q).
Hypothesis Hc : ~ (c == 0)%Q.
Hypothesis Hd : (0 < d)%Q.
Variables (w w' : list Q).
Hypothesis Hw : scaled_by d w w'.

Lemma Qabs_scale_pos : (0 < Qabs c)%Q.
Proof.
  destruct (Qlt_le_dec c 0) as [Hneg|Hpos].
  - rewrite Qabs_neg by lra. lra.
  - rewrite Qabs_pos by exact Hpos.
    destruct (Qle_lt_or_eq _ _ Hpos) as [Hlt|Heq]; [exact Hlt|].
    exfalso. apply Hc. now symmetry.
Qed.

Lemma slice_sums_scaled (sc sc' : list Q) (cells : list Z) :
  scaled_by c sc sc' ->
  (slice_weighted_sum w' sc' cells == c * d * slice_weighted_sum w sc cells)%Q /\
  (slice_weight w' cells == d * slice_weight w cells)%Q.
Proof.
  intros Hsc. unfold slice_weighted_sum, slice_weight. split.
  - rewrite <- sumQ_map_scale. apply sumQ_map_ext. intros i _.
    rewrite (scaled_by_load i Hsc), (scaled_by_load i Hw). ring.
  - rewrite <- sumQ_map_scale. apply sumQ_map_ext. intros i _.
    rewrite (scaled_by_load i Hw). ring.
Qed.

Lemma slice_impurity_scaled (sc sc' : list Q) (cells : list Z) :
  scaled_by c sc sc' ->
  (slice_impurity w' sc' cells == c * slice_impurity w sc cells)%Q.
Proof.
  intros Hsc. rewrite !slice_impurity_mean. unfold slice_mean.
  destruct (slice_sums_scaled cells Hsc) as (HSW & HW).
  assert (Hb : Qeq_bool (slice_weight w' cells) 0 = Qeq_bool (slice_weight w cells) 0).
  { destruct (Qeq_bool (slice_weight w cells) 0) eqn:E.
    - apply Qeq_bool_iff. apply Qeq_bool_iff in E. rewrite HW, E. ring.
    - apply Qeq_bool_false_iff. apply Qeq_bool_false_iff in E.
      intros H0. apply E. rewrite HW in H0.
      apply Qmult_integral in H0. destruct H0 as [H0|H0]; [lra|exact H0]. }
  rewrite Hb.
  destruct (Qeq_bool (slice_weight w cells) 0) eqn:E; [ring|].
  apply Qeq_bool_false_iff in E.
  rewrite HSW, HW. field. split; [exact E|lra].
Qed.

Lemma slice_update_scaled (cells : list Z) (v v' : Q) :
  (v' == c * v)%Q ->
  forall a a' : list Q,
    scaled_by c a a' ->
    scaled_by c (slice_update a cells v) (slice_update a' cells v').
Proof.
  intros Hv. unfold slice_update.
  induction cells as [|i cells IH]; intros a a' Ha; [exact Ha|].
  cbn [fold_left]. apply IH. apply scaled_by_store; [exact Ha|].
  qarith. rewrite (scaled_by_load i Ha), Hv. ring.
Qed.

Lemma purify_slice_scaled (M M' : Q) (st st' : pass_state) (k : Z) (cells : list Z) :
  (M' == Qabs c * M)%Q ->
  pass_scaled_by c st st' ->
  pass_scaled_by c (purify_slice w M st k cells) (purify_slice w' M' st' k cells).
Proof.
  intros HM (Hsc & Him & Hcur & Hretry).
  pose proof (slice_impurity_scaled cells Hsc) as Hmu.
  unfold pass_scaled_by, purify_slice.
  cbn [aScores_of aImpurities_of impurityCur bRetry]. qarith.
  split; [|split; [|split]].
  - apply slice_update_scaled; [|exact Hsc]. rewrite Hmu. ring.
  - apply scaled_by_store; [exact Him|].
    rewrite (scaled_by_load k Him), Hmu. ring.
  - rewrite Hcur, Hmu, Qabs_Qmult. ring.
  - rewrite Hretry. f_equal. f_equal.
    rewrite (@Qle_bool_ext _ (Qabs c * Qabs (slice_impurity w (aScores_of st) cells))
               _ (Qabs c * M)).
    + apply Qle_bool_scale. exact Qabs_scale_pos.
    + rewrite Hmu. apply Qabs_Qmult.
    + exact HM.
Qed.

Lemma purify_bins_scaled (lens : list Z) (T : Z) (M M' : Q) (bins : list Z) :
  (M' == Qabs c * M)%Q ->
  forall st st' : pass_state,
    pass_scaled_by c st st' ->
    match purify_bins lens T w M bins st, purify_bins lens T w' M' bins st' with
    | Some a, Some b => pass_scaled_by c a b
    | None, None => True
    | _, _ => False
    end.
Proof.
  intros HM. induction bins as [|k bins IH]; intros st st' Hst; [exact Hst|].
  rewrite !purify_bins_cons. unfold purify_bin.
  destruct (decode lens T k) as [s|]; [|exact I].
  apply IH. now apply purify_slice_scaled.
Qed.

Lemma purify_loop_scaled (lens : list Z) (T S : Z) (M M' : Q) (fuel : nat) :
  (M' == Qabs c * M)%Q ->
  forall (prev prev' : option Q) (sc sc' im im' : list Q),
    match prev, prev' with
    | None, None => True
    | Some p, Some p' => (p' == Qabs c * p)%Q
    | _, _ => False
    end ->
    scaled_by c sc sc' -> scaled_by c im im' ->
    match purify_loop fuel lens T S w M prev sc im,
          purify_loop fuel lens T S w' M' prev' sc' im' with
    | Done (a, b), Done (a', b') => scaled_by c a a' /\ scaled_by c b b'
    | Fault, Fault => True
    | OutOfFuel, OutOfFuel => True
    | _, _ => False
    end.
Proof.
  intros HM. induction fuel as [|fuel IH]; intros prev prev' sc sc' im im' Hprev Hsc Him;
    [exact I|].
  cbn [purify_loop]. unfold purify_pass.
  pose proof (@purify_bins_scaled lens T M M' (zrange S) HM
                (mkPass sc im (@f0 Q Q_arith) false)
                (mkPass sc' im' (@f0 Q Q_arith) false)) as Hpass.
  destruct (purify_bins lens T w M (zrange S) (mkPass sc im f0 false)) as [st|];
    destruct (purify_bins lens T w' M' (zrange S) (mkPass sc' im' f0 false)) as [st'|];
    try (exfalso; apply Hpass; repeat split; auto; cbn [impurityCur]; qarith; ring);
    [|exact I].
  destruct Hpass as (Hsc1 & Him1 & Hcur & Hretry).
  { repeat split; auto. cbn [impurityCur]. qarith. ring. }
  assert (Hguard : not_improved prev' (impurityCur st') = not_improved prev (impurityCur st)).
  { destruct prev as [p|], prev' as [p'|]; try contradiction; [|reflexivity].
    cbn [not_improved]. qarith.
    rewrite (@Qle_bool_ext _ (Qabs c * p) _ (Qabs c * impurityCur st) Hprev Hcur).
    apply Qle_bool_scale. exact Qabs_scale_pos. }
  rewrite Hguard, Hretry.
  destruct (not_improved prev (impurityCur st)); [split; assumption|].
  destruct (bRetry st); [|split; assumption].
  apply IH; assumption.
Qed.
End Scaling.

Section ScalingTotals.
Variables c d : Q.
Variables w w' : list Q.
Hypothesis Hw : scaled_by d w w'.

Lemma weight_sum_scaled (T : Z) :
  (weight_sum T w' == d * weight_sum T w)%Q.
Proof.
  rewrite !weight_sum_sumQ, <- sumQ_map_scale. apply sumQ_map_ext.
  intros i _. exact (scaled_by_load i Hw).
Qed.

Lemma weighted_score_sum_scaled (T : Z) (sc sc' : list Q) :
  scaled_by c sc sc' ->
  (weighted_score_sum T w' sc' == c * d * weighted_score_sum T w sc)%Q.
Proof.
  intros Hsc. rewrite !weighted_score_sum_sumQ, <- sumQ_map_scale.
  apply sumQ_map_ext. intros i _.
  rewrite (scaled_by_load i Hsc), (scaled_by_load i Hw). ring.
Qed.

Lemma abs_score_sum_scaled (T : Z) (sc sc' : list Q) :
  (0 < d)%Q ->
  scaled_by c sc sc' ->
  (abs_score_sum T w' sc' == Qabs c * d * abs_score_sum T w sc)%Q.
Proof.
  intros Hd Hsc. unfold abs_score_sum. qarith.
  rewrite (fold_left_sumQ (fun i => Qabs (load 0%Q sc' i * load 0%Q w' i))).
  rewrite (fold_left_sumQ (fun i => Qabs (load 0%Q sc i * load 0%Q w i))).
  rewrite !Qplus_0_l, <- sumQ_map_scale. apply sumQ_map_ext. intros i _.
  rewrite (scaled_by_load i Hsc), (scaled_by_load i Hw).
  rewrite !Qabs_Qmult, (Qabs_pos d) by lra. ring.
Qed.

Lemma subtract_intercept_scaled (T : Z) (v v' : Q) (sc sc' : list Q) :
  (v' == c * v)%Q ->
  scaled_by c sc sc' ->
  scaled_by c (subtract_intercept T v sc) (subtract_intercept T v' sc').
Proof.
  intros Hv. unfold subtract_intercept. revert sc sc'.
  induction (zrange T) as [|i l IH]; intros sc sc' Hsc; [exact Hsc|].
  cbn [fold_left]. apply IH. apply scaled_by_store; [exact Hsc|].
  qarith. rewrite (scaled_by_load i Hsc), Hv. ring.
Qed.

Lemma memset_zero_scaled (S : Z) (im im' : list Q) :
  scaled_by c im im' ->
  scaled_by c (memset_zero S im) (memset_zero S im').
Proof.
  unfold memset_zero. revert im im'.
  induction (zrange (wrap (S * 8) / 8)) as [|i l IH]; intros im im' Him; [exact Him|].
  cbn [fold_left]. apply IH. apply scaled_by_store; [exact Him|].
  qarith. ring.
Qed.
End ScalingTotals.

(** X26. With exact arithmetic, scaling every score (and the content of
    the impurities buffer and the stores of the intercept) by a non-zero
    constant [c] and every weight by a positive constant [d] changes the
    run of [PurifyInternal] only by that scaling: with the same fuel it
    ends the same way, returns the same code, and the scores, impurities
    and intercept it leaves are [c] times those of the original run. *)
Theorem scaling_commutes (c d : Q) (fuel : nat) (cTensorBins : Z) (tolerance : Q)
    (cDimensions : Z) (aDimensionLengths : list Z) (w w' : list Q) (m m' : memory) :
  ~ (c == 0)%Q -> (0 < d)%Q ->
  scaled_by d w w' ->
  memory_scaled_by c m m' ->
  match PurifyInternal fuel cTensorBins tolerance cDimensions aDimensionLengths w m,
        PurifyInternal fuel cTensorBins tolerance cDimensions aDimensionLengths w' m' with
  | Done (e, r), Done (e', r') => e = e' /\ memory_scaled_by c r r'
  | Fault, Fault => True
  | OutOfFuel, OutOfFuel => True
  | _, _ => False
  end.
Proof.
  intros Hc Hd Hw (Hsc & Him & Hout).
  destruct m as [sc im out], m' as [sc' im' out'].
  cbn [mScores mImpurities mInterceptOut] in Hsc, Him, Hout.
  unfold PurifyInternal. cbn [mScores mImpurities mInterceptOut].
  rewrite !sum_totals_spec.
  cbn [weightTotalAll impurityMax0 impurityTotalAll].
  set (T := cTensorBins).
  pose proof (weight_sum_scaled Hw T) as HW.
  pose proof (weighted_score_sum_scaled Hw T Hsc) as HSW.
  pose proof (abs_score_sum_scaled Hw T Hd Hsc) as HA.
  assert (Hz : Qeq_bool 0 (weight_sum T w') = Qeq_bool 0 (weight_sum T w)).
  { destruct (Qeq_bool 0 (weight_sum T w)) eqn:E.
    - apply Qeq_bool_iff. apply Qeq_bool_iff in E. rewrite HW, <- E. ring.
    - apply Qeq_bool_false_iff. apply Qeq_bool_false_iff in E.
      intros H0. apply E. rewrite HW in H0. symmetry in H0.
      apply Qmult_integral in H0. destruct H0 as [H0|H0]; [lra|now symmetry]. }
  qarith. rewrite Hz.
  destruct (Qeq_bool 0 (weight_sum T w)) eqn:E.
  { split; [reflexivity|]. split; [exact Hsc|]. split; [exact Him|exact Hout]. }
  apply Qeq_bool_false_iff in E.
  assert (HWne : ~ (weight_sum T w == 0)%Q) by (intros H0; apply E; now symmetry).
  assert (HM : (abs_score_sum T w' sc' * tolerance / weight_sum T w' ==
                Qabs c * (abs_score_sum T w sc * tolerance / weight_sum T w))%Q).
  { rewrite HA, HW. field. split; [exact HWne|lra]. }
  assert (Hm1 : memory_scaled_by c
            (extract_intercept T (mkTotals (abs_score_sum T w sc)
                                           (weighted_score_sum T w sc)
                                           (weight_sum T w)) (mkMem sc im out))
            (extract_intercept T (mkTotals (abs_score_sum T w' sc')
                                           (weighted_score_sum T w' sc')
                                           (weight_sum T w')) (mkMem sc' im' out'))).
  { unfold extract_intercept. cbn [impurityTotalAll weightTotalAll].
    cbn [mInterceptOut].
    destruct out as [stores|], out' as [stores'|];
      try contradiction; [|split; [exact Hsc|split; [exact Him|exact I]]].
    assert (Hi : (weighted_score_sum T w' sc' / weight_sum T w' ==
                  c * (weighted_score_sum T w sc / weight_sum T w))%Q).
    { rewrite HSW, HW. field. split; [exact HWne|lra]. }
    split; [|split]; cbn [mScores mImpurities mInterceptOut]; qarith.
    - apply subtract_intercept_scaled; [|exact Hsc]. rewrite Hi. ring.
    - exact Him.
    - constructor; [exact Hi|exact Hout]. }
  destruct Hm1 as (Hsc1 & Him1 & Hout1).
  pose proof (@purify_loop_scaled c d Hc Hd w w' Hw
                (firstn (Z.to_nat cDimensions) aDimensionLengths) T
                (count_surface_bins (firstn (Z.to_nat cDimensions) aDimensionLengths) T)
                _ _ fuel HM None None _ _ _ _ I Hsc1
                (@memset_zero_scaled c (count_surface_bins (firstn (Z.to_nat cDimensions) aDimensionLengths) T) _ _ Him1)) as Hloop.
  cbn [mScores mImpurities mInterceptOut] in Hloop.
  destruct (purify_loop fuel (firstn (Z.to_nat cDimensions) aDimensionLengths) T
              (count_surface_bins (firstn (Z.to_nat cDimensions) aDimensionLengths) T)
              w _ None _ _) as [[a1 b1]| |];
    destruct (purify_loop fuel (firstn (Z.to_nat cDimensions) aDimensionLengths) T
                (count_surface_bins (firstn (Z.to_nat cDimensions) aDimensionLengths) T)
                w' _ None _ _) as [[a2 b2]| |];
    try contradiction; try exact I.
  destruct Hloop as (Ha & Hb).
  split; [reflexivity|]. split; [exact Ha|]. split; [exact Hb|exact Hout1].
Qed.

Lemma scaling_commutes_witness :
  ~ (-2 == 0)%Q /\ (0 < 3)%Q /\
  scaled_by 3 [1; 2; 3; 4]%Q [3; 6; 9; 12]%Q /\
  memory_scaled_by (-2) (mkMem [1; 2; 3; 5]%Q [7; 7; 7; 7]%Q (Some []))
                        (mkMem [-2; -4; -6; -10]%Q [-14; -14; -14; -14]%Q (Some [])) /\
  match PurifyInternal 50 4 (1 # 10) 2 [2; 2] [1; 2; 3; 4]%Q
          (mkMem [1; 2; 3; 5]%Q [7; 7; 7; 7]%Q (Some [])),
        PurifyInternal 50 4 (1 # 10) 2 [2; 2] [3; 6; 9; 12]%Q
          (mkMem [-2; -4; -6; -10]%Q [-14; -14; -14; -14]%Q (Some [])) with
  | Done (e, r), Done (e', r') => e = e' /\ memory_scaled_by (-2) r r'
  | Fault, Fault => True
  | OutOfFuel, OutOfFuel => True
  | _, _ => False
  end.
Proof.
  assert (Hc : ~ (-2 == 0)%Q) by (intros H; discriminate H).
  assert (Hd : (0 < 3)%Q) by reflexivity.
  assert (Hw : scaled_by 3 [1; 2; 3; 4]%Q [3; 6; 9; 12]%Q)
    by (repeat constructor).
  assert (Hm : memory_scaled_by (-2) (mkMem [1; 2; 3; 5]%Q [7; 7; 7; 7]%Q (Some []))
                 (mkMem [-2; -4; -6; -10]%Q [-14; -14; -14; -14]%Q (Some [])))
    by (split; [|split]; repeat constructor).
  split; [exact Hc|]. split; [exact Hd|]. split; [exact Hw|]. split; [exact Hm|].
  exact (@scaling_commutes (-2) 3 50 4 (1 # 10) 2 [2; 2] _ _ _ _ Hc Hd Hw Hm).
Defined.
